(** * StochasticGrammar: the rule compiler and registry of [Grammar.h]

    A shallow embedding of [Grammar<Data>] (src/StochasticGrammar/Grammar.h):
    the registry [m_pRules], the text compiler [ParseRule] with its five
    [Parse...Rule] / [Add...Rule] pairs, [ChangeRule], [AddLeaveNode] and
    [GenerateSequence].  [std::string] positions are [size_t] values, kept
    as [Z] with the wrap-around of unsigned 64-bit arithmetic written out.

    [Grammar.h] instantiates [Node<Data>] and its subclasses, which the
    [Nodes.h] at hand does not declare (it holds an older [Node] that is
    no template).  What the model needs of them is stated where it is
    introduced. *)

From Stdlib Require Import ZArith String Ascii List Lia.
From Stdlib Require Import Floats.SpecFloat.
From stdpp Require Import gmap strings list fin_maps.

Local Open Scope string_scope.
Local Open Scope Z_scope.

(** ** [size_t] *)

Module SizeT.

Definition modulus : Z := 2 ^ 64.

(** [std::string::npos] is [size_t(-1)]. *)
Definition npos : Z := modulus - 1.

Definition wrap (z : Z) : Z := z mod modulus.

Definition add (a b : Z) : Z := wrap (a + b).
Definition sub (a b : Z) : Z := wrap (a - b).

End SizeT.

(** ** The [std::string] members that [Grammar.h] calls *)

Module StdString.

Import SizeT.

Definition size (s : string) : Z := Z.of_nat (String.length s).

(** A [std::string] holds fewer than [npos] characters. *)
Definition fits (s : string) : Prop := size s < npos.

Fixpoint starts_with (pat s : string) : bool :=
  match pat, s with
  | EmptyString, _ => true
  | String _ _, EmptyString => false
  | String a pat', String b s' =>
      if Ascii.eqb a b then starts_with pat' s' else false
  end.

Fixpoint drop (n : nat) (s : string) : string :=
  match n, s with
  | O, _ => s
  | S _, EmptyString => EmptyString
  | S n', String _ s' => drop n' s'
  end.

Fixpoint take (n : nat) (s : string) : string :=
  match n, s with
  | O, _ => EmptyString
  | S _, EmptyString => EmptyString
  | S n', String c s' => String c (take n' s')
  end.

(** First index [>= i] at which [pat] starts, scanning [s] whose first
    character has index [i]. *)
Fixpoint find_from (pat s : string) (i : nat) : option nat :=
  if starts_with pat s then Some i
  else match s with
       | EmptyString => None
       | String _ s' => find_from pat s' (S i)
       end.

Fixpoint mem (c : ascii) (set : string) : bool :=
  match set with
  | EmptyString => false
  | String d set' => if Ascii.eqb c d then true else mem c set'
  end.

Fixpoint first_not_of_from (set s : string) (i : nat) : option nat :=
  match s with
  | EmptyString => None
  | String c s' =>
      if mem c set then first_not_of_from set s' (S i) else Some i
  end.

Definition to_size_t (o : option nat) : Z :=
  match o with
  | Some i => Z.of_nat i
  | None => npos
  end.

(** [s.find(pat, pos)] *)
Definition find (s pat : string) (pos : Z) : Z :=
  if size s <? pos then npos
  else to_size_t (find_from pat (drop (Z.to_nat pos) s) (Z.to_nat pos)).

(** [s.find_first_not_of(set, pos)]: [set] is a set of characters. *)
Definition find_first_not_of (s set : string) (pos : Z) : Z :=
  if size s <? pos then npos
  else to_size_t (first_not_of_from set (drop (Z.to_nat pos) s) (Z.to_nat pos)).

(** [s.substr(pos, n)]: [None] stands for [std::out_of_range], thrown when
    [pos > size()]; the count is clamped to the characters that remain. *)
Definition substr (s : string) (pos n : Z) : option string :=
  if size s <? pos then None
  else Some (take (Z.to_nat (Z.min n (size s - pos))) (drop (Z.to_nat pos) s)).

End StdString.

(** ** Outcomes

    The exceptions that can leave [Grammar.h]: its own [Rule404Exception],
    and the two that [std::stof] and [std::string::substr] throw.
    [Undefined] is a call through a pointer that holds no node.  [Fuel]
    marks a run of the model that was given too small a recursion bound; it
    is not an outcome of the program. *)

Inductive exn : Type :=
| Rule404Exception
| invalid_argument
| out_of_range.

Inductive res (A : Type) : Type :=
| Ok (a : A)
| Throw (e : exn)
| Undefined
| Fuel.

Arguments Ok {A} a.
Arguments Throw {A} e.
Arguments Undefined {A}.
Arguments Fuel {A}.

#[global] Instance res_ret : MRet res := fun A a => Ok a.

#[global] Instance res_bind : MBind res := fun A B f m =>
  match m with
  | Ok a => f a
  | Throw e => Throw e
  | Undefined => Undefined
  | Fuel => Fuel
  end.

Definition of_option {A : Type} (e : exn) (o : option A) : res A :=
  match o with
  | Some a => Ok a
  | None => Throw e
  end.

(** A call that returns a value or throws. *)
Definition lift {A : Type} (r : exn + A) : res A :=
  match r with
  | inl e => Throw e
  | inr a => Ok a
  end.

(** ** [float]: IEEE 754 binary32 *)

Definition float : Type := spec_float.
Definition prec : Z := 24.
Definition emax : Z := 128.

Definition float_zero : float := S754_zero false.
Definition float_of_Z (z : Z) : float := binary_normalize prec emax z 0 false.
Definition fadd (x y : float) : float := SFadd prec emax x y.
Definition fdiv (x y : float) : float := SFdiv prec emax x y.

(** [x <= 0] on floats; false on NaN. *)
Definition non_positive (x : float) : bool := SFleb x float_zero.

(** [x < 0] on floats. *)
Definition negative (x : float) : bool := SFltb x float_zero.

(** The conversion of a float to [int]: the fraction is discarded. *)
Definition float_to_int (x : float) : Z :=
  match x with
  | S754_finite s m e =>
      let v := if 0 <=? e then Zpos m * 2 ^ e else Zpos m / 2 ^ (- e) in
      if s then - v else v
  | _ => 0
  end.

(** ** Delimiters *)

Definition SEQ_DEL : string := " & ".
Definition SEL_DEL : string := " | ".
Definition REP_DEL : string := " # ".
Definition LND_DEL : string := " -> ".

(** ** Pointers

    A [Node*] (or the pointer a [shared_ptr] holds) is an address: [null],
    or [S i] for cell [i] of the store of nodes. *)

Definition ptr : Type := nat.
Definition null : ptr := O.

(** ** Nodes and the grammar *)

Section GrammarModel.

(** The template parameter. *)
Variable Data : Type.

(** [Grammar<std::string>] specialises [AddSingleRule]: there a rule text
    can be the payload of a leaf.  [of_token] is [Some conv] for that
    instance ([Data = std::string], [conv] the identity) and [None] for
    every other [Data]. *)
Variable of_token : option (string -> Data).

(** [std::stof]: the float a string starts with, or the exception thrown
    ([invalid_argument] when no conversion can be made, [out_of_range] when
    the value does not fit). *)
Variable stof : string -> exn + float.

(** The value [ruleName.length()] yields inside [ruleName]'s own
    initialiser in [ParseLNodeRule], where [ruleName] is not yet
    constructed: any [size_t], possibly another one for each rule text. *)
Variable uninitialised_length : string -> Z.

(** Modelled from the spec: the class templates [LeafNode], [SelectNode],
    [SequenceNode], [RepetitionNode] and [LNode] that [Grammar.h]
    instantiates are not declared in [Nodes.h].  The variants are those
    of the spec's data model, and each holds what [Grammar.h] gives it,
    the arguments of its constructor and of [AddOption] and [AddElement]:
    [LNode(m_pRules[rule].get(), m_pRules[fallbackRule])] keeps the node of
    [rule] first and the node of [fallbackRule] second. *)
Inductive Node : Type :=
| LeafNode (value : Data)
| SelectNode (options : list (ptr * float))
| SequenceNode (elements : list ptr)
| RepetitionNode (pNode : ptr) (repetitions : float)
| LNode (pNode : ptr) (pFallback : ptr).

(** [m_pRules], and the nodes that were made: [make_shared] adds a cell,
    and a pointer names the node that was made, not the address that it
    got.  The store keeps every node; it does not follow the release of a
    node by the last [shared_ptr] that held it.  Which nodes a
    [shared_ptr] holds is [owned] below: what the store has at a pointer
    that is not [owned] says nothing about the program, where that node
    is destroyed and its address free to be given to a node made later. *)
Record Grammar : Type := mkGrammar {
  m_pRules : gmap string ptr;
  store : list Node
}.

Definition empty_grammar : Grammar := mkGrammar ∅ [].

Definition deref (st : list Node) (p : ptr) : option Node :=
  match p with
  | O => None
  | S i => st !! i
  end.

Definition make_shared (n : Node) (g : Grammar) : ptr * Grammar :=
  (S (length (store g)), mkGrammar (m_pRules g) (store g ++ [n])).

(** [m_pRules.find(name) != m_pRules.end()] *)
Definition registered (name : string) (g : Grammar) : bool :=
  bool_decide (is_Some (m_pRules g !! name)).

(** [m_pRules[name]] read: an absent key is inserted with a null pointer. *)
Definition subscript (name : string) (g : Grammar) : ptr * Grammar :=
  match m_pRules g !! name with
  | Some p => (p, g)
  | None => (null, mkGrammar (<[name := null]> (m_pRules g)) (store g))
  end.

(** [m_pRules[name] = p] *)
Definition assign (name : string) (p : ptr) (g : Grammar) : Grammar :=
  mkGrammar (<[name := p]> (m_pRules g)) (store g).

(** The node that [name] is registered to. *)
Definition node_of (g : Grammar) (name : string) : option Node :=
  m_pRules g !! name ≫= deref (store g).

(** *** [SwapDependingNode] *)

Definition swap_ptr (oldNode newNode p : ptr) : ptr :=
  if decide (p = oldNode) then newNode else p.

(** Modelled from the spec: [Node<Data>::SwapDependingNode] and its
    overrides are not in [Nodes.h].  "Every live Node in the graph that
    references the old Node object must be rewritten to reference the new
    one": called on a node, it rewrites that node's own references. *)
Definition SwapDependingNode (oldNode newNode : ptr) (n : Node) : Node :=
  match n with
  | LeafNode v => LeafNode v
  | SelectNode options =>
      SelectNode (map (fun o => (swap_ptr oldNode newNode (fst o), snd o)) options)
  | SequenceNode elements => SequenceNode (map (swap_ptr oldNode newNode) elements)
  | RepetitionNode p n => RepetitionNode (swap_ptr oldNode newNode p) n
  | LNode p f => LNode (swap_ptr oldNode newNode p) (swap_ptr oldNode newNode f)
  end.

(** [p->SwapDependingNode(oldNode, newNode)] on the store. *)
Definition swap_at (oldNode newNode : ptr) (p : ptr) (st : list Node) : list Node :=
  match p with
  | O => st
  | S i => alter (SwapDependingNode oldNode newNode) i st
  end.

(** *** [ChangeRule] *)

Definition ChangeRule (ruleName : string) (newNode : ptr) (g : Grammar) : Grammar :=
  let (oldNode, g0) := subscript ruleName g in
  if decide (oldNode = newNode) then g0
  else
    let rules := <[ruleName := newNode]> (m_pRules g0) in
    mkGrammar rules
      (map_fold (fun _ p st => swap_at oldNode newNode p st) (store g0) rules).

(** The end of every [Add...Rule]: the new node replaces the one [name]
    had, through [ChangeRule], or is inserted under a name that is new. *)
Definition install_ptr (name : string) (p : ptr) (g : Grammar) : Grammar :=
  if registered name g then ChangeRule name p g else assign name p g.

Definition install (name : string) (n : Node) (g : Grammar) : Grammar :=
  let (p, g1) := make_shared n g in install_ptr name p g1.

(** *** [AddLeaveNode] *)

(** The assignment replaces the [shared_ptr] that [name] had, so the node
    that it held loses this owner.  There is no call of [ChangeRule]. *)
Definition AddLeaveNode (name : string) (data : Data) (g : Grammar) : Grammar :=
  let (leaf, g1) := make_shared (LeafNode data) g in
  assign name leaf g1.

(** *** [AddSingleRule], both the [std::string] specialisation and the
    primary template *)

Definition AddSingleRule (name rule : string) (g : Grammar) : res Grammar :=
  g1 ← (if registered rule g then Ok g
        else match of_token with
             | Some conv =>
                 let (leaf, g') := make_shared (LeafNode (conv rule)) g in
                 Ok (assign rule leaf g')
             | None => Throw Rule404Exception
             end);
  let (p, g2) := subscript rule g1 in
  Ok (install_ptr name p g2).

(** *** The [Add...Rule] members

    [ParseRule] is the compiler they call back for a subrule that is not
    registered yet. *)

Section AddRules.

Variable ParseRule : string -> string -> Grammar -> res Grammar.

(** [if (m_pRules.find(rule) == m_pRules.end()) { ParseRule(rule, rule); }] *)
Definition ensure (rule : string) (g : Grammar) : res Grammar :=
  if registered rule g then Ok g else ParseRule rule rule g.

(** The node under construction is referenced by nothing before it is
    installed, so the loop keeps its options as a value. *)
Fixpoint AddSelectorRule_loop (rules : list (string * float))
    (options : list (ptr * float)) (g : Grammar) : res (list (ptr * float) * Grammar) :=
  match rules with
  | [] => Ok (options, g)
  | rule :: rest =>
      g1 ← ensure (fst rule) g;
      let (p, g2) := subscript (fst rule) g1 in
      AddSelectorRule_loop rest (options ++ [(p, snd rule)]) g2
  end.

Definition AddSelectorRule (name : string) (rules : list (string * float))
    (g : Grammar) : res Grammar :=
  r ← AddSelectorRule_loop rules [] g;
  Ok (install name (SelectNode (fst r)) (snd r)).

Fixpoint AddSequenceRule_loop (rules : list string)
    (elements : list ptr) (g : Grammar) : res (list ptr * Grammar) :=
  match rules with
  | [] => Ok (elements, g)
  | rule :: rest =>
      g1 ← ensure rule g;
      let (p, g2) := subscript rule g1 in
      AddSequenceRule_loop rest (elements ++ [p]) g2
  end.

Definition AddSequenceRule (name : string) (rules : list string)
    (g : Grammar) : res Grammar :=
  r ← AddSequenceRule_loop rules [] g;
  Ok (install name (SequenceNode (fst r)) (snd r)).

Definition AddRepetitionRule (name : string) (rule : string * float)
    (g : Grammar) : res Grammar :=
  g1 ← ensure (fst rule) g;
  let (p, g2) := subscript (fst rule) g1 in
  Ok (install name (RepetitionNode p (snd rule)) g2).

Definition AddLNodeRule (name rule fallbackRule : string)
    (g : Grammar) : res Grammar :=
  g1 ← ensure rule g;
  g2 ← ensure fallbackRule g1;
  let (p, g3) := subscript rule g2 in
  let (f, g4) := subscript fallbackRule g3 in
  Ok (install name (LNode p f) g4).

(** *** The [Parse...Rule] members *)

(** The loop that [ParseSelectorRule] and [ParseSequenceRule] share:
    [while ((first = rule.find_first_not_of(del, last)) != npos)
       { last = rule.find(del, first); rules.push_back(rule.substr(first, last - first)); }]
    with [k] a bound on the iterations. *)
Fixpoint split_loop (k : nat) (rule del : string) (last : Z)
    (rules : list string) : res (list string) :=
  match k with
  | O => Fuel
  | S k' =>
      let first := StdString.find_first_not_of rule del last in
      if first =? SizeT.npos then Ok rules
      else
        let last' := StdString.find rule del first in
        tok ← of_option out_of_range (StdString.substr rule first (SizeT.sub last' first));
        split_loop k' rule del last' (rules ++ [tok])
  end.

Definition split (rule del : string) : res (list string) :=
  split_loop (S (String.length rule)) rule del 0 [].

(** One clause of a selector rule, [[weight] [rule]]. *)
Definition weightedRule_of (rule : string) : res (string * float) :=
  let spaceIndex := StdString.find rule " " 0 in
  weightString ← of_option out_of_range (StdString.substr rule 0 spaceIndex);
  ruleName ← of_option out_of_range
    (StdString.substr rule (SizeT.add spaceIndex 1)
       (SizeT.sub (SizeT.sub (StdString.size rule) (StdString.size weightString)) 1));
  weight ← lift (stof weightString);
  Ok (ruleName, weight).

Fixpoint weightedRules_of (rules : list string) : res (list (string * float)) :=
  match rules with
  | [] => Ok []
  | rule :: rest =>
      w ← weightedRule_of rule;
      ws ← weightedRules_of rest;
      Ok (w :: ws)
  end.

Definition ParseSelectorRule (name rule : string) (g : Grammar) : res Grammar :=
  rules ← split rule SEL_DEL;
  weightedRules ← weightedRules_of rules;
  AddSelectorRule name weightedRules g.

Definition ParseSequenceRule (name rule : string) (g : Grammar) : res Grammar :=
  rules ← split rule SEQ_DEL;
  AddSequenceRule name rules g.

Definition ParseRepetitionRule (name rule : string) (g : Grammar) : res Grammar :=
  let del := REP_DEL in
  let splitIndex := StdString.find rule del 0 in
  ruleName ← of_option out_of_range (StdString.substr rule 0 splitIndex);
  repetitionString ← of_option out_of_range
    (StdString.substr rule (SizeT.add splitIndex (StdString.size del))
       (SizeT.sub (SizeT.sub (StdString.size rule) (StdString.size ruleName))
          (StdString.size del)));
  repetitions ← lift (stof repetitionString);
  AddRepetitionRule name (ruleName, repetitions) g.

(** The text before the delimiter is [fallbackName], the text after it
    [ruleName]; the count given to [substr] for [ruleName] reads
    [ruleName.length()] itself. *)
Definition ParseLNodeRule (name rule : string) (g : Grammar) : res Grammar :=
  let del := LND_DEL in
  let splitIndex := StdString.find rule del 0 in
  fallbackName ← of_option out_of_range (StdString.substr rule 0 splitIndex);
  ruleName ← of_option out_of_range
    (StdString.substr rule (SizeT.add splitIndex (StdString.size del))
       (SizeT.sub (SizeT.sub (StdString.size rule) (SizeT.wrap (uninitialised_length rule)))
          (StdString.size del)));
  AddLNodeRule name ruleName fallbackName g.

End AddRules.

Definition ParseSingleRule (name rule : string) (g : Grammar) : res Grammar :=
  AddSingleRule name rule g.

Definition has (rule del : string) : bool :=
  negb (StdString.find rule del 0 =? SizeT.npos).

(** [fuel] bounds the depth of the calls [ParseRule] -> [Add...Rule] ->
    [ParseRule]. *)
Fixpoint ParseRule (fuel : nat) (name rule : string) (g : Grammar) : res Grammar :=
  match fuel with
  | O => Fuel
  | S fuel' =>
      if has rule LND_DEL then ParseLNodeRule (ParseRule fuel') name rule g
      else if has rule SEQ_DEL then ParseSequenceRule (ParseRule fuel') name rule g
      else if has rule SEL_DEL then ParseSelectorRule (ParseRule fuel') name rule g
      else if has rule REP_DEL then ParseRepetitionRule (ParseRule fuel') name rule g
      else ParseSingleRule name rule g
  end.

(** The bound that is always enough (see [ParseRule_total]). *)
Definition compile (name rule : string) (g : Grammar) : res Grammar :=
  ParseRule (S (String.length rule)) name rule g.

(** *** Generation *)

Section Generation.

(** The configured depth limit of [LNode]. *)
Variable maxDepth : nat.

(** The source of random numbers: the samples drawn, in order. *)
Variable samples : nat -> float.

(** First option whose running cumulative weight exceeds the sample. *)
Fixpoint pick (options : list (ptr * float)) (cumulative sample : float) : option ptr :=
  match options with
  | [] => None
  | o :: rest =>
      let cumulative' := fadd cumulative (snd o) in
      if SFltb sample cumulative' then Some (fst o)
      else pick rest cumulative' sample
  end.

(** Modelled from the spec: the [Parse(result, depth)] overrides of the
    node classes are not in [Nodes.h].  A leaf yields its value; a sequence
    concatenates its children left to right; a selector draws one sample
    and evaluates only the option picked; a repetition evaluates its child
    [count] times, the float truncated toward zero; a fallback node takes
    its primary branch below the depth limit, one level deeper, and its
    fallback branch at or beyond it.  The state threaded through is the
    [result] vector and the number of samples drawn. *)
Fixpoint Parse (fuel : nat) (st : list Node) (p : ptr) (depth : nat)
    (acc : list Data * nat) : res (list Data * nat) :=
  match fuel with
  | O => Fuel
  | S fuel' =>
      match deref st p with
      | None => Undefined
      | Some (LeafNode v) => Ok ((fst acc ++ [v])%list, snd acc)
      | Some (SequenceNode elements) =>
          foldl (fun r c => r ≫= Parse fuel' st c depth) (Ok acc) elements
      | Some (SelectNode options) =>
          let acc' := (fst acc, S (snd acc)) in
          match pick options float_zero (samples (snd acc)) with
          | Some c => Parse fuel' st c depth acc'
          | None => Ok acc'
          end
      | Some (RepetitionNode c n) =>
          Nat.iter (Z.to_nat (float_to_int n))
            (fun r => r ≫= Parse fuel' st c depth) (Ok acc)
      | Some (LNode c f) =>
          if (depth <? maxDepth)%nat then Parse fuel' st c (S depth) acc
          else Parse fuel' st f depth acc
      end
  end.

(** *** [GenerateSequence] *)

Definition GenerateSequence (fuel : nat) (ruleName : string) (g : Grammar) : res (list Data) :=
  if negb (registered ruleName g) then Throw Rule404Exception
  else
    let (p, _) := subscript ruleName g in
    r ← Parse fuel (store g) p 0%nat ([], 0%nat);
    Ok (fst r).

End Generation.

End GrammarModel.

Arguments LeafNode {Data} value.
Arguments SelectNode {Data} options.
Arguments SequenceNode {Data} elements.
Arguments RepetitionNode {Data} pNode repetitions.
Arguments LNode {Data} pNode pFallback.
Arguments mkGrammar {Data} m_pRules store.
Arguments m_pRules {Data} g.
Arguments store {Data} g.
Arguments empty_grammar {Data}.
Arguments deref {Data} st p.
Arguments make_shared {Data} n g.
Arguments registered {Data} name g.
Arguments subscript {Data} name g.
Arguments assign {Data} name p g.
Arguments node_of {Data} g name.
Arguments SwapDependingNode {Data} oldNode newNode n.
Arguments swap_at {Data} oldNode newNode p st.
Arguments ChangeRule {Data} ruleName newNode g.
Arguments install_ptr {Data} name p g.
Arguments install {Data} name n g.
Arguments AddLeaveNode {Data} name data g.
Arguments AddSingleRule {Data} of_token name rule g.
Arguments ensure {Data} ParseRule rule g.
Arguments AddSelectorRule_loop {Data} ParseRule rules options g.
Arguments AddSelectorRule {Data} ParseRule name rules g.
Arguments AddSequenceRule_loop {Data} ParseRule rules elements g.
Arguments AddSequenceRule {Data} ParseRule name rules g.
Arguments AddRepetitionRule {Data} ParseRule name rule g.
Arguments AddLNodeRule {Data} ParseRule name rule fallbackRule g.
Arguments ParseSelectorRule {Data} stof ParseRule name rule g.
Arguments ParseSequenceRule {Data} ParseRule name rule g.
Arguments ParseRepetitionRule {Data} stof ParseRule name rule g.
Arguments ParseLNodeRule {Data} uninitialised_length ParseRule name rule g.
Arguments ParseSingleRule {Data} of_token name rule g.
Arguments ParseRule {Data} of_token stof uninitialised_length fuel name rule g.
Arguments compile {Data} of_token stof uninitialised_length name rule g.
Arguments Parse {Data} maxDepth samples fuel st p depth acc.
Arguments GenerateSequence {Data} maxDepth samples fuel ruleName g.

(** ** The instance [Grammar<std::string>] *)

Module StringGrammar.

Definition is_space (c : ascii) : bool :=
  let n := nat_of_ascii c in
  ((n =? 32) || ((9 <=? n) && (n <=? 13)))%nat.

Definition digit_of (c : ascii) : option Z :=
  let n := Z.of_nat (nat_of_ascii c) in
  if (48 <=? n) && (n <=? 57) then Some (n - 48) else None.

Fixpoint skip_spaces (s : string) : string :=
  match s with
  | String c s' => if is_space c then skip_spaces s' else s
  | EmptyString => s
  end.

(** The digits [s] starts with: their value after [acc], their number,
    and the rest of [s]. *)
Fixpoint digits (s : string) (acc : Z) (n : nat) : Z * nat * string :=
  match s with
  | String c s' =>
      match digit_of c with
      | Some d => digits s' (10 * acc + d) (S n)
      | None => (acc, n, s)
      end
  | EmptyString => (acc, n, s)
  end.

(** [std::stof] on plain decimal notation, enough for the rule texts of
    the examples below: white space, a sign, digits, a point and digits;
    what follows is ignored, as [stof] does without its [pos] argument.
    No exponent, hexadecimal, [inf] or [nan] notation. *)
Definition stof (s : string) : exn + float :=
  let s0 := skip_spaces s in
  let '(neg, s1) :=
    match s0 with
    | String "-" r => (true, r)
    | String "+" r => (false, r)
    | _ => (false, s0)
    end in
  let '(i, ni, s2) := digits s1 0 0 in
  let '(m, nd, nf) :=
    match s2 with
    | String "." r => let '(m, nf, _) := digits r i 0 in (m, (ni + nf)%nat, nf)
    | _ => (i, ni, O)
    end in
  if (nd =? 0)%nat then inl invalid_argument
  else
    let v := if (nf =? 0)%nat then float_of_Z m
             else fdiv (float_of_Z m) (float_of_Z (10 ^ Z.of_nat nf)) in
    let v := if neg then SFopp v else v in
    match v with
    | S754_infinity _ => inl out_of_range
    | _ => inr v
    end.

(** The indeterminate length read by [ParseLNodeRule], here zero. *)
Definition zero_length (rule : string) : Z := 0.

Definition compile : string -> string -> Grammar string -> res (Grammar string) :=
  compile (Some (fun s => s)) stof zero_length.

(** The grammar after ["S"] was compiled from ["R & x"]. *)
Definition sequence_compiled : Grammar string :=
  match compile "S" "R & x" empty_grammar with
  | Ok g => g
  | _ => empty_grammar
  end.

(** And after ["R"] was compiled again, from ["y & z"]. *)
Definition sequence_redefined : Grammar string :=
  match compile "R" "y & z" sequence_compiled with
  | Ok g => g
  | _ => empty_grammar
  end.

(** ["S"] compiled from ["R & x"], then a leaf registered over ["R"]. *)
Definition sequence_leaf_over : Grammar string :=
  AddLeaveNode "R" "leaf" sequence_compiled.

(** And after ["R"] was compiled again, from ["y & z"]. *)
Definition sequence_leaf_redefined : Grammar string :=
  match compile "R" "y & z" sequence_leaf_over with
  | Ok g => g
  | _ => empty_grammar
  end.

Definition generate : string -> Grammar string -> res (list string) :=
  GenerateSequence 3 (fun _ => float_zero) 100.

End StringGrammar.

(** ** Vocabulary of the statements *)

(** [pat] occurs in [s]. *)
Definition occurs (pat s : string) : Prop := exists u v, s = u +:+ pat +:+ v.

Definition shorter (rule t : string) : Prop :=
  (String.length t < String.length rule)%nat.

(** [p] is held by the registry: some name is registered to it. *)
Definition held (rules : gmap string ptr) (p : ptr) : Prop :=
  exists name, rules !! name = Some p.

(** The text before the first [del] of [rule], and the text after it. *)
Definition before (del rule : string) : string :=
  StdString.take (Z.to_nat (StdString.find rule del 0)) rule.

Definition after (del rule : string) : string :=
  StdString.drop (Z.to_nat (StdString.find rule del 0) + String.length del) rule.

(** The count that [ParseLNodeRule] gives to [substr] for the text after
    the delimiter, and the text that [substr] then returns. *)
Definition LNode_count (uninitialised_length : string -> Z) (rule : string) : Z :=
  SizeT.sub (SizeT.sub (StdString.size rule) (SizeT.wrap (uninitialised_length rule)))
    (StdString.size LND_DEL).

Definition LNode_ruleName (uninitialised_length : string -> Z) (rule : string) : string :=
  StdString.take
    (Z.to_nat (Z.min (LNode_count uninitialised_length rule)
                 (StdString.size (after LND_DEL rule))))
    (after LND_DEL rule).


(** The two parts of a selector clause: the text up to the first space,
    and the text after it; both are the whole clause when it has no space. *)
Definition weight_token (clause : string) : string :=
  match StdString.find_from " " clause 0 with
  | Some k => StdString.take k clause
  | None => clause
  end.

Definition rule_token (clause : string) : string :=
  match StdString.find_from " " clause 0 with
  | Some k => StdString.drop (S k) clause
  | None => clause
  end.

(** The compiler called back never runs out of fuel on [rule]. *)
Definition ends {Data : Type}
    (PR : string -> string -> Grammar Data -> res (Grammar Data)) (rule : string) : Prop :=
  forall g, PR rule rule g <> Fuel.

(** The nodes that a node refers to. *)
Definition ptrs_of {Data : Type} (n : Node Data) : list ptr :=
  match n with
  | LeafNode _ => []
  | SelectNode options => options.*1
  | SequenceNode elements => elements
  | RepetitionNode p _ => [p]
  | LNode p f => [p; f]
  end.

(** A name is registered to a node of the store, and a node refers to
    nodes that were made. *)
Definition bounded {Data : Type} (g : Grammar Data) : Prop :=
  (forall name (p : ptr), m_pRules g !! name = Some p ->
     (0 < p <= length (store g))%nat) /\
  (forall i n, store g !! i = Some n ->
     Forall (fun q => (q <= length (store g))%nat) (ptrs_of n)).

(** The nodes that the registry holds refer to nodes that it holds. *)
Definition closed {Data : Type} (g : Grammar Data) : Prop :=
  forall p n, held (m_pRules g) p -> deref (store g) p = Some n ->
    Forall (held (m_pRules g)) (ptrs_of n).

(** The invariant that compiling keeps: [bounded], and [closed] too when
    [c] says so. *)
Definition inv {Data : Type} (c : bool) (g : Grammar Data) : Prop :=
  bounded g /\ (c = true -> closed g).

(** The graph: the nodes reached from the registry. *)
Inductive reachable {Data : Type} (g : Grammar Data) : ptr -> Prop :=
| reachable_held (p : ptr) :
    held (m_pRules g) p -> reachable g p
| reachable_child (p q : ptr) (n : Node Data) :
    reachable g p -> deref (store g) p = Some n -> q ∈ ptrs_of n -> reachable g q.

(** [gm] is [g] after subrules were compiled: the names and the nodes of
    [g] are as they were, and the names that are new have nodes that are
    new. *)
Definition extends {Data : Type} (c : bool) (g gm : Grammar Data) : Prop :=
  inv c gm /\
  m_pRules g ⊆ m_pRules gm /\
  (forall i n, store g !! i = Some n -> store gm !! i = Some n) /\
  (forall name (p : ptr), m_pRules g !! name = None -> m_pRules gm !! name = Some p ->
     (length (store g) < p)%nat).

(** The compiler called back, on a subrule that is not registered,
    registers it and leaves the grammar it was given as it was. *)
Definition nested_ok {Data : Type} (c : bool)
    (PR : string -> string -> Grammar Data -> res (Grammar Data)) : Prop :=
  forall rule g g', inv c g -> m_pRules g !! rule = None -> PR rule rule g = Ok g' ->
    extends c g g' /\ is_Some (m_pRules g' !! rule).

(** The node [p] that a name is pointed at, in the grammar [gm] reached
    from [g]: a node of the store over nodes that the registry holds,
    made since [g] or the node that [rule] had in [g]. *)
Definition target_ok {Data : Type} (c : bool) (g gm : Grammar Data)
    (p : ptr) (rule : string) : Prop :=
  (0 < p <= length (store gm))%nat /\
  (c = true ->
   forall n, deref (store gm) p = Some n -> Forall (held (m_pRules gm)) (ptrs_of n)) /\
  ((length (store g) < p)%nat \/ m_pRules g !! rule = Some p).

(** The grammars that calls of [ParseRule] and [AddLeaveNode] that return
    build from the empty one. *)
Inductive built {Data : Type} (of_token : option (string -> Data))
    (stof : string -> exn + float) (uninitialised_length : string -> Z) :
    Grammar Data -> Prop :=
| built_empty : built of_token stof uninitialised_length empty_grammar
| built_ParseRule (fuel : nat) (name rule : string) (g g' : Grammar Data) :
    built of_token stof uninitialised_length g ->
    ParseRule of_token stof uninitialised_length fuel name rule g = Ok g' ->
    built of_token stof uninitialised_length g'
| built_AddLeaveNode (name : string) (v : Data) (g : Grammar Data) :
    built of_token stof uninitialised_length g ->
    built of_token stof uninitialised_length (AddLeaveNode name v g).

(** The result is a normal return. *)
Definition succeeds {A : Type} (r : res A) : Prop := exists a, r = Ok a.


(** A text without any of the four delimiters. *)
Definition atomic (rule : string) : Prop :=
  ~ occurs LND_DEL rule /\ ~ occurs SEQ_DEL rule /\
  ~ occurs SEL_DEL rule /\ ~ occurs REP_DEL rule.

(** A piece that the splitting loop may cut from [rule]: a part of the
    text that is not empty, starts with no character of the delimiter and
    does not hold the delimiter. *)
Definition clean_token (rule del t : string) : Prop :=
  (exists c t', t = String c t' /\ StdString.mem c del = false) /\
  ~ occurs del t /\ occurs t rule.

(** The pieces [ts] written one after the other with [del] in between. *)
Fixpoint join (del : string) (ts : list string) : string :=
  match ts with
  | [] => EmptyString
  | t :: ts' =>
      match ts' with
      | [] => t
      | _ :: _ => t +:+ del +:+ join del ts'
      end
  end.

(** A piece that can be written between delimiters and read back: it
    starts with a character that is none of the delimiter's, and in the
    piece followed by the delimiter, the delimiter is found first where
    the piece ends. *)
Definition token_of (del t : string) : Prop :=
  (exists c t', t = String c t' /\ StdString.mem c del = false) /\
  StdString.find_from del (t +:+ del) 0 = Some (String.length t).

(** What a call made while [rule] is compiled may end in: a value, or
    [Rule404Exception] where the payload is no string, or an exception
    that [stof] threw on a part of [rule]. *)
Definition raised {Data A : Type} (of_token : option (string -> Data))
    (stof : string -> exn + float) (rule : string) (r : res A) : Prop :=
  match r with
  | Throw e =>
      (e = Rule404Exception /\ of_token = None) \/
      exists s, occurs s rule /\ stof s = inl e
  | Undefined => False
  | _ => True
  end.

(** The compiler called back on [t] ends in nothing else. *)
Definition safe {Data : Type} (of_token : option (string -> Data))
    (stof : string -> exn + float)
    (PR : string -> string -> Grammar Data -> res (Grammar Data)) (t : string) : Prop :=
  forall g, raised of_token stof t (PR t t g).


(** The nodes that a [shared_ptr] made in [Grammar.h] holds: the values of
    [m_pRules], and the fallback that [AddLNodeRule] hands to an [LNode]
    as [m_pRules[fallbackRule]], the [shared_ptr] itself.  Whether the
    [LNode] keeps it as a [shared_ptr] is not to be seen in [src/];
    [owned] counts it, so that a node that is not [owned] is held by no
    [shared_ptr] either way.  Every other child is handed over as
    [m_pRules[...].get()], a plain pointer.  A node that no [shared_ptr]
    holds is destroyed. *)
Inductive owned {Data : Type} (g : Grammar Data) : ptr -> Prop :=
| owned_registry (p : ptr) :
    held (m_pRules g) p -> owned g p
| owned_fallback (p c f : ptr) :
    owned g p -> deref (store g) p = Some (LNode c f) -> owned g f.

(** The children that a node has as plain pointers. *)
Definition raw_ptrs_of {Data : Type} (n : Node Data) : list ptr :=
  match n with
  | LeafNode _ => []
  | SelectNode options => options.*1
  | SequenceNode elements => elements
  | RepetitionNode p _ => [p]
  | LNode p _ => [p]
  end.

(** A node that is held has [q] as a plain pointer, and the node of [q]
    is destroyed. *)
Definition dangling {Data : Type} (g : Grammar Data) (p q : ptr) : Prop :=
  owned g p /\ ~ owned g q /\
  exists n, deref (store g) p = Some n /\ q ∈ raw_ptrs_of n.

(** The states that follow [g] when [N] is not defined again: calls of
    [ParseRule] that return and calls of [AddLeaveNode], under other
    names. *)
Inductive without_redefinition {Data : Type} (of_token : option (string -> Data))
    (stof : string -> exn + float) (uninitialised_length : string -> Z)
    (N : string) (g : Grammar Data) : Grammar Data -> Prop :=
| wr_now : without_redefinition of_token stof uninitialised_length N g g
| wr_ParseRule (fuel : nat) (name rule : string) (g1 g2 : Grammar Data) :
    without_redefinition of_token stof uninitialised_length N g g1 ->
    name <> N ->
    ParseRule of_token stof uninitialised_length fuel name rule g1 = Ok g2 ->
    without_redefinition of_token stof uninitialised_length N g g2
| wr_AddLeaveNode (name : string) (w : Data) (g1 : Grammar Data) :
    without_redefinition of_token stof uninitialised_length N g g1 ->
    name <> N ->
    without_redefinition of_token stof uninitialised_length N g (AddLeaveNode name w g1).

(** [g'] has the leaves of [g], where they were. *)
Definition keeps_leaves {Data : Type} (g g' : Grammar Data) : Prop :=
  forall (p : ptr) (v : Data),
    deref (store g) p = Some (LeafNode v) -> deref (store g') p = Some (LeafNode v).

(** * Properties of the model *)

(** ** Strings *)

Section StringFacts.

Import StdString.

Lemma app_cons (c : ascii) (u v : string) : String c u +:+ v = String c (u +:+ v).
Proof. reflexivity. Qed.

Lemma app_nil (v : string) : EmptyString +:+ v = v.
Proof. reflexivity. Qed.

Lemma length_append (u v : string) :
  String.length (u +:+ v) = (String.length u + String.length v)%nat.
Proof. induction u as [|c u IH]; [done|]. rewrite app_cons. simpl. by rewrite IH. Qed.

Lemma starts_with_app (pat s : string) :
  starts_with pat s = true <-> exists t, s = pat +:+ t.
Proof.
  revert s. induction pat as [|a pat IH]; intros s; simpl.
  - split; [intros _; by exists s | done].
  - destruct s as [|b s].
    + split; [done | intros [t Ht]; discriminate].
    + destruct (Ascii.eqb_spec a b) as [->|Hne].
      * rewrite IH. split; intros [t Ht]; exists t; rewrite app_cons in *; congruence.
      * split; [done | intros [t Ht]; rewrite app_cons in Ht; congruence].
Qed.

Lemma starts_with_length (pat s : string) :
  starts_with pat s = true -> (String.length pat <= String.length s)%nat.
Proof.
  intros [t ->]%starts_with_app. rewrite length_append. lia.
Qed.

Lemma length_drop (n : nat) (s : string) :
  String.length (drop n s) = (String.length s - n)%nat.
Proof.
  revert s. induction n as [|n IH]; intros [|c s]; simpl; try lia. apply IH.
Qed.

Lemma length_take (n : nat) (s : string) :
  String.length (take n s) = Nat.min n (String.length s).
Proof.
  revert s. induction n as [|n IH]; intros [|c s]; simpl; try lia.
  rewrite IH. lia.
Qed.

Lemma take_drop (n : nat) (s : string) : take n s +:+ drop n s = s.
Proof.
  revert s. induction n as [|n IH]; intros [|c s]; simpl; try done.
  by rewrite app_cons, IH.
Qed.

Lemma drop_app_length (u v : string) : drop (String.length u) (u +:+ v) = v.
Proof.
  induction u as [|c u IH]; [by destruct v|]. rewrite app_cons. simpl. apply IH.
Qed.

Lemma take_app_length (u v : string) : take (String.length u) (u +:+ v) = u.
Proof.
  induction u as [|c u IH]; [by destruct v|]. rewrite app_cons. simpl. by rewrite IH.
Qed.

Lemma drop_S (n : nat) (s : string) (c : ascii) (s' : string) :
  drop n s = String c s' -> drop (S n) s = s'.
Proof.
  revert s. induction n as [|n IH]; intros [|d s]; simpl; try done.
  - congruence.
  - intros H. by apply IH in H.
Qed.

Lemma drop_all (n : nat) (s : string) :
  (String.length s <= n)%nat -> drop n s = EmptyString.
Proof.
  revert s. induction n as [|n IH]; intros [|c s]; simpl; try done; try lia.
  intros H. apply IH. lia.
Qed.

(** What [find_from] returns is the leftmost place where [pat] starts. *)
Lemma find_from_Some (pat s : string) (i j : nat) :
  find_from pat s i = Some j ->
  (i <= j)%nat /\ (j - i + String.length pat <= String.length s)%nat /\
  starts_with pat (drop (j - i) s) = true /\
  forall t, (t < j - i)%nat -> starts_with pat (drop t s) = false.
Proof.
  revert i. induction s as [|c s IH]; intros i; simpl.
  - destruct (starts_with pat EmptyString) eqn:E; [|done].
    intros [= <-]. rewrite Nat.sub_diag. simpl.
    apply starts_with_length in E as E'. simpl in E'.
    repeat split; try lia. done.
  - destruct (starts_with pat (String c s)) eqn:E.
    + intros [= <-]. rewrite Nat.sub_diag. simpl.
      apply starts_with_length in E as E'. simpl in E'.
      repeat split; try lia. done.
    + intros H. apply IH in H as (Hle & Hlen & Hst & Hmin).
      replace (j - i)%nat with (S (j - S i)) by lia. simpl.
      repeat split; try lia; try done.
      intros [|t] Ht; simpl; [done | apply Hmin; lia].
Qed.

Lemma find_from_None (pat s : string) (i : nat) :
  find_from pat s i = None -> forall t, starts_with pat (drop t s) = false.
Proof.
  revert i. induction s as [|c s IH]; intros i; simpl.
  - destruct (starts_with pat EmptyString) eqn:E; [done|].
    intros _ [|t]; done.
  - destruct (starts_with pat (String c s)) eqn:E; [done|].
    intros H [|t]; simpl; [done | by eapply IH].
Qed.

Lemma first_not_of_from_Some (set s : string) (i j : nat) :
  first_not_of_from set s i = Some j ->
  (i <= j)%nat /\ (j - i < String.length s)%nat /\
  exists c s', drop (j - i) s = String c s' /\ mem c set = false.
Proof.
  revert i. induction s as [|c s IH]; intros i; simpl; [done|].
  destruct (mem c set) eqn:E.
  - intros H. apply IH in H as (Hle & Hlen & c' & s' & Hd & Hm).
    replace (j - i)%nat with (S (j - S i)) by lia. simpl.
    repeat split; try lia. by exists c', s'.
  - intros [= <-]. rewrite Nat.sub_diag. simpl.
    repeat split; try lia. by exists c, s.
Qed.

(** A character outside the set [del] cannot begin the string [del]. *)
Lemma starts_with_not_mem (del : string) (c : ascii) (s : string) :
  del <> EmptyString -> mem c del = false -> starts_with del (String c s) = false.
Proof.
  destruct del as [|d del]; [done|]. intros _. simpl.
  rewrite (Ascii.eqb_sym d c). by destruct (Ascii.eqb c d).
Qed.

Lemma drop_drop (m n : nat) (s : string) : drop n (drop m s) = drop (m + n) s.
Proof.
  revert s. induction m as [|m IH]; intros s; simpl; [done|].
  destruct s as [|c s]; [by destruct n | apply IH].
Qed.

Lemma npos_eq : SizeT.npos = 18446744073709551615.
Proof. reflexivity. Qed.

Lemma size_nonneg (s : string) : 0 <= size s.
Proof. unfold size. lia. Qed.

(** [find] returns [npos] when [pat] does not start at or after [pos], and
    otherwise the leftmost such place. *)
Lemma find_cases (s pat : string) (pos : Z) :
  fits s -> 0 <= pos <= size s ->
  (find s pat pos = SizeT.npos /\
   forall t, (Z.to_nat pos <= t)%nat -> starts_with pat (drop t s) = false) \/
  (pos <= find s pat pos /\ find s pat pos + size pat <= size s /\
   starts_with pat (drop (Z.to_nat (find s pat pos)) s) = true /\
   forall t, (Z.to_nat pos <= t < Z.to_nat (find s pat pos))%nat ->
             starts_with pat (drop t s) = false).
Proof.
  intros Hfit [Hpos Hle]. unfold find.
  destruct (Z.ltb_spec (size s) pos) as [?|_]; [lia|].
  destruct (find_from pat (drop (Z.to_nat pos) s) (Z.to_nat pos)) as [j|] eqn:E;
    cbn [to_size_t].
  - right. apply find_from_Some in E as (Hj & Hlen & Hst & Hmin).
    rewrite length_drop in Hlen. rewrite drop_drop in Hst.
    replace (Z.to_nat pos + (j - Z.to_nat pos))%nat with j in Hst by lia.
    rewrite Nat2Z.id. unfold size in *.
    repeat split; try lia; try done.
    intros t Ht. specialize (Hmin (t - Z.to_nat pos)%nat).
    rewrite drop_drop in Hmin.
    replace (Z.to_nat pos + (t - Z.to_nat pos))%nat with t in Hmin by lia.
    apply Hmin. lia.
  - left. split; [done|]. intros t Ht.
    pose proof (find_from_None _ _ _ E (t - Z.to_nat pos)%nat) as H.
    rewrite drop_drop in H.
    by replace (Z.to_nat pos + (t - Z.to_nat pos))%nat with t in H by lia.
Qed.

Lemma find_found_lt (s pat : string) (pos : Z) :
  fits s -> 0 <= pos <= size s -> find s pat pos <> SizeT.npos ->
  pos <= find s pat pos /\ find s pat pos + size pat <= size s.
Proof.
  intros Hfit Hpos Hne.
  destruct (find_cases s pat pos Hfit Hpos) as [[? _]|(? & ? & _)]; [done | lia].
Qed.

(** Where [find] succeeds, the text splits around the pattern. *)
Lemma find_decompose (s pat : string) :
  fits s -> find s pat 0 <> SizeT.npos ->
  s = take (Z.to_nat (find s pat 0)) s +:+ pat
      +:+ drop (Z.to_nat (find s pat 0) + String.length pat) s.
Proof.
  intros Hfit Hne.
  destruct (find_cases s pat 0 Hfit) as [[? _]|(_ & _ & Hst & _)];
    [pose proof (size_nonneg s); lia | done |].
  apply starts_with_app in Hst as [t Ht].
  rewrite <- (take_drop (Z.to_nat (find s pat 0)) s) at 1. f_equal.
  rewrite <- drop_drop, Ht. by rewrite drop_app_length.
Qed.

Lemma has_occurs (s pat : string) :
  fits s -> has s pat = true <-> occurs pat s.
Proof.
  intros Hfit. unfold has. rewrite negb_true_iff, Z.eqb_neq. split.
  - intros Hne. eexists _, _. by apply find_decompose.
  - intros (u & v & ->) Heq.
    destruct (find_cases (u +:+ pat +:+ v) pat 0 Hfit) as [[_ Hno]|(_ & Hlen & _)].
    + pose proof (size_nonneg (u +:+ pat +:+ v)). lia.
    + specialize (Hno (String.length u)). rewrite drop_app_length in Hno.
      assert (starts_with pat (pat +:+ v) = true) by (apply starts_with_app; eauto).
      rewrite Hno in H; [done | lia].
    + pose proof (size_nonneg pat). unfold fits in Hfit. lia.
Qed.

Lemma find_first_not_of_npos (s set : string) :
  fits s -> find_first_not_of s set SizeT.npos = SizeT.npos.
Proof.
  intros Hfit. unfold find_first_not_of.
  by destruct (Z.ltb_spec (size s) SizeT.npos) as [_|?]; [|unfold fits in Hfit; lia].
Qed.

Lemma find_first_not_of_cases (s set : string) (last : Z) :
  fits s -> 0 <= last <= size s ->
  find_first_not_of s set last = SizeT.npos \/
  (last <= find_first_not_of s set last < size s /\
   exists c s', drop (Z.to_nat (find_first_not_of s set last)) s = String c s' /\
                mem c set = false).
Proof.
  intros Hfit [Hpos Hle]. unfold find_first_not_of.
  destruct (Z.ltb_spec (size s) last) as [?|_]; [lia|].
  destruct (first_not_of_from set (drop (Z.to_nat last) s) (Z.to_nat last))
    as [j|] eqn:E; cbn [to_size_t]; [right | by left].
  apply first_not_of_from_Some in E as (Hj & Hlen & c & s' & Hd & Hm).
  rewrite length_drop in Hlen. rewrite drop_drop in Hd.
  replace (Z.to_nat last + (j - Z.to_nat last))%nat with j in Hd by lia.
  rewrite Nat2Z.id. unfold size in *. split; [lia|]. by exists c, s'.
Qed.

(** Searching [del] from a character that is not one of [del]'s finds it,
    if at all, strictly further on. *)
Lemma find_after_nonmember (s del : string) (first : Z) (c : ascii) (s' : string) :
  fits s -> 0 <= first <= size s -> del <> EmptyString ->
  drop (Z.to_nat first) s = String c s' -> mem c del = false ->
  find s del first = SizeT.npos \/
  (first < find s del first /\ find s del first + size del <= size s).
Proof.
  intros Hfit Hpos Hdel Hd Hm.
  destruct (find_cases s del first Hfit Hpos) as [[? _]|(Hle & Hlen & Hst & _)];
    [by left | right].
  split; [|done].
  destruct (decide (find s del first = first)) as [Heq|]; [|lia].
  rewrite Heq, Hd, starts_with_not_mem in Hst; done.
Qed.

Lemma substr_Some (s : string) (pos n : Z) :
  0 <= pos <= size s ->
  substr s pos n = Some (take (Z.to_nat (Z.min n (size s - pos))) (drop (Z.to_nat pos) s)).
Proof.
  intros [Hpos Hle]. unfold substr.
  by destruct (Z.ltb_spec (size s) pos) as [?|_]; [lia|].
Qed.

Lemma take_all (n : nat) (s : string) :
  (String.length s <= n)%nat -> take n s = s.
Proof.
  revert s. induction n as [|n IH]; intros [|c s]; simpl; try done; try lia.
  intros H. rewrite IH; [done | lia].
Qed.

Lemma wrap_small (z : Z) : 0 <= z < SizeT.modulus -> SizeT.wrap z = z.
Proof. apply Z.mod_small. Qed.

Lemma modulus_eq : SizeT.modulus = SizeT.npos + 1.
Proof. reflexivity. Qed.

Lemma bind_Ok {A B : Type} (a : A) (f : A -> res B) : (Ok a ≫= f) = f a.
Proof. reflexivity. Qed.

Lemma size_pos (s : string) : s <> EmptyString -> 0 < size s.
Proof. destruct s; [done|]. unfold size. simpl. lia. Qed.

(** The loop of [ParseSequenceRule] and [ParseSelectorRule] ends within
    its bound, and every piece it cuts from a text that holds the
    delimiter is shorter than the text. *)
Lemma split_loop_shorter (k : nat) (rule del : string) (last : Z) (acc : list string) :
  fits rule -> del <> EmptyString -> has rule del = true ->
  (0 <= last <= size rule /\ size rule - last < Z.of_nat k) \/
    (last = SizeT.npos /\ (1 <= k)%nat) ->
  Forall (shorter rule) acc ->
  exists toks, split_loop k rule del last acc = Ok toks /\ Forall (shorter rule) toks.
Proof.
  intros Hfit Hdel Hhas. revert last acc.
  induction k as [|k IH]; intros last acc Hk Hacc; [lia|].
  cbn [split_loop].
  destruct Hk as [[Hl Hk]|[-> Hk]].
  2:{ rewrite find_first_not_of_npos, Z.eqb_refl by done. eauto. }
  destruct (find_first_not_of_cases rule del last Hfit Hl)
    as [E|(Hf & c & s' & Hd & Hm)].
  { rewrite E, Z.eqb_refl. eauto. }
  set (first := find_first_not_of rule del last) in *.
  unfold fits in Hfit.
  destruct (Z.eqb_spec first SizeT.npos) as [?|_]; [lia|].
  assert (Hfirst : 0 <= first <= size rule) by lia.
  rewrite (substr_Some rule first _ Hfirst). cbn [of_option]. rewrite bind_Ok.
  pose proof (size_pos del Hdel) as Hdpos.
  destruct (find_after_nonmember rule del first c s' Hfit Hfirst Hdel Hd Hm)
    as [E|[Hlt Hlen]].
  - rewrite E. apply IH; [right; split; [done | lia]|].
    apply Forall_app. split; [done|]. apply Forall_singleton.
    unfold shorter. rewrite length_take, length_drop.
    assert (first <> 0).
    { intros H0. unfold has in Hhas. rewrite H0 in E. rewrite E in Hhas. done. }
    unfold size in *. lia.
  - set (last' := find rule del first) in *.
    apply IH; [left; lia|].
    apply Forall_app. split; [done|]. apply Forall_singleton.
    unfold shorter. rewrite length_take, length_drop.
    unfold SizeT.sub. rewrite wrap_small by (rewrite modulus_eq; lia).
    unfold size in *. lia.
Qed.

Lemma split_shorter (rule del : string) :
  fits rule -> del <> EmptyString -> has rule del = true ->
  exists toks, split rule del = Ok toks /\ Forall (shorter rule) toks.
Proof.
  intros Hfit Hdel Hhas. apply split_loop_shorter; try done.
  left. unfold size. lia.
Qed.

End StringFacts.

Lemma has_false (s pat : string) :
  StdString.fits s -> ~ occurs pat s -> has s pat = false.
Proof.
  intros Hfit Hno. destruct (has s pat) eqn:E; [|done].
  by apply has_occurs in E.
Qed.

Lemma has_true (s pat : string) :
  StdString.fits s -> occurs pat s -> has s pat = true.
Proof. intros Hfit Hocc. by apply has_occurs. Qed.

Lemma not_occurs (s pat : string) :
  StdString.fits s -> has s pat = false -> ~ occurs pat s.
Proof. intros Hfit H Hocc. apply has_occurs in Hocc; [congruence | done]. Qed.

Lemma fits_small (s : string) : (String.length s < 1000)%nat -> StdString.fits s.
Proof. unfold StdString.fits, StdString.size. rewrite npos_eq. lia. Qed.

(** ** The registry and the store *)

Section RegistryFacts.

Context {Data : Type}.

Implicit Types (g : Grammar Data) (n : Node Data) (st : list (Node Data)).
Implicit Types (p oldNode newNode : ptr) (name : string).

Lemma swap_ptr_idemp oldNode newNode p :
  swap_ptr oldNode newNode (swap_ptr oldNode newNode p) = swap_ptr oldNode newNode p.
Proof. unfold swap_ptr. repeat case_decide; congruence. Qed.

Lemma swap_ptr_same oldNode p : swap_ptr oldNode oldNode p = p.
Proof. unfold swap_ptr. case_decide; congruence. Qed.

Lemma SwapDependingNode_idemp oldNode newNode n :
  SwapDependingNode oldNode newNode (SwapDependingNode oldNode newNode n)
  = SwapDependingNode oldNode newNode n.
Proof.
  destruct n; simpl; rewrite ?swap_ptr_idemp; try done.
  - f_equal. rewrite map_map. apply map_ext. intros [q w]. simpl.
    by rewrite swap_ptr_idemp.
  - f_equal. rewrite map_map. apply map_ext. intros q. by rewrite swap_ptr_idemp.
Qed.

Lemma SwapDependingNode_same oldNode n : SwapDependingNode oldNode oldNode n = n.
Proof.
  destruct n; simpl; rewrite ?swap_ptr_same; try done.
  - f_equal. rewrite <- (map_id options) at 2. apply map_ext. intros [q w]. simpl.
    by rewrite swap_ptr_same.
  - f_equal. rewrite <- (map_id elements) at 2. apply map_ext. intros q.
    by rewrite swap_ptr_same.
Qed.

(** The loop of [ChangeRule] over a list of entries: a cell is rewritten
    when an entry points to it, however many do, and is left alone when
    none does. *)
Lemma swap_loop_lookup oldNode newNode (l : list (string * ptr)) st (i : nat) :
  foldr (uncurry (fun (_ : string) p st => swap_at oldNode newNode p st)) st l !! i
  = if decide (S i ∈ l.*2) then SwapDependingNode oldNode newNode <$> st !! i
    else st !! i.
Proof.
  induction l as [|[k p] l IH].
  - rewrite decide_False; [done|]. rewrite fmap_nil. apply not_elem_of_nil.
  - rewrite fmap_cons. cbn [foldr uncurry snd].
    destruct p as [|j]; cbn [swap_at].
    + rewrite IH. destruct (decide (S i ∈ l.*2)) as [Hin|Hnin].
      * by rewrite decide_True by (apply elem_of_cons; by right).
      * rewrite decide_False; [done|]. by intros [?|?]%elem_of_cons.
    + destruct (decide (j = i)) as [->|Hne].
      * rewrite list_lookup_alter_eq, IH.
        rewrite (decide_True (P := S i ∈ S i :: l.*2)) by (apply elem_of_cons; by left).
        destruct (decide (S i ∈ l.*2)); [|done].
        destruct (st !! i); simpl; [|done]. by rewrite SwapDependingNode_idemp.
      * rewrite list_lookup_alter_ne, IH by done.
        destruct (decide (S i ∈ l.*2)) as [Hin|Hnin].
        -- by rewrite decide_True by (apply elem_of_cons; by right).
        -- rewrite decide_False; [done|].
           intros [?|?]%elem_of_cons; [congruence | done].
Qed.

Lemma held_map_to_list (rules : gmap string ptr) p :
  p ∈ (map_to_list rules).*2 <-> held rules p.
Proof.
  rewrite list_elem_of_fmap. split.
  - intros ([k q] & -> & Hin). exists k. by apply elem_of_map_to_list.
  - intros [k Hk]. exists (k, p). split; [done|]. by apply elem_of_map_to_list.
Qed.

Lemma subscript_Some name g p :
  m_pRules g !! name = Some p -> subscript name g = (p, g).
Proof. intros H. unfold subscript. by rewrite H. Qed.

Lemma registered_true name g :
  registered name g = true <-> is_Some (m_pRules g !! name).
Proof. unfold registered. by rewrite bool_decide_eq_true. Qed.

Lemma registered_false name g :
  registered name g = false <-> m_pRules g !! name = None.
Proof.
  unfold registered. rewrite bool_decide_eq_false. by rewrite eq_None_not_Some.
Qed.

(** [ChangeRule] on a registered name: the name now has the new node,
    every node the registry holds has its references to the old node
    rewritten, and the other nodes are as they were. *)
Lemma ChangeRule_registered name newNode g oldNode :
  m_pRules g !! name = Some oldNode ->
  m_pRules (ChangeRule name newNode g) = <[name := newNode]> (m_pRules g) /\
  length (store (ChangeRule name newNode g)) = length (store g) /\
  (forall i, held (<[name := newNode]> (m_pRules g)) (S i) ->
     store (ChangeRule name newNode g) !! i
     = SwapDependingNode oldNode newNode <$> store g !! i) /\
  (forall i, ~ held (<[name := newNode]> (m_pRules g)) (S i) ->
     store (ChangeRule name newNode g) !! i = store g !! i).
Proof.
  intros Hold. unfold ChangeRule. rewrite (subscript_Some _ _ _ Hold).
  case_decide as Heq.
  - subst newNode. rewrite insert_id by done. repeat split; try done.
    intros i _. destruct (store g !! i); simpl; [|done].
    by rewrite SwapDependingNode_same.
  - simpl. rewrite map_fold_foldr. repeat split.
    + generalize (map_to_list (<[name:=newNode]> (m_pRules g))).
      intros l. induction l as [|[k [|j]] l IH]; simpl; try done.
      by rewrite length_alter.
    + intros i Hheld. rewrite swap_loop_lookup.
      by rewrite decide_True by by apply held_map_to_list.
    + intros i Hheld. rewrite swap_loop_lookup.
      by rewrite decide_False by by rewrite held_map_to_list.
Qed.

End RegistryFacts.

(** ** What the [Parse...Rule] members cut out of a text *)

Section ParseFacts.

Context {Data : Type}.
Variable stof : string -> exn + float.
Variable uninitialised_length : string -> Z.
Variable PR : string -> string -> Grammar Data -> res (Grammar Data).

Import StdString.

Lemma has_found (rule del : string) :
  fits rule -> has rule del = true ->
  0 <= find rule del 0 /\ find rule del 0 + size del <= size rule.
Proof.
  intros Hfit Hhas. unfold has in Hhas.
  apply negb_true_iff, Z.eqb_neq in Hhas.
  apply find_found_lt; try done. pose proof (size_nonneg rule). lia.
Qed.

Lemma size_after (rule del : string) :
  fits rule -> has rule del = true ->
  size (after del rule) = size rule - find rule del 0 - size del.
Proof.
  intros Hfit Hhas. destruct (has_found rule del Hfit Hhas) as [H0 Hle].
  unfold after, size in *. rewrite length_drop. lia.
Qed.

Lemma before_shorter (rule del : string) :
  fits rule -> del <> EmptyString -> has rule del = true -> shorter rule (before del rule).
Proof.
  intros Hfit Hdel Hhas. destruct (has_found rule del Hfit Hhas) as [H0 Hle].
  pose proof (size_pos del Hdel).
  unfold shorter, before. rewrite length_take. unfold size in *. lia.
Qed.

Lemma after_shorter (rule del : string) :
  fits rule -> del <> EmptyString -> has rule del = true -> shorter rule (after del rule).
Proof.
  intros Hfit Hdel Hhas. destruct (has_found rule del Hfit Hhas) as [H0 Hle].
  pose proof (size_pos del Hdel). pose proof (size_after rule del Hfit Hhas).
  unfold shorter, size in *. lia.
Qed.

Lemma LNode_ruleName_shorter (rule : string) :
  fits rule -> has rule LND_DEL = true ->
  shorter rule (LNode_ruleName uninitialised_length rule).
Proof.
  intros Hfit Hhas. pose proof (after_shorter rule LND_DEL Hfit) as H.
  unfold shorter, LNode_ruleName in *. rewrite length_take.
  specialize (H ltac:(done) Hhas). lia.
Qed.


Lemma shorter_fits (rule t : string) : fits rule -> shorter rule t -> fits t.
Proof. unfold fits, shorter, size. lia. Qed.

(** [ParseLNodeRule]: the text before the delimiter goes to the parameter
    [fallbackRule] of [AddLNodeRule], the text after it to [rule]. *)
Lemma ParseLNodeRule_eq (name rule : string) (g : Grammar Data) :
  fits rule -> has rule LND_DEL = true ->
  ParseLNodeRule uninitialised_length PR name rule g
  = AddLNodeRule PR name (LNode_ruleName uninitialised_length rule)
      (before LND_DEL rule) g.
Proof.
  intros Hfit Hhas. destruct (has_found rule LND_DEL Hfit Hhas) as [H0 Hle].
  pose proof (size_after rule LND_DEL Hfit Hhas) as Hafter.
  pose proof (size_nonneg rule) as Hsize.
  unfold fits in Hfit. unfold ParseLNodeRule.
  change (size LND_DEL) with 4 in *. cbv zeta. change (size LND_DEL) with 4.
  rewrite (substr_Some rule 0) by lia. cbn [of_option]. rewrite bind_Ok.
  unfold SizeT.add at 1. rewrite wrap_small by (rewrite modulus_eq; lia).
  rewrite substr_Some by lia. cbn [of_option]. rewrite bind_Ok.
  unfold LNode_ruleName, LNode_count, before, after in *.
  change (size LND_DEL) with 4 in *. change (String.length LND_DEL) with 4%nat in *.
  rewrite Z.sub_0_r, (Z.min_l (find rule LND_DEL 0)) by lia.
  change (Z.to_nat 0) with 0%nat. cbn [drop].
  replace (Z.to_nat (find rule LND_DEL 0 + 4))
    with (Z.to_nat (find rule LND_DEL 0) + 4)%nat by lia.
  rewrite Hafter.
  replace (size rule - (find rule LND_DEL 0 + 4))
    with (size rule - find rule LND_DEL 0 - 4) by lia.
  done.
Qed.

(** [ParseRepetitionRule]: the text before the delimiter names the rule,
    the text after it is given to [std::stof]. *)
Lemma ParseRepetitionRule_eq (name rule : string) (g : Grammar Data) :
  fits rule -> has rule REP_DEL = true ->
  ParseRepetitionRule stof PR name rule g
  = (lift (stof (after REP_DEL rule)) ≫= fun repetitions =>
     AddRepetitionRule PR name (before REP_DEL rule, repetitions) g).
Proof.
  intros Hfit Hhas. destruct (has_found rule REP_DEL Hfit Hhas) as [H0 Hle].
  pose proof (size_after rule REP_DEL Hfit Hhas) as Hafter.
  pose proof (size_nonneg rule) as Hsize.
  unfold fits in Hfit. unfold ParseRepetitionRule.
  change (size REP_DEL) with 3 in *. cbv zeta. change (size REP_DEL) with 3.
  rewrite (substr_Some rule 0) by lia. cbn [of_option]. rewrite bind_Ok.
  unfold SizeT.add at 1. rewrite wrap_small by (rewrite modulus_eq; lia).
  rewrite substr_Some by lia. cbn [of_option]. rewrite bind_Ok.
  rewrite Z.sub_0_r, (Z.min_l (find rule REP_DEL 0)) by lia.
  change (Z.to_nat 0) with 0%nat. cbn [drop].
  assert (Hsz : size (take (Z.to_nat (find rule REP_DEL 0)) rule)
                = find rule REP_DEL 0).
  { unfold size in *. rewrite length_take. lia. }
  rewrite Hsz. unfold SizeT.sub.
  rewrite (wrap_small (size rule - _)) by (rewrite modulus_eq; lia).
  rewrite wrap_small by (rewrite modulus_eq; lia).
  rewrite Z.min_l by lia.
  unfold before, after in *. change (String.length REP_DEL) with 3%nat in *.
  replace (Z.to_nat (find rule REP_DEL 0 + 3))
    with (Z.to_nat (find rule REP_DEL 0) + 3)%nat by lia.
  rewrite (take_all (Z.to_nat (size rule - find rule REP_DEL 0 - 3))).
  2:{ unfold size in *. lia. }
  done.
Qed.

Lemma wrap_minus_one : SizeT.wrap (SizeT.wrap 0 - 1) = SizeT.npos.
Proof. reflexivity. Qed.

Lemma wrap_modulus : SizeT.wrap (SizeT.npos + 1) = 0.
Proof. reflexivity. Qed.

(** One selector clause: [std::stof] is given the text up to the first
    space, or the whole clause when it has none, and what it returns is
    the weight; nothing else is checked. *)
Lemma weightedRule_of_eq (clause : string) :
  fits clause ->
  weightedRule_of stof clause
  = (lift (stof (weight_token clause)) ≫= fun weight =>
     Ok (rule_token clause, weight)).
Proof.
  intros Hfit. pose proof (size_nonneg clause) as Hsize. unfold fits in Hfit.
  unfold weightedRule_of, weight_token, rule_token. cbv zeta.
  unfold find at 1 2. destruct (Z.ltb_spec (size clause) 0) as [?|_]; [lia|].
  change (Z.to_nat 0) with 0%nat. cbn [drop].
  destruct (find_from " " clause 0) as [k|] eqn:E; cbn [to_size_t].
  - apply find_from_Some in E as (_ & Hlen & _). simpl in Hlen.
    rewrite Nat.sub_0_r in Hlen.
    rewrite (substr_Some clause 0) by lia. cbn [of_option]. rewrite bind_Ok.
    rewrite Z.sub_0_r, Z.min_l by (unfold size; lia).
    change (Z.to_nat 0) with 0%nat. cbn [drop]. rewrite Nat2Z.id.
    assert (Hsz : size (take k clause) = Z.of_nat k).
    { unfold size. rewrite length_take. lia. }
    rewrite Hsz. unfold SizeT.add, SizeT.sub.
    rewrite (wrap_small (Z.of_nat k + 1)) by (rewrite modulus_eq; unfold size in *; lia).
    rewrite (wrap_small (size clause - _)) by (rewrite modulus_eq; unfold size in *; lia).
    rewrite wrap_small by (rewrite modulus_eq; unfold size in *; lia).
    rewrite substr_Some by (unfold size in *; lia). cbn [of_option]. rewrite bind_Ok.
    replace (Z.to_nat (Z.of_nat k + 1)) with (S k) by lia.
    rewrite take_all; [done|]. rewrite length_drop. unfold size. lia.
  - rewrite (substr_Some clause 0) by lia. cbn [of_option]. rewrite bind_Ok.
    rewrite Z.sub_0_r, Z.min_r by lia.
    change (Z.to_nat 0) with 0%nat. cbn [drop].
    rewrite take_all by (unfold size; lia).
    unfold SizeT.add, SizeT.sub. rewrite Z.sub_diag, wrap_minus_one, wrap_modulus.
    rewrite (substr_Some clause 0) by lia. cbn [of_option]. rewrite bind_Ok.
    rewrite Z.sub_0_r, Z.min_r by lia.
    change (Z.to_nat 0) with 0%nat. cbn [drop].
    by rewrite take_all by (unfold size; lia).
Qed.

Lemma rule_token_length (clause : string) :
  (String.length (rule_token clause) <= String.length clause)%nat.
Proof.
  unfold rule_token. destruct (find_from " " clause 0); [|done].
  rewrite length_drop. lia.
Qed.

End ParseFacts.

Section SelectorWeights.

Context {Data : Type}.
Variable stof : string -> exn + float.

Lemma weightedRules_of_Ok (clauses : list string) (ws : list float) :
  Forall StdString.fits clauses ->
  Forall2 (fun c w => stof (weight_token c) = inr w) clauses ws ->
  weightedRules_of stof clauses = Ok (zip (rule_token <$> clauses) ws).
Proof.
  intros Hfit H. induction H as [|c w clauses ws Hc _ IH]; [done|].
  apply Forall_cons in Hfit as [Hfc Hfit].
  cbn [weightedRules_of]. rewrite weightedRule_of_eq, Hc by done.
  cbn [lift]. rewrite !bind_Ok, IH by done. by rewrite bind_Ok.
Qed.

Lemma weightedRules_of_Throw (pre : list string) (clause : string)
    (post : list string) (e : exn) :
  Forall StdString.fits (pre ++ clause :: post) ->
  Forall (fun c => exists w, stof (weight_token c) = inr w) pre ->
  stof (weight_token clause) = inl e ->
  weightedRules_of stof (pre ++ clause :: post) = Throw e.
Proof.
  intros Hfit Hpre He. induction Hpre as [|c pre [w Hc] _ IH].
  - apply Forall_cons in Hfit as [Hfc _]. cbn [app weightedRules_of].
    by rewrite weightedRule_of_eq, He by done.
  - apply Forall_cons in Hfit as [Hfc Hfit]. cbn [app weightedRules_of].
    rewrite weightedRule_of_eq, Hc by done. cbn [lift]. rewrite !bind_Ok.
    by rewrite IH.
Qed.

Lemma SwapDependingNode_Select (oldNode newNode : ptr) (ps : list ptr) (ws : list float) :
  SwapDependingNode (Data := Data) oldNode newNode (SelectNode (zip ps ws))
  = SelectNode (zip (swap_ptr oldNode newNode <$> ps) ws).
Proof.
  simpl. f_equal. revert ws. induction ps as [|p ps IH]; intros [|w ws]; simpl; try done.
  by rewrite IH.
Qed.

End SelectorWeights.

(** ** The order of the delimiters *)

Section Dispatch.

Context {Data : Type}.
Variable of_token : option (string -> Data).
Variable stof : string -> exn + float.
Variable uninitialised_length : string -> Z.

Lemma ParseRule_LNode (fuel : nat) (name rule : string) (g : Grammar Data) :
  StdString.fits rule -> occurs LND_DEL rule ->
  ParseRule of_token stof uninitialised_length (S fuel) name rule g
  = ParseLNodeRule uninitialised_length
      (ParseRule of_token stof uninitialised_length fuel) name rule g.
Proof. intros Hfit H. cbn [ParseRule]. by rewrite (has_true _ _ Hfit H). Qed.

Lemma ParseRule_Sequence (fuel : nat) (name rule : string) (g : Grammar Data) :
  StdString.fits rule -> ~ occurs LND_DEL rule -> occurs SEQ_DEL rule ->
  ParseRule of_token stof uninitialised_length (S fuel) name rule g
  = ParseSequenceRule (ParseRule of_token stof uninitialised_length fuel) name rule g.
Proof.
  intros Hfit H1 H2. cbn [ParseRule].
  by rewrite (has_false _ _ Hfit H1), (has_true _ _ Hfit H2).
Qed.

Lemma ParseRule_Selector (fuel : nat) (name rule : string) (g : Grammar Data) :
  StdString.fits rule ->
  ~ occurs LND_DEL rule -> ~ occurs SEQ_DEL rule -> occurs SEL_DEL rule ->
  ParseRule of_token stof uninitialised_length (S fuel) name rule g
  = ParseSelectorRule stof
      (ParseRule of_token stof uninitialised_length fuel) name rule g.
Proof.
  intros Hfit H1 H2 H3. cbn [ParseRule].
  by rewrite (has_false _ _ Hfit H1), (has_false _ _ Hfit H2), (has_true _ _ Hfit H3).
Qed.

Lemma ParseRule_Repetition (fuel : nat) (name rule : string) (g : Grammar Data) :
  StdString.fits rule ->
  ~ occurs LND_DEL rule -> ~ occurs SEQ_DEL rule -> ~ occurs SEL_DEL rule ->
  occurs REP_DEL rule ->
  ParseRule of_token stof uninitialised_length (S fuel) name rule g
  = ParseRepetitionRule stof
      (ParseRule of_token stof uninitialised_length fuel) name rule g.
Proof.
  intros Hfit H1 H2 H3 H4. cbn [ParseRule].
  by rewrite (has_false _ _ Hfit H1), (has_false _ _ Hfit H2),
    (has_false _ _ Hfit H3), (has_true _ _ Hfit H4).
Qed.

Lemma ParseRule_Single (fuel : nat) (name rule : string) (g : Grammar Data) :
  StdString.fits rule -> atomic rule ->
  ParseRule of_token stof uninitialised_length (S fuel) name rule g
  = ParseSingleRule of_token name rule g.
Proof.
  intros Hfit (H1 & H2 & H3 & H4). cbn [ParseRule].
  by rewrite (has_false _ _ Hfit H1), (has_false _ _ Hfit H2),
    (has_false _ _ Hfit H3), (has_false _ _ Hfit H4).
Qed.

End Dispatch.

(** ** The compiler ends within its bound *)

Section Totality.

Context {Data : Type}.
Variable of_token : option (string -> Data).
Variable stof : string -> exn + float.
Variable uninitialised_length : string -> Z.

Implicit Types (g : Grammar Data) (name rule : string).

Section Callbacks.

Variable PR : string -> string -> Grammar Data -> res (Grammar Data).

Lemma bind_not_Fuel {A B : Type} (m : res A) (f : A -> res B) :
  m <> Fuel -> (forall a, m = Ok a -> f a <> Fuel) -> m ≫= f <> Fuel.
Proof. destruct m; simpl; intros H1 H2; try done. by apply H2. Qed.

Lemma ensure_total rule g : ends PR rule -> ensure PR rule g <> Fuel.
Proof. intros H. unfold ensure. destruct (registered rule g); [done | apply H]. Qed.

Lemma AddSequenceRule_loop_total (rules : list string) (elements : list ptr) g :
  Forall (ends PR) rules -> AddSequenceRule_loop PR rules elements g <> Fuel.
Proof.
  intros H. revert elements g. induction H as [|rule rest Hr _ IH]; intros elements g.
  - done.
  - cbn [AddSequenceRule_loop]. apply bind_not_Fuel; [by apply ensure_total|].
    intros g1 _. destruct (subscript rule g1). apply IH.
Qed.

Lemma AddSequenceRule_total name (rules : list string) g :
  Forall (ends PR) rules -> AddSequenceRule PR name rules g <> Fuel.
Proof.
  intros H. unfold AddSequenceRule.
  apply bind_not_Fuel; [by apply AddSequenceRule_loop_total | done].
Qed.

Lemma AddSelectorRule_loop_total (rules : list (string * float))
    (options : list (ptr * float)) g :
  Forall (fun r => ends PR (fst r)) rules -> AddSelectorRule_loop PR rules options g <> Fuel.
Proof.
  intros H. revert options g. induction H as [|rule rest Hr _ IH]; intros options g.
  - done.
  - cbn [AddSelectorRule_loop]. apply bind_not_Fuel; [by apply ensure_total|].
    intros g1 _. destruct (subscript (fst rule) g1). apply IH.
Qed.

Lemma AddSelectorRule_total name (rules : list (string * float)) g :
  Forall (fun r => ends PR (fst r)) rules -> AddSelectorRule PR name rules g <> Fuel.
Proof.
  intros H. unfold AddSelectorRule.
  apply bind_not_Fuel; [by apply AddSelectorRule_loop_total | done].
Qed.

Lemma AddRepetitionRule_total name (rule : string * float) g :
  ends PR (fst rule) -> AddRepetitionRule PR name rule g <> Fuel.
Proof.
  intros H. unfold AddRepetitionRule.
  apply bind_not_Fuel; [by apply ensure_total|].
  intros g1 _. by destruct (subscript (fst rule) g1).
Qed.

Lemma AddLNodeRule_total name rule fallbackRule g :
  ends PR rule -> ends PR fallbackRule -> AddLNodeRule PR name rule fallbackRule g <> Fuel.
Proof.
  intros H1 H2. unfold AddLNodeRule.
  apply bind_not_Fuel; [by apply ensure_total|]. intros g1 _.
  apply bind_not_Fuel; [by apply ensure_total|]. intros g2 _.
  destruct (subscript rule g2) as [p g3]. by destruct (subscript fallbackRule g3).
Qed.

Lemma lift_not_Fuel {A : Type} (r : exn + A) : lift r <> Fuel.
Proof. by destruct r. Qed.

(** The clauses of a selector rule name rules no longer than themselves. *)
Lemma weightedRules_of_shorter (rule : string) (clauses : list string) :
  StdString.fits rule -> Forall (shorter rule) clauses ->
  weightedRules_of stof clauses <> Fuel /\
  forall ws, weightedRules_of stof clauses = Ok ws ->
             Forall (fun w => shorter rule (fst w)) ws.
Proof.
  intros Hfit H. induction H as [|clause rest Hc _ [IH1 IH2]].
  - split; [done|]. by intros ws [= <-].
  - cbn [weightedRules_of].
    rewrite weightedRule_of_eq by by eapply shorter_fits.
    destruct (stof (weight_token clause)) as [e|w]; cbn [lift]; [done|].
    rewrite !bind_Ok.
    destruct (weightedRules_of stof rest) as [ws'| | |]; try done.
    rewrite bind_Ok. split; [done|]. intros ws [= <-].
    constructor; [|by apply IH2]. simpl.
    pose proof (rule_token_length clause). unfold shorter in *. lia.
Qed.

End Callbacks.

Lemma AddSingleRule_total name rule g : AddSingleRule of_token name rule g <> Fuel.
Proof.
  unfold AddSingleRule. apply bind_not_Fuel.
  - destruct (registered rule g); [done|]. destruct of_token; [|done].
    by destruct (make_shared _ g).
  - intros g1 _. by destruct (subscript rule g1).
Qed.

(** Fuel above the length of the rule text is enough: [ParseRule] returns
    or throws. *)
Lemma ParseRule_total (fuel : nat) name rule g :
  StdString.fits rule -> (String.length rule < fuel)%nat ->
  ParseRule of_token stof uninitialised_length fuel name rule g <> Fuel.
Proof.
  revert name rule g. induction fuel as [|fuel IH]; intros name rule g Hfit Hlen; [lia|].
  assert (Hends : forall t, shorter rule t ->
            ends (ParseRule of_token stof uninitialised_length fuel) t).
  { intros t Ht g'. apply IH; [by eapply shorter_fits | unfold shorter in Ht; lia]. }
  cbn [ParseRule].
  destruct (has rule LND_DEL) eqn:E1.
  { rewrite ParseLNodeRule_eq by done. apply AddLNodeRule_total; apply Hends.
    - by apply LNode_ruleName_shorter.
    - by apply before_shorter. }
  destruct (has rule SEQ_DEL) eqn:E2.
  { unfold ParseSequenceRule.
    destruct (split_shorter rule SEQ_DEL) as (toks & -> & Hsh); try done.
    rewrite bind_Ok. apply AddSequenceRule_total.
    eapply Forall_impl; [exact Hsh | done]. }
  destruct (has rule SEL_DEL) eqn:E3.
  { unfold ParseSelectorRule.
    destruct (split_shorter rule SEL_DEL) as (toks & -> & Hsh); try done.
    rewrite bind_Ok.
    destruct (weightedRules_of_shorter rule toks Hfit Hsh) as [Hne Hws].
    apply bind_not_Fuel; [done|]. intros ws Hw. apply AddSelectorRule_total.
    eapply Forall_impl; [by apply Hws|]. intros w Hsw. by apply Hends. }
  destruct (has rule REP_DEL) eqn:E4.
  { rewrite ParseRepetitionRule_eq by done.
    apply bind_not_Fuel; [apply lift_not_Fuel|]. intros r _.
    apply AddRepetitionRule_total. apply Hends. by apply before_shorter. }
  apply AddSingleRule_total.
Qed.

End Totality.

(** ** Installing a node under a name *)

Section InstallFacts.

Context {Data : Type}.

Implicit Types (g : Grammar Data) (n : Node Data) (st : list (Node Data)).
Implicit Types (p oldNode newNode : ptr) (name : string).

Lemma deref_fresh st n : deref (st ++ [n]) (S (length st)) = Some n.
Proof. simpl. by rewrite lookup_app_r, Nat.sub_diag by lia. Qed.

Lemma deref_app st st' p n : deref st p = Some n -> deref (st ++ st') p = Some n.
Proof. destruct p as [|i]; simpl; [done|]. apply lookup_app_l_Some. Qed.

Lemma deref_beyond st p : (length st < p)%nat -> deref st p = None.
Proof. destruct p as [|i]; simpl; [lia|]. intros H. apply lookup_ge_None. lia. Qed.

Lemma install_ptr_registry name p g :
  m_pRules (install_ptr name p g) = <[name := p]> (m_pRules g).
Proof.
  unfold install_ptr. destruct (registered name g) eqn:E; [|done].
  apply registered_true in E as [oldNode E].
  by destruct (ChangeRule_registered name p g oldNode E) as [-> _].
Qed.

Lemma install_ptr_length name p g :
  length (store (install_ptr name p g)) = length (store g).
Proof.
  unfold install_ptr. destruct (registered name g) eqn:E; [|done].
  apply registered_true in E as [oldNode E].
  by destruct (ChangeRule_registered name p g oldNode E) as (_ & -> & _).
Qed.

(** A registered name is redefined through [ChangeRule]. *)
Lemma install_registered name n g oldNode :
  m_pRules g !! name = Some oldNode ->
  install name n g
  = ChangeRule name (S (length (store g))) (mkGrammar (m_pRules g) (store g ++ [n])).
Proof.
  intros H. unfold install, make_shared, install_ptr.
  by rewrite (proj2 (registered_true name (mkGrammar _ _))) by (simpl; eauto).
Qed.

Lemma install_fresh name n g :
  m_pRules g !! name = None ->
  install name n g
  = mkGrammar (<[name := S (length (store g))]> (m_pRules g)) (store g ++ [n]).
Proof.
  intros H. unfold install, make_shared, install_ptr.
  by rewrite (proj2 (registered_false name (mkGrammar _ _))) by done.
Qed.

Lemma install_registry name n g :
  m_pRules (install name n g) = <[name := S (length (store g))]> (m_pRules g).
Proof. unfold install, make_shared. by rewrite install_ptr_registry. Qed.

Lemma install_length name n g :
  length (store (install name n g)) = S (length (store g)).
Proof.
  unfold install, make_shared. rewrite install_ptr_length. simpl.
  rewrite length_app. simpl. lia.
Qed.

(** The node a name has after [install]: the one installed, with its own
    references to the node the name had before rewritten as well. *)
Lemma install_node_of name n g :
  node_of (install name n g) name
  = Some match m_pRules g !! name with
         | Some oldNode => SwapDependingNode oldNode (S (length (store g))) n
         | None => n
         end.
Proof.
  unfold node_of. rewrite install_registry, lookup_insert_eq. cbn [mbind option_bind].
  destruct (m_pRules g !! name) as [oldNode|] eqn:E.
  - rewrite (install_registered _ _ _ _ E).
    destruct (ChangeRule_registered name (S (length (store g)))
                (mkGrammar (m_pRules g) (store g ++ [n])) oldNode E) as (_ & _ & Hheld & _).
    cbn [deref]. rewrite Hheld.
    + simpl. by rewrite lookup_app_r, Nat.sub_diag by lia.
    + exists name. simpl. by rewrite lookup_insert_eq.
  - rewrite (install_fresh _ _ _ E). apply deref_fresh.
Qed.

End InstallFacts.

Lemma node_of_Some {Data : Type} (g : Grammar Data) (name : string) (n : Node Data) :
  node_of g name = Some n ->
  exists p, m_pRules g !! name = Some p /\ deref (store g) p = Some n.
Proof.
  unfold node_of. destruct (m_pRules g !! name) as [p|]; simpl; [|done]. eauto.
Qed.

(** [ChangeRule] on a registered name gives the name the new node,
    leaves the other names as they are, and rewrites, in every node that
    the registry holds, each reference to the old node into a reference
    to the new one; a generation through a sequence node that the
    registry holds then evaluates the new node where the old one stood.
    The end of every [Add...Rule] on a registered name is this
    [ChangeRule]. *)
Lemma ChangeRule_rewrites_held {Data : Type} (name : string) (newNode : ptr)
    (g : Grammar Data) (oldNode : ptr) :
  m_pRules g !! name = Some oldNode ->
  m_pRules (ChangeRule name newNode g) !! name = Some newNode /\
  (forall other, other <> name ->
     m_pRules (ChangeRule name newNode g) !! other = m_pRules g !! other) /\
  (forall p n, held (m_pRules (ChangeRule name newNode g)) p ->
     deref (store g) p = Some n ->
     deref (store (ChangeRule name newNode g)) p
     = Some (SwapDependingNode oldNode newNode n)) /\
  (forall p elements maxDepth samples fuel depth acc,
     held (m_pRules (ChangeRule name newNode g)) p ->
     deref (store g) p = Some (SequenceNode elements) ->
     Parse maxDepth samples (S fuel) (store (ChangeRule name newNode g)) p depth acc
     = foldl (fun r c => r ≫= Parse maxDepth samples fuel
                               (store (ChangeRule name newNode g)) c depth)
         (Ok acc) (map (swap_ptr oldNode newNode) elements)) /\
  (forall n, install name n g
     = ChangeRule name (S (length (store g)))
         (mkGrammar (m_pRules g) (store g ++ [n]))).
Proof.
  intros Hold.
  destruct (ChangeRule_registered name newNode g oldNode Hold) as (Hreg & _ & Hheld & _).
  assert (Hnode : forall p n, held (m_pRules (ChangeRule name newNode g)) p ->
            deref (store g) p = Some n ->
            deref (store (ChangeRule name newNode g)) p
            = Some (SwapDependingNode oldNode newNode n)).
  { intros [|i] n Hp Hn; [done|]. simpl in *. rewrite Hreg in Hp.
    by rewrite Hheld, Hn. }
  repeat split.
  - rewrite Hreg. apply lookup_insert_eq.
  - intros other Hne. rewrite Hreg. by apply lookup_insert_ne.
  - exact Hnode.
  - intros p elements maxDepth samples fuel depth acc Hp Hn.
    cbn [Parse]. by rewrite (Hnode _ _ Hp Hn).
  - intros n. by eapply install_registered.
Qed.

(** ** Generation *)

Section GenerationFacts.

Context {Data : Type}.
Variable maxDepth : nat.
Variable samples : nat -> float.

Implicit Types (g : Grammar Data) (n : Node Data) (st : list (Node Data)).

Lemma foldl_bind_stuck {A B : Type} (f : B -> A -> res A) (m : res A) (l : list B) :
  (forall a, m <> Ok a) -> foldl (fun r c => r ≫= f c) m l = m.
Proof.
  intros H. induction l as [|c l IH]; simpl; [done|].
  destruct m; simpl in *; try done. by destruct (H a).
Qed.

(** Two evaluators that agree wherever the first one ends agree on a
    sequence of children. *)
Lemma foldl_bind_mono {A B : Type} (f f' : B -> A -> res A) (l : list B) (a r : A) :
  (forall c a r, f c a = Ok r -> f' c a = Ok r) ->
  foldl (fun m c => m ≫= f c) (Ok a) l = Ok r ->
  foldl (fun m c => m ≫= f' c) (Ok a) l = Ok r.
Proof.
  intros Hf. revert a. induction l as [|c l IH]; intros a; simpl; [done|].
  destruct (f c a) as [a'| | |] eqn:E.
  - rewrite (Hf _ _ _ E). apply IH.
  - rewrite foldl_bind_stuck by done. done.
  - rewrite foldl_bind_stuck by done. done.
  - rewrite foldl_bind_stuck by done. done.
Qed.

Lemma iter_bind_mono {A : Type} (f f' : A -> res A) (k : nat) (a r : A) :
  (forall a r, f a = Ok r -> f' a = Ok r) ->
  Nat.iter k (fun m => m ≫= f) (Ok a) = Ok r ->
  Nat.iter k (fun m => m ≫= f') (Ok a) = Ok r.
Proof.
  intros Hf. revert r. induction k as [|k IH]; intros r; simpl; [done|].
  destruct (Nat.iter k (fun m => m ≫= f) (Ok a)) as [a'| | |]; simpl; try done.
  intros H. rewrite (IH a') by done. simpl. by apply Hf.
Qed.

(** Nodes added to the store do not change a generation that ended. *)
Lemma Parse_store_app (fuel : nat) st st' (p : ptr) (depth : nat)
    (acc r : list Data * nat) :
  Parse maxDepth samples fuel st p depth acc = Ok r ->
  Parse maxDepth samples fuel (st ++ st') p depth acc = Ok r.
Proof.
  revert p depth acc r. induction fuel as [|fuel IH]; intros p depth acc r; [done|].
  cbn [Parse]. destruct (deref st p) as [n|] eqn:E; [|done].
  rewrite (deref_app _ st' _ _ E).
  destruct n as [v|options|elements|c k|c f].
  - done.
  - destruct (pick options float_zero (samples (snd acc))); [apply IH | done].
  - apply foldl_bind_mono. intros c a r'. apply IH.
  - apply iter_bind_mono. intros a r'. apply IH.
  - destruct (depth <? maxDepth)%nat; apply IH.
Qed.

End GenerationFacts.

(** ** What compiling does to the names of the registry *)

Section Frame.

Context {Data : Type}.
Variable of_token : option (string -> Data).
Variable stof : string -> exn + float.
Variable uninitialised_length : string -> Z.

Implicit Types (g : Grammar Data) (name rule : string).

Lemma bind_Ok_inv {A B : Type} (m : res A) (f : A -> res B) (b : B) :
  m ≫= f = Ok b -> exists a, m = Ok a /\ f a = Ok b.
Proof. destruct m; simpl; try done. eauto. Qed.

Lemma install_ptr_frame name p g :
  m_pRules (install_ptr name p g) !! name = Some p /\
  forall k q, k <> name -> m_pRules g !! k = Some q ->
              m_pRules (install_ptr name p g) !! k = Some q.
Proof.
  rewrite install_ptr_registry. split; [apply lookup_insert_eq|].
  intros k q Hne Hk. by rewrite lookup_insert_ne.
Qed.

Lemma install_frame name (n : Node Data) g :
  m_pRules (install name n g) !! name = Some (S (length (store g))) /\
  forall k q, k <> name -> m_pRules g !! k = Some q ->
              m_pRules (install name n g) !! k = Some q.
Proof.
  rewrite install_registry. split; [apply lookup_insert_eq|].
  intros k q Hne Hk. by rewrite lookup_insert_ne.
Qed.

Section Callbacks.

Variable PR : string -> string -> Grammar Data -> res (Grammar Data).

Hypothesis PR_frame : forall rule g g',
  PR rule rule g = Ok g' ->
  is_Some (m_pRules g' !! rule) /\
  forall k q, k <> rule -> m_pRules g !! k = Some q -> m_pRules g' !! k = Some q.

(** After [ensure], the subrule is registered and no name has changed. *)
Lemma ensure_frame rule g g1 :
  ensure PR rule g = Ok g1 ->
  is_Some (m_pRules g1 !! rule) /\ m_pRules g ⊆ m_pRules g1.
Proof.
  unfold ensure. destruct (registered rule g) eqn:E.
  - intros [= <-]. by apply registered_true in E.
  - intros H. apply PR_frame in H as [H1 H2]. split; [done|].
    apply map_subseteq_spec. intros k q Hk. apply H2; [|done].
    apply registered_false in E. congruence.
Qed.

Lemma ensure_subscript rule g g1 :
  ensure PR rule g = Ok g1 ->
  exists p, m_pRules g1 !! rule = Some p /\ subscript rule g1 = (p, g1) /\
            m_pRules g ⊆ m_pRules g1.
Proof.
  intros [[p Hp] Hsub]%ensure_frame. exists p.
  by rewrite (subscript_Some _ _ _ Hp).
Qed.

Lemma AddSequenceRule_loop_frame (rules : list string) (elements : list ptr) g r :
  AddSequenceRule_loop PR rules elements g = Ok r ->
  m_pRules g ⊆ m_pRules (snd r).
Proof.
  revert elements g. induction rules as [|rule rest IH]; intros elements g.
  - by intros [= <-].
  - cbn [AddSequenceRule_loop].
    intros (g1 & (p & _ & -> & Hsub)%ensure_subscript & H)%bind_Ok_inv.
    apply IH in H. by etrans.
Qed.

(** The options that the loop of [AddSelectorRule] adds carry the weights
    of the clauses, one for one. *)
Lemma AddSelectorRule_loop_frame (rules : list (string * float))
    (options : list (ptr * float)) g r :
  AddSelectorRule_loop PR rules options g = Ok r ->
  m_pRules g ⊆ m_pRules (snd r) /\
  exists ps : list ptr,
    length ps = length rules /\ fst r = (options ++ zip ps (rules.*2))%list.
Proof.
  revert options g. induction rules as [|rule rest IH]; intros options g.
  - intros [= <-]. split; [done|]. exists []. by rewrite app_nil_r.
  - cbn [AddSelectorRule_loop].
    intros (g1 & (p & _ & -> & Hsub)%ensure_subscript & H)%bind_Ok_inv.
    apply IH in H as (Hsub' & ps & Hlen & ->). split; [by etrans|].
    exists (p :: ps). split; [simpl; lia|]. by rewrite <- app_assoc.
Qed.

(** [AddLNodeRule] makes sure of [rule], then of [fallbackRule], and
    installs [LNode] with the node of [rule] first and the node of
    [fallbackRule] second. *)
Lemma AddLNodeRule_shape name rule fallbackRule g g' :
  AddLNodeRule PR name rule fallbackRule g = Ok g' ->
  exists g1 gm p f,
    ensure PR rule g = Ok g1 /\ ensure PR fallbackRule g1 = Ok gm /\
    m_pRules gm !! rule = Some p /\ m_pRules gm !! fallbackRule = Some f /\
    g' = install name (LNode p f) gm.
Proof.
  unfold AddLNodeRule. intros (g1 & Hg1 & H)%bind_Ok_inv.
  apply bind_Ok_inv in H as (g2 & Hg2 & H).
  apply ensure_frame in Hg1 as Hf1. destruct Hf1 as [[p Hp] _].
  apply ensure_frame in Hg2 as Hf2. destruct Hf2 as [[f Hf] Hsub].
  pose proof (lookup_weaken _ _ _ _ Hp Hsub) as Hp'.
  rewrite (subscript_Some _ _ _ Hp'), (subscript_Some _ _ _ Hf) in H.
  injection H as <-. by exists g1, g2, p, f.
Qed.

Lemma AddRepetitionRule_shape name (rule : string * float) g g' :
  AddRepetitionRule PR name rule g = Ok g' ->
  exists gm p,
    ensure PR (fst rule) g = Ok gm /\ m_pRules gm !! fst rule = Some p /\
    g' = install name (RepetitionNode p (snd rule)) gm.
Proof.
  unfold AddRepetitionRule. intros (g1 & Hg1 & H)%bind_Ok_inv.
  apply ensure_subscript in Hg1 as Hf1. destruct Hf1 as (p & Hp & Hs & _).
  rewrite Hs in H. injection H as <-. by exists g1, p.
Qed.

Lemma AddSelectorRule_shape name (rules : list (string * float)) g g' :
  AddSelectorRule PR name rules g = Ok g' ->
  exists gm (ps : list ptr),
    length ps = length rules /\
    g' = install name (SelectNode (zip ps (rules.*2))) gm.
Proof.
  unfold AddSelectorRule. intros (r & Hloop & H)%bind_Ok_inv.
  apply AddSelectorRule_loop_frame in Hloop as (_ & ps & Hlen & Hr).
  injection H as <-. rewrite Hr. by exists (snd r), ps.
Qed.

End Callbacks.

Lemma AddSingleRule_frame name rule g g' :
  AddSingleRule of_token name rule g = Ok g' ->
  is_Some (m_pRules g' !! name) /\
  forall k q, k <> name -> m_pRules g !! k = Some q -> m_pRules g' !! k = Some q.
Proof.
  unfold AddSingleRule. intros (g1 & Hg1 & H)%bind_Ok_inv.
  assert (Hsub : is_Some (m_pRules g1 !! rule) /\ m_pRules g ⊆ m_pRules g1).
  { destruct (registered rule g) eqn:E.
    - injection Hg1 as <-. by apply registered_true in E.
    - destruct of_token as [conv|]; [|done]. unfold make_shared, assign in Hg1.
      injection Hg1 as <-. simpl. rewrite lookup_insert_eq. split; [eauto|].
      apply insert_subseteq. by apply registered_false. }
  destruct Hsub as [[p Hp] Hsub]. rewrite (subscript_Some _ _ _ Hp) in H.
  injection H as <-. destruct (install_ptr_frame name p g1) as [H1 H2].
  split; [eauto|]. intros k q Hne Hk. apply H2; [done|].
  by eapply lookup_weaken.
Qed.

(** [ParseRule] registers the name it is given and leaves every other
    name that was registered as it was. *)
Lemma ParseRule_frame (fuel : nat) name rule g g' :
  ParseRule of_token stof uninitialised_length fuel name rule g = Ok g' ->
  is_Some (m_pRules g' !! name) /\
  forall k q, k <> name -> m_pRules g !! k = Some q -> m_pRules g' !! k = Some q.
Proof.
  revert name rule g g'. induction fuel as [|fuel IH]; intros name rule g g'; [done|].
  assert (HPR : forall rule g g',
            ParseRule of_token stof uninitialised_length fuel rule rule g = Ok g' ->
            is_Some (m_pRules g' !! rule) /\
            forall k q, k <> rule -> m_pRules g !! k = Some q -> m_pRules g' !! k = Some q)
    by (intros r0 g0 g0' H0; exact (IH _ _ _ _ H0)).
  assert (Hinstall : forall (n : Node Data) gm,
            m_pRules g ⊆ m_pRules gm ->
            is_Some (m_pRules (install name n gm) !! name) /\
            forall k q, k <> name -> m_pRules g !! k = Some q ->
                        m_pRules (install name n gm) !! k = Some q).
  { intros n gm Hsub. destruct (install_frame name n gm) as [H1 H2].
    split; [eauto|]. intros k q Hne Hk. apply H2; [done|]. by eapply lookup_weaken. }
  cbn [ParseRule].
  destruct (has rule LND_DEL).
  { unfold ParseLNodeRule. cbv zeta.
    intros (fallbackName & _ & (ruleName & _ & H)%bind_Ok_inv)%bind_Ok_inv.
    unfold AddLNodeRule in H.
    apply bind_Ok_inv in H as (g1 & (Hr1 & Hs1)%(ensure_frame _ HPR) & H).
    apply bind_Ok_inv in H as (g2 & (Hr2 & Hs2)%(ensure_frame _ HPR) & H).
    destruct (subscript ruleName g2) as [p g3] eqn:E3.
    destruct (subscript fallbackName g3) as [f g4] eqn:E4.
    injection H as <-. apply Hinstall.
    destruct Hr1 as [p1 Hp1]. pose proof (lookup_weaken _ _ _ _ Hp1 Hs2) as Hp1'.
    rewrite (subscript_Some _ _ _ Hp1') in E3. injection E3 as <- <-.
    destruct Hr2 as [p2 Hp2].
    rewrite (subscript_Some _ _ _ Hp2) in E4. injection E4 as <- <-.
    by etrans. }
  destruct (has rule SEQ_DEL).
  { unfold ParseSequenceRule. intros (rules & _ & H)%bind_Ok_inv.
    unfold AddSequenceRule in H. apply bind_Ok_inv in H as (r & Hloop & H).
    injection H as <-. apply Hinstall.
    by eapply (AddSequenceRule_loop_frame _ HPR). }
  destruct (has rule SEL_DEL).
  { unfold ParseSelectorRule.
    intros (rules & _ & (ws & _ & H)%bind_Ok_inv)%bind_Ok_inv.
    unfold AddSelectorRule in H. apply bind_Ok_inv in H as (r & Hloop & H).
    injection H as <-. apply Hinstall.
    by eapply (AddSelectorRule_loop_frame _ HPR). }
  destruct (has rule REP_DEL).
  { unfold ParseRepetitionRule. cbv zeta.
    intros (ruleName & _ & (repetitionString & _ & (n & _ & H)%bind_Ok_inv)%bind_Ok_inv)%bind_Ok_inv.
    unfold AddRepetitionRule in H.
    apply bind_Ok_inv in H as (g1 & (p & _ & Hs & Hsub)%(ensure_subscript _ HPR) & H).
    cbn [fst snd] in *. rewrite Hs in H. injection H as <-. by apply Hinstall. }
  apply AddSingleRule_frame.
Qed.

End Frame.

(** ** The invariant of compiled grammars *)

Section Invariant.

Context {Data : Type}.

(** Whether [closed] is part of the invariant. *)
Context {c : bool}.

Implicit Types (g gm : Grammar Data) (n : Node Data) (st : list (Node Data)).
Implicit Types (p q oldNode newNode : ptr) (name : string).

Lemma ptrs_of_swap oldNode newNode n :
  ptrs_of (SwapDependingNode oldNode newNode n)
  = swap_ptr oldNode newNode <$> ptrs_of n.
Proof.
  destruct n as [v|options|elements|q k|q f]; try done.
  simpl. induction options as [|[q w] options IH]; [done|].
  simpl. f_equal. apply IH.
Qed.

Lemma swap_ptr_ne oldNode newNode q : q <> oldNode -> swap_ptr oldNode newNode q = q.
Proof. intros H. unfold swap_ptr. by rewrite decide_False. Qed.

(** A node that does not refer to the old node is not changed. *)
Lemma SwapDependingNode_id oldNode newNode n :
  Forall (fun q => q <> oldNode) (ptrs_of n) -> SwapDependingNode oldNode newNode n = n.
Proof.
  destruct n as [v|options|elements|q0 k|q0 f]; simpl; intros H.
  - done.
  - f_equal. induction options as [|[q w] options IH]; simpl in *; [done|].
    apply Forall_cons in H as [Hq H]. by rewrite swap_ptr_ne, IH.
  - f_equal. induction elements as [|q elements IH]; simpl in *; [done|].
    apply Forall_cons in H as [Hq H]. by rewrite swap_ptr_ne, IH.
  - apply Forall_cons in H as [Hq _]. by rewrite swap_ptr_ne.
  - apply Forall_cons in H as [Hq H]. apply Forall_cons in H as [Hf _].
    by rewrite !swap_ptr_ne.
Qed.

Lemma held_mono (m m' : gmap string ptr) p : m ⊆ m' -> held m p -> held m' p.
Proof. intros Hsub [k Hk]. exists k. by eapply lookup_weaken. Qed.

Lemma store_le_length g gm :
  (forall i n, store g !! i = Some n -> store gm !! i = Some n) ->
  (length (store g) <= length (store gm))%nat.
Proof.
  intros H.
  destruct (decide (length (store g) <= length (store gm))%nat) as [|Hgt]; [done|].
  destruct (lookup_lt_is_Some_2 (store g) (length (store gm))) as [n0 Hn0]; [lia|].
  apply H in Hn0. apply lookup_lt_Some in Hn0. lia.
Qed.

Lemma extends_length g gm : extends c g gm -> (length (store g) <= length (store gm))%nat.
Proof. intros (_ & _ & H & _). by apply store_le_length. Qed.

Lemma extends_refl g : inv c g -> extends c g g.
Proof.
  intros H. split; [done|]. split; [done|]. split; [done|].
  intros k p H1 H2. congruence.
Qed.

Lemma extends_trans g g1 g2 : extends c g g1 -> extends c g1 g2 -> extends c g g2.
Proof.
  intros (Hinv1 & Hs1 & Hst1 & Hf1) (Hinv2 & Hs2 & Hst2 & Hf2).
  pose proof (store_le_length _ _ Hst1) as Hlen.
  split; [done|]. split; [by etrans|]. split.
  - intros i n Hn. by apply Hst2, Hst1.
  - intros k p Hnone Hp.
    destruct (m_pRules g1 !! k) as [p1|] eqn:E1.
    + pose proof (lookup_weaken _ _ _ _ E1 Hs2) as Hp1.
      rewrite Hp in Hp1. injection Hp1 as ->. by eapply Hf1.
    + specialize (Hf2 _ _ E1 Hp). lia.
Qed.

Lemma bounded_deref g p :
  bounded g -> held (m_pRules g) p -> is_Some (deref (store g) p).
Proof.
  intros [Hb _] [k Hk]. apply Hb in Hk. destruct p as [|i]; [lia|].
  simpl. apply lookup_lt_is_Some. lia.
Qed.

(** In a closed grammar, the graph is the nodes that the registry
    holds. *)
Lemma reachable_is_held g p : closed g -> reachable g p -> held (m_pRules g) p.
Proof.
  intros Hc H. induction H as [p Hp|p q n _ IH Hn Hq]; [done|].
  specialize (Hc _ _ IH Hn). rewrite Forall_forall in Hc. by apply Hc.
Qed.

Lemma inv_empty : inv c (empty_grammar (Data := Data)).
Proof.
  split; [split|intros _]; unfold empty_grammar; cbn [m_pRules store].
  - intros k p H. by rewrite lookup_empty in H.
  - intros i n H. by rewrite lookup_nil in H.
  - intros p n [k Hk]. simpl in Hk. by rewrite lookup_empty in Hk.
Qed.

(** [make_shared] of a node over nodes that the registry holds. *)
Lemma make_shared_extends n g :
  inv c g -> Forall (held (m_pRules g)) (ptrs_of n) ->
  extends c g (snd (make_shared n g)).
Proof.
  intros [[Hb1 Hb2] Hc] Hn. unfold make_shared. cbn [snd].
  assert (Hn' : Forall (fun q => (q <= length (store g))%nat) (ptrs_of n)).
  { eapply Forall_impl; [exact Hn|]. intros q [k Hk]. apply Hb1 in Hk. lia. }
  split; [split; [split|]|]; cbn [m_pRules store].
  - intros k p Hp. apply Hb1 in Hp. rewrite length_app. simpl. lia.
  - intros i n0 Hi. rewrite length_app. simpl.
    apply lookup_app_Some in Hi as [Hi|[_ Hi]].
    + eapply Forall_impl; [by eapply Hb2|]. simpl. lia.
    + apply list_lookup_singleton_Some in Hi as [_ <-].
      eapply Forall_impl; [exact Hn'|]. simpl. lia.
  - intros Hct p n0 Hp Hd. cbn [m_pRules store] in *.
    destruct (bounded_deref g p (conj Hb1 Hb2) Hp) as [n1 Hn1].
    rewrite (deref_app _ _ _ _ Hn1) in Hd. injection Hd as <-. by eapply (Hc Hct).
  - split; [done|]. split; [intros i n0; apply lookup_app_l_Some|].
    intros k p H1 H2. congruence.
Qed.

(** Each node after [ChangeRule]: as it was, or rewritten when the
    registry holds it. *)
Lemma ChangeRule_cell name newNode g oldNode (i : nat) :
  m_pRules g !! name = Some oldNode ->
  store (ChangeRule name newNode g) !! i = store g !! i \/
  (held (<[name := newNode]> (m_pRules g)) (S i) /\
   store (ChangeRule name newNode g) !! i
   = SwapDependingNode oldNode newNode <$> store g !! i).
Proof.
  intros Hold.
  destruct (ChangeRule_registered name newNode g oldNode Hold) as (_ & _ & H1 & H2).
  destruct (decide (S i ∈ (map_to_list (<[name := newNode]> (m_pRules g))).*2))
    as [Hin|Hnin].
  - apply held_map_to_list in Hin. right. split; [done | by apply H1].
  - left. apply H2. by rewrite <- held_map_to_list.
Qed.

(** Pointing a name at a node that is in the store, over nodes that the
    registry holds, keeps the invariant. *)
Lemma install_ptr_inv name p gm :
  inv c gm -> (0 < p <= length (store gm))%nat ->
  (c = true ->
   forall n, deref (store gm) p = Some n -> Forall (held (m_pRules gm)) (ptrs_of n)) ->
  inv c (install_ptr name p gm).
Proof.
  intros [[Hb1 Hb2] Hc] Hp Hpn.
  assert (Hreg : forall k (q : ptr),
            m_pRules (install_ptr name p gm) !! k = Some q ->
            (0 < q <= length (store gm))%nat).
  { intros k q. rewrite install_ptr_registry.
    destruct (decide (name = k)) as [->|Hne].
    - rewrite lookup_insert_eq. by intros [= <-].
    - rewrite lookup_insert_ne by done. apply Hb1. }
  unfold install_ptr in *. destruct (registered name gm) eqn:E.
  - apply registered_true in E as [oldNode Hold].
    destruct (ChangeRule_registered name p gm oldNode Hold) as (Hr & Hlen & Hheld & _).
    assert (Hswap : forall q, held (m_pRules gm) q ->
              held (<[name := p]> (m_pRules gm)) (swap_ptr oldNode p q)).
    { intros q [kc Hkc]. unfold swap_ptr. case_decide as Hco.
      - exists name. apply lookup_insert_eq.
      - exists kc. rewrite lookup_insert_ne; [done|]. intros <-. congruence. }
    split; [split|].
    + intros k q Hk. rewrite Hlen. by eapply Hreg.
    + intros i n' Hi. rewrite Hlen.
      destruct (ChangeRule_cell name p gm oldNode i Hold) as [Heq|[_ Heq]];
        rewrite Heq in Hi.
      * by eapply Hb2.
      * destruct (store gm !! i) as [n|] eqn:En; [|done]. injection Hi as <-.
        rewrite ptrs_of_swap. apply Forall_fmap.
        eapply Forall_impl; [by eapply Hb2|]. intros q Hcb. simpl in *.
        unfold swap_ptr. case_decide; lia.
    + intros Hct q n' Hq Hd. rewrite Hr in *.
      destruct q as [|i]; [done|]. cbn [deref] in Hd.
      rewrite (Hheld i Hq) in Hd.
      destruct (store gm !! i) as [n|] eqn:En; [|done]. injection Hd as <-.
      rewrite ptrs_of_swap. apply Forall_fmap.
      assert (Hn : Forall (held (m_pRules gm)) (ptrs_of n)).
      { destruct Hq as [k Hk]. destruct (decide (name = k)) as [->|Hne].
        - rewrite lookup_insert_eq in Hk. injection Hk as Hk.
          apply (Hpn Hct). rewrite Hk. exact En.
        - rewrite lookup_insert_ne in Hk by done.
          apply (Hc Hct (S i) n); [by exists k | exact En]. }
      eapply Forall_impl; [exact Hn|]. intros q Hch. by apply Hswap.
  - apply registered_false in E. unfold assign in *. cbn [m_pRules store] in *.
    assert (Hsub : m_pRules gm ⊆ <[name := p]> (m_pRules gm))
      by by apply insert_subseteq.
    split; [split|]; cbn [m_pRules store].
    + done.
    + done.
    + intros Hct q n Hq Hd. cbn [m_pRules store] in *.
      assert (Hn : Forall (held (m_pRules gm)) (ptrs_of n)).
      { destruct Hq as [k Hk]. destruct (decide (name = k)) as [->|Hne].
        - rewrite lookup_insert_eq in Hk. injection Hk as Hk.
          apply (Hpn Hct). rewrite Hk. exact Hd.
        - rewrite lookup_insert_ne in Hk by done.
          apply (Hc Hct q n); [by exists k | exact Hd]. }
      eapply Forall_impl; [exact Hn|]. intros q0 Hch. by eapply held_mono.
Qed.

(** Installing under a name that the grammar did not have before the
    subrules were compiled leaves the grammar's own names and nodes as
    they were. *)
Lemma install_ptr_extends name p g gm :
  bounded g -> extends c g gm -> m_pRules g !! name = None ->
  (length (store g) < p)%nat -> inv c (install_ptr name p gm) ->
  extends c g (install_ptr name p gm).
Proof.
  intros [Hb1 Hb2] (Hinv & Hsub & Hst & Hfresh) Hnone Hp Hinv'.
  split; [done|]. rewrite install_ptr_registry. split; [|split].
  - apply map_subseteq_spec. intros k q Hk.
    rewrite lookup_insert_ne by congruence. by eapply lookup_weaken.
  - intros i n Hn. pose proof (Hst _ _ Hn) as Hgm.
    unfold install_ptr. destruct (registered name gm) eqn:E; [|done].
    apply registered_true in E as [oldNode Hold].
    destruct (ChangeRule_cell name p gm oldNode i Hold) as [Heq|[_ Heq]];
      rewrite Heq, Hgm; [done|]. simpl. f_equal.
    apply SwapDependingNode_id.
    eapply Forall_impl; [by eapply Hb2|]. intros q Hq. simpl in Hq.
    specialize (Hfresh _ _ Hnone Hold). lia.
  - intros k q Hk. destruct (decide (name = k)) as [->|Hne].
    + rewrite lookup_insert_eq. by intros [= <-].
    + rewrite lookup_insert_ne by done. by apply Hfresh.
Qed.

End Invariant.

(** ** Compiling keeps the invariant and the nodes that were there *)

Section StoreFrame.

Context {Data : Type}.
Variable of_token : option (string -> Data).
Variable stof : string -> exn + float.
Variable uninitialised_length : string -> Z.

(** Whether [closed] is part of the invariant. *)
Variable c : bool.

Implicit Types (g gm : Grammar Data) (n : Node Data) (name rule : string).

Section Callbacks.

Variable PR : string -> string -> Grammar Data -> res (Grammar Data).
Hypothesis PR_nested : nested_ok c PR.

Lemma ensure_extends rule g g1 :
  inv c g -> ensure PR rule g = Ok g1 ->
  extends c g g1 /\
  exists p : ptr, m_pRules g1 !! rule = Some p /\ subscript rule g1 = (p, g1).
Proof.
  intros Hinv. unfold ensure. destruct (registered rule g) eqn:E.
  - intros [= <-]. split; [by apply extends_refl|].
    apply registered_true in E as [p Hp]. exists p.
    by rewrite (subscript_Some _ _ _ Hp).
  - apply registered_false in E. intros H.
    destruct (PR_nested _ _ _ Hinv E H) as [Hext [p Hp]]. split; [done|].
    exists p. by rewrite (subscript_Some _ _ _ Hp).
Qed.

Lemma AddSequenceRule_loop_extends (rules : list string) (elements : list ptr) g r :
  inv c g -> Forall (held (m_pRules g)) elements ->
  AddSequenceRule_loop PR rules elements g = Ok r ->
  extends c g (snd r) /\ Forall (held (m_pRules (snd r))) (fst r).
Proof.
  revert elements g. induction rules as [|rule rest IH]; intros elements g Hinv Hel.
  - intros [= <-]. split; [by apply extends_refl | done].
  - cbn [AddSequenceRule_loop]. intros (g1 & Hg1 & H)%bind_Ok_inv.
    destruct (ensure_extends _ _ _ Hinv Hg1) as (Hext & p & Hp & Hs).
    rewrite Hs in H. apply IH in H as [Hext' Hheld].
    + split; [by eapply extends_trans | done].
    + apply Hext.
    + apply Forall_app. split.
      * eapply Forall_impl; [exact Hel|]. intros q. apply held_mono, Hext.
      * apply Forall_singleton. by exists rule.
Qed.

Lemma AddSelectorRule_loop_extends (rules : list (string * float))
    (options : list (ptr * float)) g r :
  inv c g -> Forall (held (m_pRules g)) (options.*1) ->
  AddSelectorRule_loop PR rules options g = Ok r ->
  extends c g (snd r) /\ Forall (held (m_pRules (snd r))) ((fst r).*1).
Proof.
  revert options g. induction rules as [|rule rest IH]; intros options g Hinv Hel.
  - intros [= <-]. split; [by apply extends_refl | done].
  - cbn [AddSelectorRule_loop]. intros (g1 & Hg1 & H)%bind_Ok_inv.
    destruct (ensure_extends _ _ _ Hinv Hg1) as (Hext & p & Hp & Hs).
    rewrite Hs in H. apply IH in H as [Hext' Hheld].
    + split; [by eapply extends_trans | done].
    + apply Hext.
    + rewrite fmap_app. apply Forall_app. split.
      * eapply Forall_impl; [exact Hel|]. intros q. apply held_mono, Hext.
      * apply Forall_singleton. by exists (fst rule).
Qed.

End Callbacks.

(** [install] of a node over nodes that the registry holds, after
    subrules were compiled: a name pointed at a node made since. *)
Lemma install_shape name rule n g gm0 :
  extends c g gm0 -> Forall (held (m_pRules gm0)) (ptrs_of n) ->
  exists gm p, extends c g gm /\ target_ok c g gm p rule /\
               install name n gm0 = install_ptr name p gm.
Proof.
  intros Hext Hn. exists (snd (make_shared n gm0)), (S (length (store gm0))).
  pose proof (extends_length _ _ Hext) as Hlen.
  split; [|split].
  - eapply extends_trans; [exact Hext|]. apply make_shared_extends; [apply Hext | done].
  - unfold target_ok, make_shared. cbn [snd store m_pRules]. split; [|split].
    + rewrite length_app. simpl. lia.
    + intros _ n0. rewrite deref_fresh. by intros [= <-].
    + left. lia.
  - done.
Qed.

Lemma AddSingleRule_shape name rule g g' :
  inv c g -> AddSingleRule of_token name rule g = Ok g' ->
  exists gm p, extends c g gm /\ target_ok c g gm p rule /\ g' = install_ptr name p gm.
Proof.
  intros Hinv. unfold AddSingleRule. intros (g1 & Hg1 & H)%bind_Ok_inv.
  destruct (registered rule g) eqn:E.
  - injection Hg1 as <-. apply registered_true in E as [p Hp].
    rewrite (subscript_Some _ _ _ Hp) in H. injection H as <-.
    exists g, p. split; [by apply extends_refl|]. split; [|done].
    destruct Hinv as [[Hb1 Hb2] Hc]. split; [by eapply Hb1|]. split; [|by right].
    intros Hct n Hn. eapply (Hc Hct); [by exists rule | done].
  - apply registered_false in E. destruct of_token as [conv|]; [|done].
    injection Hg1 as <-.
    set (gm0 := snd (make_shared (LeafNode (conv rule)) g)).
    assert (Hext0 : extends c g gm0) by (by apply make_shared_extends).
    assert (Heq : assign rule (S (length (store g))) gm0
                  = install_ptr rule (S (length (store g))) gm0).
    { unfold install_ptr. by rewrite (proj2 (registered_false rule gm0)). }
    assert (Hleaf : deref (store gm0) (S (length (store g))) = Some (LeafNode (conv rule)))
      by apply deref_fresh.
    assert (Hinv1 : inv c (install_ptr rule (S (length (store g))) gm0)).
    { apply install_ptr_inv; [apply Hext0 | |].
      - subst gm0. unfold make_shared. cbn [snd store]. rewrite length_app. simpl. lia.
      - intros _ n. rewrite Hleaf. by intros [= <-]. }
    assert (Hext1 : extends c g (install_ptr rule (S (length (store g))) gm0))
      by (apply install_ptr_extends; try done; [apply Hinv | lia]).
    unfold make_shared in H. fold gm0 in H. cbn [fst snd] in H.
    change (mkGrammar (m_pRules g) (store g ++ [LeafNode (conv rule)])) with gm0 in H.
    rewrite Heq in H.
    assert (Hp : m_pRules (install_ptr rule (S (length (store g))) gm0) !! rule
                 = Some (S (length (store g))))
      by (rewrite install_ptr_registry; apply lookup_insert_eq).
    rewrite (subscript_Some _ _ _ Hp) in H. injection H as <-.
    eexists _, _. split; [exact Hext1|]. split; [|done].
    split; [|split].
    + rewrite install_ptr_length. subst gm0. unfold make_shared. cbn [snd store].
      rewrite length_app. simpl. lia.
    + intros _ n Hn.
      assert (Hn' : deref (store (install_ptr rule (S (length (store g))) gm0))
                      (S (length (store g))) = Some (LeafNode (conv rule))).
      { destruct Hext1 as (_ & _ & Hst & _).
        unfold install_ptr. rewrite (proj2 (registered_false rule gm0)) by done.
        exact Hleaf. }
      rewrite Hn' in Hn. by injection Hn as <-.
    + left. lia.
Qed.

(** What [ParseRule] returns is the grammar after the subrules, with the
    name pointed at its node. *)
Lemma shape_nested rule g g' :
  inv c g -> m_pRules g !! rule = None ->
  (exists gm p, extends c g gm /\ target_ok c g gm p rule /\
                g' = install_ptr rule p gm) ->
  extends c g g' /\ is_Some (m_pRules g' !! rule).
Proof.
  intros Hinv Hnone (gm & p & Hext & (Hp & Hpn & Hfresh) & ->).
  destruct Hfresh as [Hfresh|Hreg]; [|congruence].
  split.
  - apply install_ptr_extends; try done; [apply Hinv|].
    apply install_ptr_inv; [apply Hext | done | done].
  - rewrite install_ptr_registry, lookup_insert_eq. eauto.
Qed.

Lemma ParseRule_shape (fuel : nat) name rule g g' :
  inv c g -> ParseRule of_token stof uninitialised_length fuel name rule g = Ok g' ->
  exists gm p, extends c g gm /\ target_ok c g gm p rule /\ g' = install_ptr name p gm.
Proof.
  revert name rule g g'. induction fuel as [|fuel IH]; intros name rule g g' Hinv; [done|].
  assert (HPR : nested_ok c (ParseRule of_token stof uninitialised_length fuel)).
  { intros r0 g0 g0' Hinv0 Hnone H0. apply shape_nested; try done. by apply IH. }
  cbn [ParseRule].
  destruct (has rule LND_DEL).
  { unfold ParseLNodeRule. cbv zeta.
    intros (fallbackName & _ & (ruleName & _ & H)%bind_Ok_inv)%bind_Ok_inv.
    unfold AddLNodeRule in H.
    apply bind_Ok_inv in H as (g1 & Hg1 & H).
    apply bind_Ok_inv in H as (g2 & Hg2 & H).
    destruct (ensure_extends _ HPR _ _ _ Hinv Hg1) as (Hext1 & p & Hp & _).
    destruct (ensure_extends _ HPR _ _ _ (proj1 Hext1) Hg2) as (Hext2 & f & Hf & _).
    pose proof (lookup_weaken _ _ _ _ Hp (proj1 (proj2 Hext2))) as Hp'.
    rewrite (subscript_Some _ _ _ Hp'), (subscript_Some _ _ _ Hf) in H.
    injection H as <-. apply install_shape; [by eapply extends_trans|].
    simpl. repeat constructor; [by exists ruleName | by exists fallbackName]. }
  destruct (has rule SEQ_DEL).
  { unfold ParseSequenceRule. intros (rules & _ & H)%bind_Ok_inv.
    unfold AddSequenceRule in H. apply bind_Ok_inv in H as (r & Hloop & H).
    injection H as <-.
    destruct (AddSequenceRule_loop_extends _ HPR _ _ _ _ Hinv (Forall_nil_2 _) Hloop)
      as [Hext Hheld].
    by apply install_shape. }
  destruct (has rule SEL_DEL).
  { unfold ParseSelectorRule.
    intros (rules & _ & (ws & _ & H)%bind_Ok_inv)%bind_Ok_inv.
    unfold AddSelectorRule in H. apply bind_Ok_inv in H as (r & Hloop & H).
    injection H as <-.
    destruct (AddSelectorRule_loop_extends _ HPR ws [] g r Hinv (Forall_nil_2 _) Hloop)
      as [Hext Hheld].
    by apply install_shape. }
  destruct (has rule REP_DEL).
  { unfold ParseRepetitionRule. cbv zeta.
    intros (ruleName & _ & (repetitionString & _ & (k & _ & H)%bind_Ok_inv)%bind_Ok_inv)%bind_Ok_inv.
    unfold AddRepetitionRule in H. apply bind_Ok_inv in H as (g1 & Hg1 & H).
    destruct (ensure_extends _ HPR _ _ _ Hinv Hg1) as (Hext1 & p & Hp & Hs).
    cbn [fst snd] in *. rewrite Hs in H. injection H as <-.
    apply install_shape; [done|]. simpl. repeat constructor. by exists ruleName. }
  by apply AddSingleRule_shape.
Qed.

(** Every grammar that [ParseRule] returns, given one with the invariant,
    has it. *)
Lemma ParseRule_inv (fuel : nat) name rule g g' :
  inv c g -> ParseRule of_token stof uninitialised_length fuel name rule g = Ok g' ->
  inv c g'.
Proof.
  intros Hinv H.
  destruct (ParseRule_shape _ _ _ _ _ Hinv H) as (gm & p & Hext & (Hp & Hpn & _) & ->).
  apply install_ptr_inv; [apply Hext | done | done].
Qed.

End StoreFrame.

(** [AddLeaveNode] keeps [bounded], whatever the name had; it keeps
    [closed] when the name is new. *)
Lemma AddLeaveNode_bounded {Data : Type} (name : string) (v : Data) (g : Grammar Data) :
  bounded g -> bounded (AddLeaveNode name v g).
Proof.
  intros [Hb1 Hb2]. unfold AddLeaveNode, make_shared, assign.
  split; cbn [m_pRules store]; rewrite length_app; simpl.
  - intros k p. destruct (decide (name = k)) as [->|Hne].
    + rewrite lookup_insert_eq. intros [= <-]. lia.
    + rewrite lookup_insert_ne by done. intros Hp. apply Hb1 in Hp. lia.
  - intros i n Hi. apply lookup_app_Some in Hi as [Hi|[_ Hi]].
    + eapply Forall_impl; [by eapply Hb2|]. simpl. lia.
    + apply list_lookup_singleton_Some in Hi as [_ <-]. constructor.
Qed.

Lemma AddLeaveNode_inv {Data : Type} (c : bool) (name : string) (v : Data)
    (g : Grammar Data) :
  inv c g -> m_pRules g !! name = None -> inv c (AddLeaveNode name v g).
Proof.
  intros Hinv Hnone.
  assert (Hext : extends c g (snd (make_shared (LeafNode v) g)))
    by (by apply make_shared_extends).
  assert (Heq : AddLeaveNode name v g
                = install_ptr name (S (length (store g))) (snd (make_shared (LeafNode v) g))).
  { unfold AddLeaveNode, install_ptr, make_shared. cbn [snd].
    by rewrite (proj2 (registered_false name (mkGrammar _ _))). }
  rewrite Heq. apply install_ptr_inv; [apply Hext | |].
  - unfold make_shared. cbn [snd store]. rewrite length_app. simpl. lia.
  - intros _ n. unfold make_shared. cbn [snd store]. rewrite deref_fresh.
    by intros [= <-].
Qed.

Lemma bounded_inv {Data : Type} (g : Grammar Data) : bounded g -> inv false g.
Proof. intros H. by split. Qed.

(** Every grammar that the calls build is [bounded]. *)
Lemma built_bounded {Data : Type} (of_token : option (string -> Data))
    (stof : string -> exn + float) (uninitialised_length : string -> Z)
    (g : Grammar Data) :
  built of_token stof uninitialised_length g -> bounded g.
Proof.
  induction 1 as [|fuel name rule g g' _ IH H|name v g _ IH].
  - apply (inv_empty (c := false)).
  - by apply (ParseRule_inv of_token stof uninitialised_length false
                fuel name rule g g' (bounded_inv g IH) H).
  - by apply AddLeaveNode_bounded.
Qed.

Lemma swap_ptr_not_old (oldNode newNode c : ptr) :
  newNode <> oldNode -> swap_ptr oldNode newNode c <> oldNode.
Proof. intros H. unfold swap_ptr. by case_decide. Qed.

(** ** The grammars of the examples *)

Lemma atomic_hello : atomic "hello".
Proof.
  assert (Hfit : StdString.fits "hello") by (apply fits_small; simpl; lia).
  repeat split; by apply not_occurs.
Qed.


Lemma sequence_compiled_eq :
  StringGrammar.compile "S" "R & x" empty_grammar = Ok StringGrammar.sequence_compiled.
Proof. vm_compute. reflexivity. Qed.

Lemma sequence_compiled_inv (c : bool) : inv c StringGrammar.sequence_compiled.
Proof. exact (ParseRule_inv _ _ _ c _ _ _ _ _ (inv_empty (c := c)) sequence_compiled_eq). Qed.

Lemma sequence_redefined_eq :
  ParseRule (Some (fun s => s)) StringGrammar.stof StringGrammar.zero_length 6
    "R" "y & z" StringGrammar.sequence_compiled = Ok StringGrammar.sequence_redefined.
Proof. vm_compute. reflexivity. Qed.

(** ** The nodes that a [shared_ptr] holds *)

Lemma owned_without_LNode {Data : Type} (g : Grammar Data) (p : ptr) :
  (forall q c f, deref (store g) q <> Some (LNode c f)) ->
  owned g p -> held (m_pRules g) p.
Proof. intros Hno H. destruct H as [p H|p c f _ H]; [done|]. by apply Hno in H. Qed.


Lemma not_owned_plain {Data : Type} (g : Grammar Data) (q : ptr) :
  Forall (fun n => forall c f, n <> LNode c f) (store g) ->
  q ∉ (map_to_list (m_pRules g)).*2 -> ~ owned g q.
Proof.
  intros Hst Hq H. apply Hq, held_map_to_list, owned_without_LNode; [|done].
  intros [|i] c f Hd; [done|]. cbn [deref] in Hd.
  rewrite Forall_forall in Hst. eapply Hst; [|done].
  by eapply list_elem_of_lookup_2.
Qed.

(** ** The leaves stay as they are *)

Section Leaves.

Context {Data : Type}.
Variable of_token : option (string -> Data).
Variable stof : string -> exn + float.
Variable uninitialised_length : string -> Z.

Implicit Types (g : Grammar Data) (name rule : string).

Lemma keeps_leaves_refl g : keeps_leaves g g.
Proof. by intros p v. Qed.

Lemma keeps_leaves_trans g g1 g2 :
  keeps_leaves g g1 -> keeps_leaves g1 g2 -> keeps_leaves g g2.
Proof. intros H1 H2 p v H. by apply H2, H1. Qed.

Lemma keeps_leaves_store g g' : store g' = store g -> keeps_leaves g g'.
Proof. intros E p v. by rewrite E. Qed.

Lemma subscript_keeps_leaves name g : keeps_leaves g (snd (subscript name g)).
Proof.
  apply keeps_leaves_store. unfold subscript. by destruct (m_pRules g !! name).
Qed.

Lemma make_shared_keeps_leaves (n : Node Data) g : keeps_leaves g (snd (make_shared n g)).
Proof. intros p v H. unfold make_shared. cbn [snd store]. by apply deref_app. Qed.

Lemma install_ptr_keeps_leaves name (p : ptr) g : keeps_leaves g (install_ptr name p g).
Proof.
  unfold install_ptr. destruct (registered name g) eqn:E; [|by apply keeps_leaves_store].
  apply registered_true in E as [old Hold]. intros q v Hq.
  destruct q as [|i]; [done|]. cbn [deref] in *.
  destruct (ChangeRule_cell name p g old i Hold) as [->|[_ ->]]; [done|].
  by rewrite Hq.
Qed.

Lemma install_keeps_leaves name (n : Node Data) g : keeps_leaves g (install name n g).
Proof.
  unfold install. destruct (make_shared n g) as [p g1] eqn:E.
  eapply keeps_leaves_trans; [|apply install_ptr_keeps_leaves].
  pose proof (make_shared_keeps_leaves n g) as H. by rewrite E in H.
Qed.

Lemma AddLeaveNode_keeps_leaves name (w : Data) g : keeps_leaves g (AddLeaveNode name w g).
Proof. intros p v H. unfold AddLeaveNode, make_shared, assign. cbn [store]. by apply deref_app. Qed.

Lemma AddSingleRule_keeps_leaves name rule g g' :
  AddSingleRule of_token name rule g = Ok g' -> keeps_leaves g g'.
Proof.
  unfold AddSingleRule. intros (g1 & Hg1 & H)%bind_Ok_inv.
  assert (H1 : keeps_leaves g g1).
  { destruct (registered rule g); [injection Hg1 as <-; apply keeps_leaves_refl|].
    destruct of_token as [conv|]; [|done]. unfold make_shared, assign in Hg1.
    injection Hg1 as <-. intros p v Hp. cbn [store]. by apply deref_app. }
  pose proof (subscript_keeps_leaves rule g1) as H2.
  destruct (subscript rule g1) as [p g2]. injection H as <-.
  eapply keeps_leaves_trans; [exact H1|].
  eapply keeps_leaves_trans; [exact H2 | apply install_ptr_keeps_leaves].
Qed.

Section Callbacks.

Variable PR : string -> string -> Grammar Data -> res (Grammar Data).
Hypothesis PR_keeps : forall t g g', PR t t g = Ok g' -> keeps_leaves g g'.

Lemma ensure_subscript_keeps_leaves (t : string) g g1 :
  ensure PR t g = Ok g1 -> keeps_leaves g (snd (subscript t g1)).
Proof.
  intros H. eapply keeps_leaves_trans; [|apply subscript_keeps_leaves].
  unfold ensure in H. destruct (registered t g); [|by eapply PR_keeps].
  injection H as <-. apply keeps_leaves_refl.
Qed.

Lemma AddSequenceRule_loop_keeps_leaves (rules : list string) (elements : list ptr) g r :
  AddSequenceRule_loop PR rules elements g = Ok r -> keeps_leaves g (snd r).
Proof.
  revert elements g. induction rules as [|t rest IH]; intros elements g H.
  - injection H as <-. apply keeps_leaves_refl.
  - cbn [AddSequenceRule_loop] in H. apply bind_Ok_inv in H as (g1 & Hg1 & H).
    pose proof (ensure_subscript_keeps_leaves _ _ _ Hg1) as H1.
    destruct (subscript t g1) as [p g2]. eapply keeps_leaves_trans; [exact H1|].
    by eapply IH.
Qed.

Lemma AddSelectorRule_loop_keeps_leaves (rules : list (string * float))
    (options : list (ptr * float)) g r :
  AddSelectorRule_loop PR rules options g = Ok r -> keeps_leaves g (snd r).
Proof.
  revert options g. induction rules as [|t rest IH]; intros options g H.
  - injection H as <-. apply keeps_leaves_refl.
  - cbn [AddSelectorRule_loop] in H. apply bind_Ok_inv in H as (g1 & Hg1 & H).
    pose proof (ensure_subscript_keeps_leaves _ _ _ Hg1) as H1.
    destruct (subscript (fst t) g1) as [p g2]. eapply keeps_leaves_trans; [exact H1|].
    by eapply IH.
Qed.

End Callbacks.

Lemma ParseRule_keeps_leaves (fuel : nat) name rule g g' :
  ParseRule of_token stof uninitialised_length fuel name rule g = Ok g' ->
  keeps_leaves g g'.
Proof.
  revert name rule g g'. induction fuel as [|fuel IH]; intros name rule g g'; [done|].
  assert (HPR : forall t g g',
            ParseRule of_token stof uninitialised_length fuel t t g = Ok g' ->
            keeps_leaves g g') by (intros t g0 g0' H0; exact (IH _ _ _ _ H0)).
  cbn [ParseRule].
  destruct (has rule LND_DEL).
  { unfold ParseLNodeRule. cbv zeta.
    intros (fallbackName & _ & (ruleName & _ & H)%bind_Ok_inv)%bind_Ok_inv.
    unfold AddLNodeRule in H.
    apply bind_Ok_inv in H as (g1 & Hg1 & H).
    apply bind_Ok_inv in H as (g2 & Hg2 & H).
    pose proof (subscript_keeps_leaves ruleName g2) as H3.
    destruct (subscript ruleName g2) as [p g3].
    pose proof (subscript_keeps_leaves fallbackName g3) as H4.
    destruct (subscript fallbackName g3) as [f g4]. injection H as <-.
    assert (H1 : keeps_leaves g g1).
    { unfold ensure in Hg1. destruct (registered ruleName g); [|by eapply HPR].
      injection Hg1 as <-. apply keeps_leaves_refl. }
    assert (H2 : keeps_leaves g1 g2).
    { unfold ensure in Hg2. destruct (registered fallbackName g1); [|by eapply HPR].
      injection Hg2 as <-. apply keeps_leaves_refl. }
    cbn [snd] in *.
    repeat (eapply keeps_leaves_trans; [eassumption|]). apply install_keeps_leaves. }
  destruct (has rule SEQ_DEL).
  { unfold ParseSequenceRule. intros (rules & _ & H)%bind_Ok_inv.
    unfold AddSequenceRule in H. apply bind_Ok_inv in H as (r & Hloop & H).
    injection H as <-.
    eapply keeps_leaves_trans; [by eapply (AddSequenceRule_loop_keeps_leaves _ HPR)|].
    apply install_keeps_leaves. }
  destruct (has rule SEL_DEL).
  { unfold ParseSelectorRule.
    intros (rules & _ & (ws & _ & H)%bind_Ok_inv)%bind_Ok_inv.
    unfold AddSelectorRule in H. apply bind_Ok_inv in H as (r & Hloop & H).
    injection H as <-.
    eapply keeps_leaves_trans; [by eapply (AddSelectorRule_loop_keeps_leaves _ HPR)|].
    apply install_keeps_leaves. }
  destruct (has rule REP_DEL).
  { unfold ParseRepetitionRule. cbv zeta.
    intros (ruleName & _ & (repetitionString & _ & (n & _ & H)%bind_Ok_inv)%bind_Ok_inv)%bind_Ok_inv.
    unfold AddRepetitionRule in H. cbn [fst snd] in H.
    apply bind_Ok_inv in H as (g1 & Hg1 & H).
    pose proof (ensure_subscript_keeps_leaves _ HPR _ _ _ Hg1) as H1.
    destruct (subscript ruleName g1) as [p g2]. injection H as <-.
    eapply keeps_leaves_trans; [exact H1 | apply install_keeps_leaves]. }
  apply AddSingleRule_keeps_leaves.
Qed.

End Leaves.

(** ** The node that a text compiles to *)

Section Uniform.

Context {Data : Type}.
Variable of_token : option (string -> Data).
Variable stof : string -> exn + float.
Variable uninitialised_length : string -> Z.
Variable c : bool.

Implicit Types (g gm : Grammar Data) (n : Node Data) (name rule : string).

Lemma install_uniform rule n g gm0 :
  extends c g gm0 -> Forall (held (m_pRules gm0)) (ptrs_of n) ->
  exists gm p, extends c g gm /\ target_ok c g gm p rule /\
               forall name', install name' n gm0 = install_ptr name' p gm.
Proof.
  intros Hext Hn. exists (snd (make_shared n gm0)), (S (length (store gm0))).
  pose proof (extends_length _ _ Hext) as Hlen.
  split; [|split].
  - eapply extends_trans; [exact Hext|]. apply make_shared_extends; [apply Hext | done].
  - unfold target_ok, make_shared. cbn [snd store m_pRules]. split; [|split].
    + rewrite length_app. simpl. lia.
    + intros _ n0. rewrite deref_fresh. by intros [= <-].
    + left. lia.
  - done.
Qed.

Lemma AddSingleRule_uniform name rule g g' :
  inv c g -> AddSingleRule of_token name rule g = Ok g' ->
  exists gm p, extends c g gm /\ target_ok c g gm p rule /\
               forall name', AddSingleRule of_token name' rule g
                             = Ok (install_ptr name' p gm).
Proof.
  intros Hinv. unfold AddSingleRule. intros (g1 & Hg1 & H)%bind_Ok_inv.
  destruct (registered rule g) eqn:E.
  - injection Hg1 as <-. apply registered_true in E as [p Hp].
    exists g, p. split; [by apply extends_refl|]. split.
    + destruct Hinv as [[Hb1 Hb2] Hc]. split; [by eapply Hb1|]. split; [|by right].
      intros Hct n Hn. eapply (Hc Hct); [by exists rule | done].
    + intros name'. by rewrite bind_Ok, (subscript_Some _ _ _ Hp).
  - apply registered_false in E. destruct of_token as [conv|]; [|done].
    clear Hg1 H g1.
    set (gm0 := snd (make_shared (LeafNode (conv rule)) g)).
    assert (Hext0 : extends c g gm0) by (by apply make_shared_extends).
    assert (Heq : assign rule (S (length (store g))) gm0
                  = install_ptr rule (S (length (store g))) gm0).
    { unfold install_ptr. by rewrite (proj2 (registered_false rule gm0)). }
    assert (Hleaf : deref (store gm0) (S (length (store g))) = Some (LeafNode (conv rule)))
      by apply deref_fresh.
    assert (Hinv1 : inv c (install_ptr rule (S (length (store g))) gm0)).
    { apply install_ptr_inv; [apply Hext0 | |].
      - subst gm0. unfold make_shared. cbn [snd store]. rewrite length_app. simpl. lia.
      - intros _ n. rewrite Hleaf. by intros [= <-]. }
    assert (Hext1 : extends c g (install_ptr rule (S (length (store g))) gm0))
      by (apply install_ptr_extends; try done; [apply Hinv | lia]).
    assert (Hp : m_pRules (install_ptr rule (S (length (store g))) gm0) !! rule
                 = Some (S (length (store g))))
      by (rewrite install_ptr_registry; apply lookup_insert_eq).
    exists (install_ptr rule (S (length (store g))) gm0), (S (length (store g))).
    split; [exact Hext1|]. split.
    + split; [|split].
      * rewrite install_ptr_length. subst gm0. unfold make_shared. cbn [snd store].
        rewrite length_app. simpl. lia.
      * intros _ n Hn.
        assert (Hn' : deref (store (install_ptr rule (S (length (store g))) gm0))
                        (S (length (store g))) = Some (LeafNode (conv rule))).
        { unfold install_ptr. rewrite (proj2 (registered_false rule gm0)) by done.
          exact Hleaf. }
        rewrite Hn' in Hn. by injection Hn as <-.
      * left. lia.
    + intros name'. unfold make_shared. rewrite bind_Ok.
      change (mkGrammar (m_pRules g) (store g ++ [LeafNode (conv rule)])) with gm0.
      rewrite Heq. by rewrite (subscript_Some _ _ _ Hp).
Qed.

(** What [ParseRule] returns is the grammar after the subrules with the
    name pointed at one node, the same whatever the name. *)
Lemma ParseRule_uniform (fuel : nat) name rule g g' :
  inv c g -> ParseRule of_token stof uninitialised_length fuel name rule g = Ok g' ->
  exists gm p, extends c g gm /\ target_ok c g gm p rule /\
               forall name', ParseRule of_token stof uninitialised_length fuel name' rule g
                             = Ok (install_ptr name' p gm).
Proof.
  destruct fuel as [|fuel]; intros Hinv; [done|].
  assert (HPR : nested_ok c (ParseRule of_token stof uninitialised_length fuel)).
  { intros r0 g0 g0' Hinv0 Hnone H0. apply (shape_nested c); try done.
    by eapply ParseRule_shape. }
  cbn [ParseRule].
  destruct (has rule LND_DEL).
  { unfold ParseLNodeRule. cbv zeta.
    intros (fallbackName & Hfn & (ruleName & Hrn & H)%bind_Ok_inv)%bind_Ok_inv.
    unfold AddLNodeRule in H.
    apply bind_Ok_inv in H as (g1 & Hg1 & H).
    apply bind_Ok_inv in H as (g2 & Hg2 & H).
    destruct (ensure_extends c _ HPR _ _ _ Hinv Hg1) as (Hext1 & p & Hp & _).
    destruct (ensure_extends c _ HPR _ _ _ (proj1 Hext1) Hg2) as (Hext2 & f & Hf & _).
    pose proof (lookup_weaken _ _ _ _ Hp (proj1 (proj2 Hext2))) as Hp'.
    destruct (install_uniform rule (LNode p f) g g2) as (gm & q & Hext & Htarget & Hq).
    { by eapply extends_trans. }
    { simpl. repeat constructor; [by exists ruleName | by exists fallbackName]. }
    exists gm, q. split; [done|]. split; [done|]. intros name'.
    rewrite Hfn, bind_Ok, Hrn, bind_Ok. unfold AddLNodeRule.
    rewrite Hg1, bind_Ok, Hg2, bind_Ok.
    rewrite (subscript_Some _ _ _ Hp'), (subscript_Some _ _ _ Hf). by rewrite Hq. }
  destruct (has rule SEQ_DEL).
  { unfold ParseSequenceRule. intros (rules & Hrules & H)%bind_Ok_inv.
    unfold AddSequenceRule in H. apply bind_Ok_inv in H as (r & Hloop & H).
    destruct (AddSequenceRule_loop_extends c _ HPR _ _ _ _ Hinv (Forall_nil_2 _) Hloop)
      as [Hext Hheld].
    destruct (install_uniform rule (SequenceNode (fst r)) g (snd r) Hext Hheld)
      as (gm & q & Hext' & Htarget & Hq).
    exists gm, q. split; [done|]. split; [done|]. intros name'.
    rewrite Hrules, bind_Ok. unfold AddSequenceRule. rewrite Hloop, bind_Ok.
    by rewrite Hq. }
  destruct (has rule SEL_DEL).
  { unfold ParseSelectorRule.
    intros (rules & Hrules & (ws & Hws & H)%bind_Ok_inv)%bind_Ok_inv.
    unfold AddSelectorRule in H. apply bind_Ok_inv in H as (r & Hloop & H).
    destruct (AddSelectorRule_loop_extends c _ HPR ws [] g r Hinv (Forall_nil_2 _) Hloop)
      as [Hext Hheld].
    destruct (install_uniform rule (SelectNode (fst r)) g (snd r) Hext Hheld)
      as (gm & q & Hext' & Htarget & Hq).
    exists gm, q. split; [done|]. split; [done|]. intros name'.
    rewrite Hrules, bind_Ok, Hws, bind_Ok. unfold AddSelectorRule.
    rewrite Hloop, bind_Ok. by rewrite Hq. }
  destruct (has rule REP_DEL).
  { unfold ParseRepetitionRule. cbv zeta.
    intros (ruleName & Hrn & (repetitionString & Hrs & (k & Hk & H)%bind_Ok_inv)%bind_Ok_inv)%bind_Ok_inv.
    unfold AddRepetitionRule in H. apply bind_Ok_inv in H as (g1 & Hg1 & H).
    destruct (ensure_extends c _ HPR _ _ _ Hinv Hg1) as (Hext1 & p & Hp & Hs).
    cbn [fst snd] in *.
    destruct (install_uniform rule (RepetitionNode p k) g g1 Hext1) as (gm & q & Hext' & Htarget & Hq).
    { simpl. repeat constructor. by exists ruleName. }
    exists gm, q. split; [done|]. split; [done|]. intros name'.
    rewrite Hrn, bind_Ok, Hrs, bind_Ok, Hk, bind_Ok. unfold AddRepetitionRule.
    cbn [fst snd]. rewrite Hg1, bind_Ok, Hs. by rewrite Hq. }
  by apply AddSingleRule_uniform.
Qed.

End Uniform.

(** * The claims *)

(** ** C1: a redefinition by text *)

(** C1, at an input where the code and the claim part: ["S"] is compiled
    from ["R & x"], [AddLeaveNode] registers a leaf over ["R"], and ["R"]
    is compiled again, from ["y & z"].  [AddLeaveNode] assigns
    [m_pRules["R"]] without [ChangeRule]: the node of ["S"] keeps its
    plain pointer to the first node of ["R"], which no [shared_ptr] holds
    any more.  The redefinition then rewrites the references to the leaf,
    the node that ["R"] has when it runs, and gives ["R"] the node 7: the
    node of ["S"] still has the children 1 and 2, it does not refer to
    the new node of ["R"], and a generation through ["S"] goes through a
    node that was destroyed. *)
Theorem redefinition_misses_released_node :
  StringGrammar.compile "S" "R & x" empty_grammar = Ok StringGrammar.sequence_compiled /\
  StringGrammar.sequence_leaf_over
  = AddLeaveNode "R" "leaf" StringGrammar.sequence_compiled /\
  StringGrammar.compile "R" "y & z" StringGrammar.sequence_leaf_over
  = Ok StringGrammar.sequence_leaf_redefined /\
  (m_pRules StringGrammar.sequence_leaf_over !! "S" = Some 3%nat /\
   m_pRules StringGrammar.sequence_leaf_over !! "R" = Some 4%nat /\
   deref (store StringGrammar.sequence_leaf_over) 3%nat
   = Some (SequenceNode [1%nat; 2%nat]) /\
   dangling StringGrammar.sequence_leaf_over 3%nat 1%nat) /\
  (m_pRules StringGrammar.sequence_leaf_redefined !! "S" = Some 3%nat /\
   m_pRules StringGrammar.sequence_leaf_redefined !! "R" = Some 7%nat /\
   deref (store StringGrammar.sequence_leaf_redefined) 7%nat
   = Some (SequenceNode [5%nat; 6%nat]) /\
   deref (store StringGrammar.sequence_leaf_redefined) 3%nat
   = Some (SequenceNode [1%nat; 2%nat]) /\
   ~ owned StringGrammar.sequence_leaf_redefined 1%nat).
Proof.
  split; [vm_compute; reflexivity|]. split; [reflexivity|].
  split; [vm_compute; reflexivity|]. split.
  - split; [vm_compute; reflexivity|]. split; [vm_compute; reflexivity|].
    split; [vm_compute; reflexivity|]. split; [|split].
    + apply owned_registry. exists "S". vm_compute. reflexivity.
    + apply not_owned_plain.
      * vm_compute. repeat constructor; discriminate.
      * vm_compute. intros H.
        repeat (apply elem_of_cons in H as [H|H]; [discriminate H|]).
        by apply elem_of_nil in H.
    + exists (SequenceNode [1%nat; 2%nat]). split; [vm_compute; reflexivity|].
      apply elem_of_cons. by left.
  - split; [vm_compute; reflexivity|]. split; [vm_compute; reflexivity|].
    split; [vm_compute; reflexivity|]. split; [vm_compute; reflexivity|].
    apply not_owned_plain.
    + vm_compute. repeat constructor; discriminate.
    + vm_compute. intros H.
      repeat (apply elem_of_cons in H as [H|H]; [discriminate H|]).
      by apply elem_of_nil in H.
Qed.

(** Without the leaf in between, the redefinition reaches the node of
    ["S"]. *)
Example sequence_redefined_store :
  store StringGrammar.sequence_redefined
  = [LeafNode "R"; LeafNode "x"; SequenceNode [6%nat; 2%nat];
     LeafNode "y"; LeafNode "z"; SequenceNode [4%nat; 5%nat]] /\
  m_pRules StringGrammar.sequence_redefined !! "R" = Some 6%nat.
Proof. split; vm_compute; reflexivity. Qed.

(** The sequence ["S"] is compiled once; after ["R"] is compiled again
    under another text, a generation through ["S"] gives the new text of
    ["R"]. *)
Example redefinition_seen_through_sequence :
  (g1 ← StringGrammar.compile "S" "R & x" empty_grammar;
   StringGrammar.generate "S" g1) = Ok ["R"; "x"] /\
  (g1 ← StringGrammar.compile "S" "R & x" empty_grammar;
   g2 ← StringGrammar.compile "R" "y & z" g1;
   StringGrammar.generate "S" g2) = Ok ["y"; "z"; "x"] /\
  (g1 ← StringGrammar.compile "S" "R & x" empty_grammar;
   StringGrammar.generate "R" (AddLeaveNode "R" "leaf" g1)) = Ok ["leaf"].
Proof. repeat split; vm_compute; reflexivity. Qed.

(** ** C2: the operands of a fallback rule *)




(** ** C3: the order of the delimiters *)



(** ** C4: the depth limit of a fallback node *)

(** C4: a fallback node evaluated at a depth strictly below the limit
    evaluates its primary child, one level deeper; at or beyond the limit
    it evaluates its fallback child instead. *)
Theorem LNode_depth_limit {Data : Type} (maxDepth : nat) (samples : nat -> float)
    (fuel : nat) (st : list (Node Data)) (p c f : ptr) (depth : nat)
    (acc : list Data * nat) :
  deref st p = Some (LNode c f) ->
  ((depth < maxDepth)%nat ->
   Parse maxDepth samples (S fuel) st p depth acc
   = Parse maxDepth samples fuel st c (S depth) acc) /\
  ((maxDepth <= depth)%nat ->
   Parse maxDepth samples (S fuel) st p depth acc
   = Parse maxDepth samples fuel st f depth acc).
Proof.
  intros H. cbn [Parse]. rewrite H. split; intros Hd.
  - by rewrite (proj2 (Nat.ltb_lt _ _) Hd).
  - by rewrite (proj2 (Nat.ltb_ge _ _) Hd).
Qed.

Lemma LNode_depth_limit_witness :
  deref [LeafNode "a"; LeafNode "b"; LNode 1%nat 2%nat] 3%nat = Some (LNode 1%nat 2%nat) /\
  Parse 2 (fun _ => float_zero) 2 [LeafNode "a"; LeafNode "b"; LNode 1%nat 2%nat]
    3%nat 1%nat ([], 0%nat) = Ok (["a"], 0%nat) /\
  Parse 2 (fun _ => float_zero) 2 [LeafNode "a"; LeafNode "b"; LNode 1%nat 2%nat]
    3%nat 2%nat ([], 0%nat) = Ok (["b"], 0%nat).
Proof.
  split; [reflexivity|]. split.
  - rewrite (proj1 (LNode_depth_limit 2 (fun _ => float_zero) 1
               [LeafNode "a"; LeafNode "b"; LNode 1%nat 2%nat] 3%nat 1%nat 2%nat 1%nat
               ([], 0%nat) eq_refl) (le_n 2)).
    reflexivity.
  - rewrite (proj2 (LNode_depth_limit 2 (fun _ => float_zero) 1
               [LeafNode "a"; LeafNode "b"; LNode 1%nat 2%nat] 3%nat 1%nat 2%nat 2%nat
               ([], 0%nat) eq_refl) (le_n 2)).
    reflexivity.
Defined.

(** ** C5: the weights of a selector rule *)

(** C5, as the code has it: for a selector rule, [std::stof] is given, of
    each clause in turn, the text up to its first space, the whole clause
    when it has no space.  The first clause on which [stof] throws ends
    the compilation with that exception, the same one for a weight that is
    no number and for a clause without a weight.  When [stof] returns a
    float for every clause, these floats, whatever their sign, are the
    weights of the [SelectNode] that the name gets. *)
Theorem ParseSelectorRule_weights {Data : Type} (of_token : option (string -> Data))
    (stof : string -> exn + float) (uninitialised_length : string -> Z)
    (fuel : nat) (name rule : string) (g : Grammar Data) :
  StdString.fits rule ->
  ~ occurs LND_DEL rule -> ~ occurs SEQ_DEL rule -> occurs SEL_DEL rule ->
  exists clauses, split rule SEL_DEL = Ok clauses /\
    (forall pre clause post e,
       clauses = (pre ++ clause :: post)%list ->
       Forall (fun c => exists w, stof (weight_token c) = inr w) pre ->
       stof (weight_token clause) = inl e ->
       ParseRule of_token stof uninitialised_length (S fuel) name rule g = Throw e) /\
    (forall ws,
       Forall2 (fun c w => stof (weight_token c) = inr w) clauses ws ->
       ParseRule of_token stof uninitialised_length (S fuel) name rule g
       = AddSelectorRule (ParseRule of_token stof uninitialised_length fuel) name
           (zip (rule_token <$> clauses) ws) g /\
       forall g',
         ParseRule of_token stof uninitialised_length (S fuel) name rule g = Ok g' ->
         exists ps : list ptr,
           length ps = length ws /\ node_of g' name = Some (SelectNode (zip ps ws))).
Proof.
  intros Hfit H1 H2 H3.
  destruct (split_shorter rule SEL_DEL) as (clauses & Hsplit & Hsh);
    [done | done | by apply has_true |].
  assert (Hfits : Forall StdString.fits clauses).
  { eapply Forall_impl; [exact Hsh|]. intros c. by apply shorter_fits. }
  exists clauses. split; [done|].
  rewrite ParseRule_Selector by done.
  unfold ParseSelectorRule. rewrite Hsplit, bind_Ok. split.
  - intros pre clause post e -> Hpre He.
    by rewrite (weightedRules_of_Throw stof pre clause post e).
  - intros ws Hws. rewrite (weightedRules_of_Ok stof clauses ws), bind_Ok by done.
    split; [done|]. intros g' H.
    apply AddSelectorRule_shape in H.
    2:{ intros r0 g0 g0' H0.
        exact (ParseRule_frame of_token stof uninitialised_length fuel _ _ _ _ H0). }
    destruct H as (gm & ps & Hlen & ->).
    apply Forall2_length in Hws.
    rewrite snd_zip in * by (rewrite length_fmap; lia).
    rewrite length_zip, length_fmap in Hlen.
    rewrite install_node_of. destruct (m_pRules gm !! name) as [oldNode|].
    + rewrite SwapDependingNode_Select. eexists. split; [|done].
      rewrite length_fmap. lia.
    + exists ps. split; [lia | done].
Qed.

Lemma ParseSelectorRule_weights_witness :
  StdString.fits "0 a | -1 b" /\
  ~ occurs LND_DEL "0 a | -1 b" /\ ~ occurs SEQ_DEL "0 a | -1 b" /\
  occurs SEL_DEL "0 a | -1 b" /\
  exists clauses, split "0 a | -1 b" SEL_DEL = Ok clauses.
Proof.
  assert (Hfit : StdString.fits "0 a | -1 b") by (apply fits_small; simpl; lia).
  assert (H1 : ~ occurs LND_DEL "0 a | -1 b") by (by apply not_occurs).
  assert (H2 : ~ occurs SEQ_DEL "0 a | -1 b") by (by apply not_occurs).
  assert (H3 : occurs SEL_DEL "0 a | -1 b") by (by exists "0 a", "-1 b").
  repeat (split; [assumption|]).
  destruct (ParseSelectorRule_weights (Some (fun s => s)) StringGrammar.stof
              StringGrammar.zero_length 1 "S" "0 a | -1 b" empty_grammar
              Hfit H1 H2 H3) as (clauses & Hsplit & _).
  exists clauses. exact Hsplit.
Defined.

(** C5, as the spec states it, fails: the weights ["0"] and ["-1"] parse
    to values that are not positive and the selector is compiled with
    them; a clause that is one token only is compiled too. *)
Lemma non_positive_weight_counterexample :
  exists w0 w1 g',
    StringGrammar.stof "0" = inr w0 /\ non_positive w0 = true /\
    StringGrammar.stof "-1" = inr w1 /\ non_positive w1 = true /\
    StringGrammar.compile "S" "0 a | -1 b" empty_grammar = Ok g' /\
    node_of g' "S" = Some (SelectNode [(1%nat, w0); (2%nat, w1)]) /\
    succeeds (StringGrammar.compile "S" "3 | 1 b" empty_grammar).
Proof.
  do 3 eexists. repeat split; try (vm_compute; reflexivity).
  eexists. vm_compute. reflexivity.
Qed.

(** ** C6: the count of a repetition rule *)

(** C6, as the code has it: for a repetition rule, the text after the
    first [" # "] is given to [std::stof]; when [stof] throws, the
    compilation ends with that exception; the float it returns otherwise,
    negative or not, is kept in the [RepetitionNode] that the name gets.
    Generation truncates it toward zero to count the evaluations of the
    child. *)
Theorem ParseRepetitionRule_count {Data : Type} (of_token : option (string -> Data))
    (stof : string -> exn + float) (uninitialised_length : string -> Z)
    (fuel : nat) (name rule : string) (g : Grammar Data) :
  StdString.fits rule ->
  ~ occurs LND_DEL rule -> ~ occurs SEQ_DEL rule -> ~ occurs SEL_DEL rule ->
  occurs REP_DEL rule ->
  (forall e, stof (after REP_DEL rule) = inl e ->
     ParseRule of_token stof uninitialised_length (S fuel) name rule g = Throw e) /\
  (forall n, stof (after REP_DEL rule) = inr n ->
     ParseRule of_token stof uninitialised_length (S fuel) name rule g
     = AddRepetitionRule (ParseRule of_token stof uninitialised_length fuel) name
         (before REP_DEL rule, n) g /\
     forall g',
       ParseRule of_token stof uninitialised_length (S fuel) name rule g = Ok g' ->
       exists pN p,
         m_pRules g' !! name = Some pN /\
         deref (store g') pN = Some (RepetitionNode p n) /\
         (forall maxDepth samples fuel' depth acc,
            Parse maxDepth samples (S fuel') (store g') pN depth acc
            = Nat.iter (Z.to_nat (float_to_int n))
                (fun r => r ≫= Parse maxDepth samples fuel' (store g') p depth)
                (Ok acc))).
Proof.
  intros Hfit H1 H2 H3 H4.
  rewrite ParseRule_Repetition by done.
  rewrite ParseRepetitionRule_eq by (by try apply has_true). split.
  - by intros e ->.
  - intros n ->. cbn [lift]. rewrite bind_Ok. split; [done|]. intros g' H.
    apply AddRepetitionRule_shape in H.
    2:{ intros r0 g0 g0' H0.
        exact (ParseRule_frame of_token stof uninitialised_length fuel _ _ _ _ H0). }
    destruct H as (gm & p & _ & _ & ->). cbn [fst snd].
    pose proof (install_node_of name (RepetitionNode p n) gm) as Hnode.
    assert (Hn : exists p', node_of (install name (RepetitionNode p n) gm) name
                            = Some (RepetitionNode p' n)).
    { rewrite Hnode. destruct (m_pRules gm !! name); simpl; eauto. }
    destruct Hn as (p' & (pN & HpN & Hd)%node_of_Some).
    exists pN, p'. repeat split; try done.
    intros. cbn [Parse]. by rewrite Hd.
Qed.

Lemma ParseRepetitionRule_count_witness :
  StdString.fits "a # -2" /\
  ~ occurs LND_DEL "a # -2" /\ ~ occurs SEQ_DEL "a # -2" /\ ~ occurs SEL_DEL "a # -2" /\
  occurs REP_DEL "a # -2" /\
  ParseRule (Some (fun s => s)) StringGrammar.stof StringGrammar.zero_length 2
    "R" "a # -2" empty_grammar
  = AddRepetitionRule
      (ParseRule (Some (fun s => s)) StringGrammar.stof StringGrammar.zero_length 1)
      "R" ("a", S754_finite true 8388608 (-22)) empty_grammar.
Proof.
  assert (Hfit : StdString.fits "a # -2") by (apply fits_small; simpl; lia).
  assert (H1 : ~ occurs LND_DEL "a # -2") by (by apply not_occurs).
  assert (H2 : ~ occurs SEQ_DEL "a # -2") by (by apply not_occurs).
  assert (H3 : ~ occurs SEL_DEL "a # -2") by (by apply not_occurs).
  assert (H4 : occurs REP_DEL "a # -2") by (by exists "a", "-2").
  repeat (split; [assumption|]).
  exact (proj1 (proj2 (ParseRepetitionRule_count (Some (fun s => s)) StringGrammar.stof
                         StringGrammar.zero_length 1 "R" "a # -2" empty_grammar
                         Hfit H1 H2 H3 H4)
                  (S754_finite true 8388608 (-22)) eq_refl)).
Defined.

(** C6, as the spec states it, fails: the count ["-2"] parses to a
    negative value and the repetition is compiled with it. *)
Lemma negative_count_counterexample :
  exists n g',
    StringGrammar.stof "-2" = inr n /\ negative n = true /\
    StringGrammar.compile "R" "a # -2" empty_grammar = Ok g' /\
    node_of g' "R" = Some (RepetitionNode 1%nat n).
Proof.
  do 2 eexists. repeat split; vm_compute; reflexivity.
Qed.

Example float_to_int_truncates :
  (lift (StringGrammar.stof "2.7") ≫= fun x => Ok (float_to_int x)) = Ok 2 /\
  (lift (StringGrammar.stof "-2.7") ≫= fun x => Ok (float_to_int x)) = Ok (-2) /\
  (lift (StringGrammar.stof "0.9") ≫= fun x => Ok (float_to_int x)) = Ok 0 /\
  (lift (StringGrammar.stof "3") ≫= fun x => Ok (float_to_int x)) = Ok 3.
Proof. repeat split; vm_compute; reflexivity. Qed.

(** ** C7: an atomic rule text *)

(** C7: an atomic rule text.  When the token has no entry: with string
    payloads one leaf holding the token is made and registered under the
    token, and the name becomes another name of that leaf; with any other
    payload the compilation throws [Rule404Exception].  When the token has
    an entry, the name becomes another name of the token's node.  No node
    is made for the name itself. *)
Theorem ParseRule_atomic {Data : Type} (of_token : option (string -> Data))
    (stof : string -> exn + float) (uninitialised_length : string -> Z)
    (fuel : nat) (name rule : string) (g : Grammar Data) :
  StdString.fits rule -> atomic rule ->
  (forall conv, of_token = Some conv -> m_pRules g !! rule = None ->
     exists g', ParseRule of_token stof uninitialised_length (S fuel) name rule g = Ok g' /\
       m_pRules g' !! rule = Some (S (length (store g))) /\
       deref (store g') (S (length (store g))) = Some (LeafNode (conv rule)) /\
       m_pRules g' !! name = Some (S (length (store g))) /\
       length (store g') = S (length (store g))) /\
  (of_token = None -> m_pRules g !! rule = None ->
     ParseRule of_token stof uninitialised_length (S fuel) name rule g
     = Throw Rule404Exception) /\
  (forall p, m_pRules g !! rule = Some p ->
     exists g', ParseRule of_token stof uninitialised_length (S fuel) name rule g = Ok g' /\
       m_pRules g' !! rule = Some p /\
       m_pRules g' !! name = Some p /\
       length (store g') = length (store g)).
Proof.
  intros Hfit Hat.
  rewrite ParseRule_Single by done.
  unfold ParseSingleRule, AddSingleRule. repeat split.
  - intros conv -> Hnone. rewrite (proj2 (registered_false _ _) Hnone).
    unfold make_shared, assign. cbn [store m_pRules]. rewrite bind_Ok.
    set (g1 := mkGrammar _ _).
    assert (Hleaf : m_pRules g1 !! rule = Some (S (length (store g))))
      by apply lookup_insert_eq.
    rewrite (subscript_Some _ _ _ Hleaf).
    eexists. split; [done|]. rewrite install_ptr_registry, install_ptr_length.
    repeat split.
    + destruct (decide (name = rule)) as [->|Hne];
        [apply lookup_insert_eq | by rewrite lookup_insert_ne].
    + unfold install_ptr. destruct (registered name g1) eqn:E.
      * apply registered_true in E as [oldNode E].
        destruct (ChangeRule_registered name (S (length (store g))) g1 oldNode E)
          as (_ & _ & Hheld & _).
        cbn [deref]. rewrite Hheld.
        -- subst g1. cbn [store]. by rewrite lookup_app_r, Nat.sub_diag by lia.
        -- exists name. apply lookup_insert_eq.
      * apply deref_fresh.
    + apply lookup_insert_eq.
    + subst g1. cbn [store]. rewrite length_app. simpl. lia.
  - intros -> Hnone. by rewrite (proj2 (registered_false _ _) Hnone).
  - intros p Hp. rewrite (proj2 (registered_true _ _)) by eauto. rewrite bind_Ok.
    rewrite (subscript_Some _ _ _ Hp).
    eexists. split; [done|]. rewrite install_ptr_registry, install_ptr_length.
    repeat split.
    + destruct (decide (name = rule)) as [->|Hne];
        [apply lookup_insert_eq | by rewrite lookup_insert_ne].
    + apply lookup_insert_eq.
Qed.

Lemma ParseRule_atomic_witness :
  StdString.fits "hello" /\ atomic "hello" /\
  exists g', ParseRule (Some (fun s => s)) StringGrammar.stof StringGrammar.zero_length 1
               "greeting" "hello" empty_grammar = Ok g' /\
    m_pRules g' !! "hello" = Some 1%nat /\
    deref (store g') 1%nat = Some (LeafNode "hello") /\
    m_pRules g' !! "greeting" = Some 1%nat /\
    length (store g') = 1%nat.
Proof.
  assert (Hfit : StdString.fits "hello") by (apply fits_small; simpl; lia).
  split; [exact Hfit|]. split; [exact atomic_hello|].
  exact (proj1 (ParseRule_atomic (Some (fun s => s)) StringGrammar.stof
                  StringGrammar.zero_length 0 "greeting" "hello" empty_grammar
                  Hfit atomic_hello) (fun s => s) eq_refl eq_refl).
Defined.

(** ** C8: generation from an unknown name *)

(** C8: [GenerateSequence] on a name that has no entry in the registry
    throws [Rule404Exception].  The lookup comes before any evaluation:
    this is the outcome whatever bound the evaluation is given, also none. *)
Theorem GenerateSequence_unknown {Data : Type} (maxDepth : nat) (samples : nat -> float)
    (fuel : nat) (ruleName : string) (g : Grammar Data) :
  m_pRules g !! ruleName = None ->
  GenerateSequence maxDepth samples fuel ruleName g = Throw Rule404Exception.
Proof.
  intros H. unfold GenerateSequence.
  by rewrite (proj2 (registered_false ruleName g) H).
Qed.

Lemma GenerateSequence_unknown_witness :
  m_pRules (AddLeaveNode "known" 7%nat empty_grammar) !! "unknown" = None /\
  GenerateSequence 4 (fun _ => float_zero) 0 "unknown"
    (AddLeaveNode "known" 7%nat empty_grammar) = Throw Rule404Exception.
Proof.
  split; [reflexivity|]. apply GenerateSequence_unknown. reflexivity.
Defined.

(** ** C9: generation from a leaf *)

(** C9: after [AddLeaveNode N v], and after whatever calls of [ParseRule]
    that return and of [AddLeaveNode] follow under names other than [N],
    [GenerateSequence N] returns the one-element sequence [[v]]: for
    every payload type, whatever the grammar was and whatever [N] had
    before.  The redefinitions of other names run the loop of
    [ChangeRule] over the leaf of [N] and leave it as it is. *)
Theorem AddLeaveNode_GenerateSequence {Data : Type} (of_token : option (string -> Data))
    (stof : string -> exn + float) (uninitialised_length : string -> Z)
    (maxDepth : nat) (samples : nat -> float) (fuel : nat)
    (N : string) (v : Data) (g0 g : Grammar Data) :
  without_redefinition of_token stof uninitialised_length N (AddLeaveNode N v g0) g ->
  GenerateSequence maxDepth samples (S fuel) N g = Ok [v].
Proof.
  intros H.
  assert (Hinv : m_pRules g !! N = Some (S (length (store g0))) /\
                 deref (store g) (S (length (store g0))) = Some (LeafNode v)).
  { induction H as [|fuel' name rule g1 g2 _ [IH1 IH2] Hne Hg2|name w g1 _ [IH1 IH2] Hne].
    - unfold AddLeaveNode, make_shared, assign. cbn [m_pRules store].
      split; [apply lookup_insert_eq | apply deref_fresh].
    - split.
      + by apply (proj2 (ParseRule_frame _ _ _ _ _ _ _ _ Hg2)).
      + by apply (ParseRule_keeps_leaves _ _ _ _ _ _ _ _ Hg2).
    - split.
      + unfold AddLeaveNode, make_shared, assign. cbn [m_pRules].
        by rewrite lookup_insert_ne.
      + by apply AddLeaveNode_keeps_leaves. }
  destruct Hinv as [Hn Hleaf]. unfold GenerateSequence.
  rewrite (proj2 (registered_true N g)) by eauto. cbn [negb].
  rewrite (subscript_Some _ _ _ Hn). cbn [Parse]. by rewrite Hleaf.
Qed.

Lemma AddLeaveNode_GenerateSequence_witness :
  exists g1 g2,
    ParseRule (Some (fun s => s)) StringGrammar.stof StringGrammar.zero_length 6
      "S" "N & x" (AddLeaveNode "N" "v" empty_grammar) = Ok g1 /\
    ParseRule (Some (fun s => s)) StringGrammar.stof StringGrammar.zero_length 6
      "M" "S & N" (AddLeaveNode "M" "m" g1) = Ok g2 /\
    m_pRules g2 !! "M" = Some 5%nat /\
    deref (store g2) 5%nat = Some (SequenceNode [3%nat; 1%nat]) /\
    GenerateSequence 3 (fun _ => float_zero) 1 "N" g2 = Ok ["v"].
Proof.
  destruct (ParseRule (Some (fun s => s)) StringGrammar.stof StringGrammar.zero_length 6
              "S" "N & x" (AddLeaveNode "N" "v" empty_grammar)) as [g1|e| |] eqn:H1;
    try (vm_compute in H1; discriminate).
  destruct (ParseRule (Some (fun s => s)) StringGrammar.stof StringGrammar.zero_length 6
              "M" "S & N" (AddLeaveNode "M" "m" g1)) as [g2|e| |] eqn:H2;
    try (vm_compute in H1; injection H1 as <-; vm_compute in H2; discriminate).
  exists g1, g2. split; [reflexivity|]. split; [exact H2|].
  split; [vm_compute in H1; injection H1 as <-; vm_compute in H2; injection H2 as <-;
          vm_compute; reflexivity|].
  split; [vm_compute in H1; injection H1 as <-; vm_compute in H2; injection H2 as <-;
          vm_compute; reflexivity|].
  apply (AddLeaveNode_GenerateSequence (Some (fun s => s)) StringGrammar.stof
           StringGrammar.zero_length 3 (fun _ => float_zero) 0 "N" "v" empty_grammar g2).
  apply (wr_ParseRule _ _ _ _ _ 6 "M" "S & N" (AddLeaveNode "M" "m" g1) g2);
    [|discriminate|exact H2].
  apply wr_AddLeaveNode; [|discriminate].
  apply (wr_ParseRule _ _ _ _ _ 6 "S" "N & x" (AddLeaveNode "N" "v" empty_grammar) g1);
    [apply wr_now|discriminate|exact H1].
Defined.

(** ** C10: a leaf registered over a name *)

(** C10: [AddLeaveNode] on a registered name gives the name a fresh leaf,
    another node than the old one, leaves the other names as they were
    and leaves every node that another name holds as it was, child
    references included.  It assigns [m_pRules[name]] without
    [ChangeRule].  When another name holds the old node too, the node
    stays owned.  When no other name and no fallback of an [LNode] holds
    it, no [shared_ptr] holds it after the assignment: every node that
    has it as a child then has a plain pointer to a node that was
    destroyed, and does not go on evaluating the old node.  [ChangeRule],
    the path of a redefinition by text, rewrites the nodes that other
    names hold. *)
Theorem AddLeaveNode_keeps_references {Data : Type} (name : string) (v : Data)
    (g : Grammar Data) (oldNode : ptr) (nOld : Node Data) :
  m_pRules g !! name = Some oldNode ->
  deref (store g) oldNode = Some nOld ->
  (m_pRules (AddLeaveNode name v g) !! name = Some (S (length (store g))) /\
   deref (store (AddLeaveNode name v g)) (S (length (store g))) = Some (LeafNode v) /\
   oldNode <> S (length (store g))) /\
  (forall other, other <> name ->
     m_pRules (AddLeaveNode name v g) !! other = m_pRules g !! other) /\
  (forall holder p n, holder <> name -> m_pRules g !! holder = Some p ->
     deref (store g) p = Some n ->
     deref (store (AddLeaveNode name v g)) p = Some n) /\
  (forall other, other <> name -> m_pRules g !! other = Some oldNode ->
     owned (AddLeaveNode name v g) oldNode) /\
  ((forall other, other <> name -> m_pRules g !! other <> Some oldNode) ->
   (forall q c f, deref (store g) q = Some (LNode c f) -> f <> oldNode) ->
   ~ owned (AddLeaveNode name v g) oldNode /\
   forall holder p n, holder <> name -> m_pRules g !! holder = Some p ->
     deref (store g) p = Some n -> oldNode ∈ raw_ptrs_of n ->
     dangling (AddLeaveNode name v g) p oldNode) /\
  (forall newNode holder i n,
     holder <> name -> m_pRules g !! holder = Some (S i) -> store g !! i = Some n ->
     store (ChangeRule name newNode g) !! i = Some (SwapDependingNode oldNode newNode n)).
Proof.
  intros Hold HnOld.
  assert (Hlt : oldNode <> S (length (store g))).
  { intros ->. by rewrite deref_beyond in HnOld by lia. }
  assert (Hreg : forall other, other <> name ->
            m_pRules (AddLeaveNode name v g) !! other = m_pRules g !! other).
  { intros other Hne. unfold AddLeaveNode, make_shared, assign. cbn [m_pRules].
    by rewrite lookup_insert_ne. }
  assert (Hname : m_pRules (AddLeaveNode name v g) !! name = Some (S (length (store g)))).
  { unfold AddLeaveNode, make_shared, assign. cbn [m_pRules]. apply lookup_insert_eq. }
  assert (Hst : forall p n, deref (store g) p = Some n ->
            deref (store (AddLeaveNode name v g)) p = Some n).
  { intros p n Hp. unfold AddLeaveNode, make_shared, assign. cbn [store].
    by apply deref_app. }
  split; [|split; [|split; [|split; [|split]]]].
  - split; [exact Hname|]. split; [|exact Hlt].
    unfold AddLeaveNode, make_shared, assign. cbn [store]. apply deref_fresh.
  - exact Hreg.
  - intros holder p n _ _ Hn. by apply Hst.
  - intros other Hne Hother. apply owned_registry. exists other. by rewrite Hreg.
  - intros Halias Hfb.
    assert (Hnot : ~ owned (AddLeaveNode name v g) oldNode).
    { intros H. inversion H as [p [k Hk]|p c f _ Hp]; subst.
      - destruct (decide (k = name)) as [->|Hne].
        + assert (Some oldNode = Some (S (length (store g)))) as [= E]
            by (rewrite <- Hk; exact Hname).
          done.
        + apply (Halias k Hne). rewrite <- Hk. symmetry. by apply Hreg.
      - unfold AddLeaveNode, make_shared, assign in Hp. cbn [store] in Hp.
        destruct (deref (store g) p) as [n|] eqn:E.
        + rewrite (deref_app _ _ _ _ E) in Hp. injection Hp as ->. by eapply Hfb.
        + destruct p as [|i]; [done|]. cbn [deref] in *.
          apply lookup_app_Some in Hp as [Hp|[_ Hp]]; [congruence|].
          by apply list_lookup_singleton_Some in Hp as [_ ?]. }
    split; [exact Hnot|].
    intros holder p n Hne Hp Hn Hin. split; [|split; [exact Hnot|]].
    + apply owned_registry. exists holder. by rewrite Hreg.
    + exists n. split; [by apply Hst | done].
  - intros newNode holder i n Hne Hh Hn.
    destruct (ChangeRule_registered name newNode g oldNode Hold) as (_ & _ & Hheld & _).
    rewrite Hheld, Hn; [done|].
    exists holder. by rewrite lookup_insert_ne.
Qed.

Lemma AddLeaveNode_keeps_references_witness :
  m_pRules StringGrammar.sequence_compiled !! "R" = Some 1%nat /\
  deref (store StringGrammar.sequence_compiled) 1%nat = Some (LeafNode "R") /\
  m_pRules StringGrammar.sequence_compiled !! "S" = Some 3%nat /\
  deref (store StringGrammar.sequence_compiled) 3%nat
  = Some (SequenceNode [1%nat; 2%nat]) /\
  m_pRules (AddLeaveNode "R" "new" StringGrammar.sequence_compiled) !! "R"
  = Some 4%nat /\
  deref (store (AddLeaveNode "R" "new" StringGrammar.sequence_compiled)) 3%nat
  = Some (SequenceNode [1%nat; 2%nat]) /\
  dangling (AddLeaveNode "R" "new" StringGrammar.sequence_compiled) 3%nat 1%nat.
Proof.
  assert (HR : m_pRules StringGrammar.sequence_compiled !! "R" = Some 1%nat)
    by (vm_compute; reflexivity).
  assert (H1 : deref (store StringGrammar.sequence_compiled) 1%nat = Some (LeafNode "R"))
    by (vm_compute; reflexivity).
  assert (HS : m_pRules StringGrammar.sequence_compiled !! "S" = Some 3%nat)
    by (vm_compute; reflexivity).
  assert (H3 : deref (store StringGrammar.sequence_compiled) 3%nat
               = Some (SequenceNode [1%nat; 2%nat])) by (vm_compute; reflexivity).
  assert (Halias : forall other, other <> "R" ->
            m_pRules StringGrammar.sequence_compiled !! other <> Some 1%nat).
  { intros other Hne Hother. apply elem_of_map_to_list in Hother.
    vm_compute in Hother.
    repeat (apply elem_of_cons in Hother as [Hother|Hother];
            [by simplify_eq|]).
    by apply elem_of_nil in Hother. }
  assert (Hfb : forall (q c f : ptr),
            deref (store StringGrammar.sequence_compiled) q = Some (LNode c f) ->
            f <> 1%nat).
  { intros q c f Hq. by do 4 (destruct q as [|q]; [discriminate Hq|]). }
  destruct (AddLeaveNode_keeps_references "R" "new" StringGrammar.sequence_compiled
              1%nat (LeafNode "R") HR H1) as ((Hnew & _) & _ & Hkeep & _ & Hgone & _).
  split; [exact HR|]. split; [exact H1|]. split; [exact HS|]. split; [exact H3|].
  split; [exact Hnew|]. split.
  - apply (Hkeep "S" 3%nat _ ltac:(discriminate) HS H3).
  - apply (proj2 (Hgone Halias Hfb) "S" 3%nat _ ltac:(discriminate) HS H3).
    apply elem_of_cons. by left.
Defined.

(** * Further properties of the compiler *)

(** ** The pieces of a rule text *)

Section Pieces.

Import StdString.

(** *** More on [find] and on the characters of the delimiter *)

Lemma string_app_assoc (u v w : string) : (u +:+ v) +:+ w = u +:+ (v +:+ w).
Proof. induction u as [|c u IH]; [done|]. rewrite !app_cons. by rewrite IH. Qed.

Lemma drop_app_le (n : nat) (u v : string) :
  (n <= String.length u)%nat -> drop n (u +:+ v) = drop n u +:+ v.
Proof.
  revert u. induction n as [|n IH]; intros u Hn; [done|].
  destruct u as [|c u]; simpl in Hn; [lia|].
  rewrite app_cons. simpl. apply IH. lia.
Qed.

Lemma starts_with_prefix (pat a b : string) :
  (String.length pat <= String.length a)%nat ->
  starts_with pat (a +:+ b) = starts_with pat a.
Proof.
  revert a. induction pat as [|c pat IH]; intros a Hlen.
  - by destruct a.
  - destruct a as [|d a]; simpl in Hlen; [lia|].
    rewrite app_cons. simpl. destruct (Ascii.eqb c d); [|done]. apply IH. lia.
Qed.

Lemma starts_with_mono (pat a b : string) :
  starts_with pat a = true -> starts_with pat (a +:+ b) = true.
Proof.
  intros H. rewrite starts_with_prefix; [done|]. by apply starts_with_length.
Qed.

Lemma find_from_shift (pat s : string) (i : nat) :
  find_from pat s i = (fun j => (i + j)%nat) <$> find_from pat s 0.
Proof.
  revert i. induction s as [|c s IH]; intros i.
  - simpl. destruct (starts_with pat ""); simpl; [f_equal; lia | done].
  - simpl. destruct (starts_with pat (String c s)); simpl; [f_equal; lia|].
    rewrite (IH (S i)), (IH 1%nat). destruct (find_from pat s 0); simpl; [f_equal; lia | done].
Qed.

Lemma find_from_intro (pat s : string) (j : nat) :
  starts_with pat (drop j s) = true ->
  (forall i, (i < j)%nat -> starts_with pat (drop i s) = false) ->
  find_from pat s 0 = Some j.
Proof.
  revert s. induction j as [|j IH]; intros s Hj Hmin.
  - simpl in Hj. destruct s; simpl; simpl in Hj; by rewrite Hj.
  - pose proof (Hmin 0%nat ltac:(lia)) as H0. simpl in H0.
    destruct s as [|c s].
    { simpl in Hj. congruence. }
    simpl. simpl in H0. rewrite H0. rewrite find_from_shift.
    rewrite (IH s); [done | exact Hj |].
    intros i Hi. apply (Hmin (S i)). lia.
Qed.

Lemma find_from_None_intro (pat s : string) (i0 : nat) :
  (forall i, starts_with pat (drop i s) = false) -> find_from pat s i0 = None.
Proof.
  revert i0. induction s as [|c s IH]; intros i0 H.
  - pose proof (H 0%nat) as H0. simpl in H0. simpl. by rewrite H0.
  - pose proof (H 0%nat) as H0. simpl in H0. simpl. rewrite H0.
    apply IH. intros i. apply (H (S i)).
Qed.

Lemma occurs_starts (pat s : string) :
  occurs pat s <-> exists i, starts_with pat (drop i s) = true.
Proof.
  split.
  - intros (u & v & ->). exists (String.length u). rewrite drop_app_length.
    apply starts_with_app. eauto.
  - intros [i [t Ht]%starts_with_app]. exists (take i s), t.
    rewrite <- Ht. symmetry. apply take_drop.
Qed.


(** *** What the splitting loop cuts

    The text from [first], where a character that is none of the
    delimiter's stands, up to the next delimiter or to the end. *)
Lemma piece_clean (rule del : string) (first n : nat) (c : ascii) (s' : string) :
  del <> EmptyString -> drop first rule = String c s' -> mem c del = false ->
  (1 <= n)%nat ->
  (forall t, (first <= t < first + n)%nat -> starts_with del (drop t rule) = false) ->
  clean_token rule del (take n (drop first rule)).
Proof.
  intros Hdel Hd Hm Hn Hmin. split; [|split].
  - rewrite Hd. destruct n as [|n]; [lia|]. simpl. eauto.
  - intros [i Hi]%occurs_starts.
    pose proof (starts_with_length _ _ Hi) as Hlen.
    rewrite length_drop, length_take in Hlen.
    assert (0 < String.length del)%nat by (destruct del; [done | simpl; lia]).
    apply (starts_with_mono _ _ (drop n (drop first rule))) in Hi.
    rewrite <- drop_app_le in Hi by (rewrite length_take; lia).
    rewrite take_drop, drop_drop in Hi.
    rewrite Hmin in Hi; [done | lia].
  - exists (take first rule), (drop n (drop first rule)).
    by rewrite take_drop, take_drop.
Qed.

Lemma split_loop_clean (k : nat) (rule del : string) (last : Z) (acc : list string) :
  fits rule -> del <> EmptyString ->
  (0 <= last <= size rule /\ size rule - last < Z.of_nat k) \/
    (last = SizeT.npos /\ (1 <= k)%nat) ->
  Forall (clean_token rule del) acc ->
  exists toks, split_loop k rule del last acc = Ok toks /\
               Forall (clean_token rule del) toks.
Proof.
  intros Hfit Hdel. revert last acc.
  induction k as [|k IH]; intros last acc Hk Hacc; [lia|].
  cbn [split_loop].
  destruct Hk as [[Hl Hk]|[-> Hk]].
  2:{ rewrite find_first_not_of_npos, Z.eqb_refl by done. eauto. }
  destruct (find_first_not_of_cases rule del last Hfit Hl)
    as [E|(Hf & c & s' & Hd & Hm)].
  { rewrite E, Z.eqb_refl. eauto. }
  set (first := find_first_not_of rule del last) in *.
  pose proof Hfit as Hfit'. unfold fits in Hfit'.
  destruct (Z.eqb_spec first SizeT.npos) as [?|_]; [lia|].
  assert (Hfirst : 0 <= first <= size rule) by lia.
  rewrite (substr_Some rule first _ Hfirst). cbn [of_option]. rewrite bind_Ok.
  pose proof (size_pos del Hdel) as Hdpos.
  pose proof (starts_with_not_mem del c s' Hdel Hm) as Hhead.
  destruct (find_cases rule del first Hfit Hfirst) as [[E Hno]|(Hle & Hlen & Hat & Hno)].
  - rewrite E. apply IH; [right; split; [done | lia]|].
    apply Forall_app. split; [done|]. apply Forall_singleton.
    apply (piece_clean rule del (Z.to_nat first) _ c s'); try done.
    + unfold SizeT.sub. rewrite wrap_small by (rewrite modulus_eq; lia). lia.
    + intros t Ht. apply Hno. lia.
  - set (last' := find rule del first) in *.
    assert (Hlt : first < last').
    { destruct (Z.eq_dec first last') as [Heq|]; [|lia].
      rewrite <- Heq, Hd, Hhead in Hat. done. }
    apply IH; [left; lia|].
    apply Forall_app. split; [done|]. apply Forall_singleton.
    unfold SizeT.sub. rewrite wrap_small by (rewrite modulus_eq; lia).
    apply (piece_clean rule del (Z.to_nat first) _ c s'); try done; [lia|].
    intros t Ht. apply Hno. lia.
Qed.

(** X1: the loop with which [ParseSequenceRule] and [ParseSelectorRule]
    cut a rule text always ends with a list of pieces, [substr] never
    throws in it, and every piece is a part of the text that is not
    empty, starts with no character of the delimiter and does not hold
    the delimiter: delimiters one after the other, and at the ends of
    the text, give no empty piece. *)
Theorem split_pieces (rule del : string) :
  fits rule -> del <> EmptyString ->
  exists toks, split rule del = Ok toks /\ Forall (clean_token rule del) toks.
Proof.
  intros Hfit Hdel. apply split_loop_clean; try done.
  left. unfold size. lia.
Qed.

Lemma split_pieces_witness :
  fits " & a &  & b" /\ SEQ_DEL <> EmptyString /\
  exists toks, split " & a &  & b" SEQ_DEL = Ok toks /\
               Forall (clean_token " & a &  & b" SEQ_DEL) toks.
Proof.
  assert (Hfit : fits " & a &  & b") by (apply fits_small; simpl; lia).
  assert (Hdel : SEQ_DEL <> EmptyString) by done.
  split; [exact Hfit|]. split; [exact Hdel|].
  exact (split_pieces " & a &  & b" SEQ_DEL Hfit Hdel).
Defined.

(** *** Reading back what was written with delimiters *)


Lemma size_append (u v : string) : size (u +:+ v) = size u + size v.
Proof. unfold size. rewrite length_append. lia. Qed.

Lemma find_first_not_of_app (pre x set : string) :
  find_first_not_of (pre +:+ x) set (size pre)
  = to_size_t (first_not_of_from set x (String.length pre)).
Proof.
  unfold find_first_not_of. rewrite size_append.
  pose proof (size_nonneg x).
  destruct (Z.ltb_spec (size pre + size x) (size pre)) as [?|_]; [lia|].
  unfold size. by rewrite Nat2Z.id, drop_app_length.
Qed.

Lemma find_app (pre x pat : string) :
  find (pre +:+ x) pat (size pre) = to_size_t (find_from pat x (String.length pre)).
Proof.
  unfold find. rewrite size_append.
  pose proof (size_nonneg x).
  destruct (Z.ltb_spec (size pre + size x) (size pre)) as [?|_]; [lia|].
  unfold size. by rewrite Nat2Z.id, drop_app_length.
Qed.

Lemma substr_app (pre x : string) (n : Z) :
  substr (pre +:+ x) (size pre) n = Some (take (Z.to_nat (Z.min n (size x))) x).
Proof.
  pose proof (size_nonneg x). pose proof (size_nonneg pre).
  rewrite substr_Some by (rewrite size_append; lia).
  rewrite size_append.
  replace (Z.to_nat (size pre)) with (String.length pre) by (unfold size; lia).
  rewrite drop_app_length. do 3 f_equal. lia.
Qed.

Lemma mem_app_r (c : ascii) (p q : string) : mem c q = true -> mem c (p +:+ q) = true.
Proof.
  intros H. induction p as [|d p IH]; [done|].
  rewrite app_cons. simpl. by destruct (Ascii.eqb c d).
Qed.

Lemma mem_own (p q : string) :
  Forall (fun c => mem c (p +:+ q) = true) (list_ascii_of_string q).
Proof.
  revert p. induction q as [|d q IH]; intros p; [constructor|].
  simpl. constructor.
  - apply mem_app_r. simpl. by rewrite Ascii.eqb_refl.
  - specialize (IH (p +:+ String d EmptyString)).
    by rewrite string_app_assoc in IH.
Qed.

Lemma first_not_of_from_lead (set lead rest : string) (i : nat) :
  Forall (fun c => mem c set = true) (list_ascii_of_string lead) ->
  first_not_of_from set (lead +:+ rest) i
  = first_not_of_from set rest (i + String.length lead).
Proof.
  revert i. induction lead as [|c lead IH]; intros i H.
  - rewrite app_nil. simpl. f_equal. lia.
  - rewrite app_cons. simpl in *. inversion H as [|? ? Hc Hl]; subst.
    rewrite Hc, IH by done. f_equal. lia.
Qed.

Lemma token_find_from (del t rest : string) :
  token_of del t -> find_from del (t +:+ del +:+ rest) 0 = Some (String.length t).
Proof.
  intros [_ H]. apply find_from_Some in H as (_ & _ & _ & Hmin).
  apply find_from_intro.
  - rewrite drop_app_length. apply starts_with_app. eauto.
  - intros i Hi. rewrite <- string_app_assoc.
    rewrite drop_app_le by (rewrite length_append; lia).
    rewrite starts_with_prefix.
    + apply Hmin. lia.
    + rewrite length_drop, length_append. lia.
Qed.

Lemma token_find_from_None (del t : string) (i0 : nat) :
  del <> EmptyString -> token_of del t -> find_from del t i0 = None.
Proof.
  intros Hdel [_ H]. apply find_from_Some in H as (_ & _ & _ & Hmin).
  apply find_from_None_intro. intros i.
  destruct (Nat.lt_ge_cases i (String.length t)) as [Hi|Hi].
  - destruct (starts_with del (drop i t)) eqn:E; [|done].
    apply (starts_with_mono _ _ del) in E.
    rewrite <- drop_app_le in E by lia. rewrite Hmin in E; [done | lia].
  - rewrite drop_all by done. by destruct del.
Qed.

Lemma string_app_nil_r (u : string) : u +:+ EmptyString = u.
Proof. induction u as [|c u IH]; [done|]. by rewrite app_cons, IH. Qed.

Lemma join_cons (del t t2 : string) (ts : list string) :
  join del (t :: t2 :: ts) = t +:+ del +:+ join del (t2 :: ts).
Proof. reflexivity. Qed.

Lemma split_loop_join (del : string) (ts : list string) :
  del <> EmptyString -> Forall (token_of del) ts ->
  forall (k : nat) (pre lead : string) (acc : list string),
    Forall (fun c => mem c del = true) (list_ascii_of_string lead) ->
    fits (pre +:+ lead +:+ join del ts) -> (length ts < k)%nat ->
    split_loop k (pre +:+ lead +:+ join del ts) del (size pre) acc
    = Ok (acc ++ ts)%list.
Proof.
  intros Hdel Hts. induction Hts as [|t ts' Ht Hts' IH]; intros k pre lead acc Hlead Hfit Hk.
  - destruct k as [|k]; [simpl in Hk; lia|]. cbn [split_loop join].
    rewrite find_first_not_of_app, first_not_of_from_lead by done.
    simpl. by rewrite app_nil_r.
  - destruct k as [|k]; [simpl in Hk; lia|]. cbn [split_loop].
    set (J := join del (t :: ts')) in *.
    set (P := pre +:+ lead).
    assert (HJ : exists c J', J = String c J' /\ mem c del = false).
    { destruct Ht as [(c & t' & -> & Hc) _]. subst J.
      destruct ts'; cbn [join]; rewrite ?app_cons; eauto. }
    destruct HJ as (c & J' & HJ & Hc).
    assert (Hfirst : find_first_not_of (pre +:+ lead +:+ J) del (size pre) = size P).
    { rewrite find_first_not_of_app, first_not_of_from_lead by done.
      rewrite HJ. simpl. rewrite Hc. simpl. subst P. unfold size.
      rewrite length_append. lia. }
    rewrite Hfirst. rewrite <- string_app_assoc. fold P.
    pose proof Hfit as Hfit'. rewrite <- string_app_assoc in Hfit'. fold P in Hfit'.
    unfold fits in Hfit'. rewrite size_append in Hfit'.
    pose proof (size_nonneg P) as HP. pose proof (size_nonneg J) as HJ0.
    destruct (Z.eqb_spec (size P) SizeT.npos) as [?|_]; [lia|].
    rewrite find_app, find_from_shift.
    destruct ts' as [|t2 ts''].
    + subst J. change (join del [t]) with t in *.
      rewrite (token_find_from_None del t 0) by done. cbn [fmap option_fmap option_map to_size_t].
      rewrite substr_app. unfold SizeT.sub.
      rewrite (wrap_small (SizeT.npos - size P)) by (rewrite modulus_eq; lia).
      rewrite Z.min_r by lia. rewrite take_all by (unfold size; lia).
      cbn [of_option]. rewrite bind_Ok.
      destruct k as [|k]; [simpl in Hk; lia|]. cbn [split_loop].
      rewrite find_first_not_of_npos, Z.eqb_refl; [done|].
      unfold fits. rewrite size_append. lia.
    + subst J. rewrite join_cons in *.
      rewrite (token_find_from del t _ Ht).
      cbn [fmap option_fmap option_map to_size_t].
      rewrite substr_app. unfold SizeT.sub.
      rewrite !size_append in Hfit'. pose proof (size_nonneg t).
      pose proof (size_nonneg del). pose proof (size_nonneg (join del (t2 :: ts''))).
      replace (Z.of_nat (String.length P + String.length t) - size P) with (size t)
        by (unfold size; lia).
      rewrite wrap_small by (rewrite modulus_eq; lia).
      rewrite Z.min_l by (rewrite !size_append; lia).
      replace (Z.to_nat (size t)) with (String.length t) by (unfold size; lia).
      rewrite take_app_length. cbn [of_option]. rewrite bind_Ok.
      replace (Z.of_nat (String.length P + String.length t)) with (size (P +:+ t))
        by (unfold size; rewrite length_append; lia).
      rewrite <- (string_app_assoc P t).
      rewrite IH.
      * by rewrite <- app_assoc.
      * exact (mem_own EmptyString del).
      * unfold fits. rewrite !size_append. lia.
      * simpl in *. lia.
Qed.

(** X2: pieces written one after the other with the delimiter in between
    are read back by the loop, the same pieces in the same order, when
    each piece starts with a character that is none of the delimiter's
    and the delimiter does not begin inside it. *)
Theorem split_join (del : string) (ts : list string) :
  del <> EmptyString -> Forall (token_of del) ts -> fits (join del ts) ->
  split (join del ts) del = Ok ts.
Proof.
  intros Hdel Hts Hfit. unfold split.
  assert (Hlen : (length ts <= String.length (join del ts))%nat).
  { clear Hfit. induction Hts as [|t ts' Ht _ IH]; [simpl; lia|].
    destruct Ht as [(c & t' & -> & _) _].
    destruct ts' as [|t2 ts'']; [simpl; lia|].
    rewrite join_cons, !length_append.
    change (String.length (String c t')) with (S (String.length t')).
    cbn [length] in *. lia. }
  pose proof (split_loop_join del ts Hdel Hts (S (String.length (join del ts)))
                EmptyString EmptyString []) as H.
  rewrite !app_nil in H. apply H; [constructor | done | lia].
Qed.


Lemma split_join_witness :
  SEQ_DEL <> EmptyString /\ Forall (token_of SEQ_DEL) ["a"; "b c"; "d"] /\
  fits (join SEQ_DEL ["a"; "b c"; "d"]) /\
  split "a & b c & d" SEQ_DEL = Ok ["a"; "b c"; "d"].
Proof.
  assert (Hdel : SEQ_DEL <> EmptyString) by done.
  assert (Hts : Forall (token_of SEQ_DEL) ["a"; "b c"; "d"]).
  { repeat (constructor; [split; [do 2 eexists; split; reflexivity | reflexivity]|]).
    constructor. }
  assert (Hfit : fits (join SEQ_DEL ["a"; "b c"; "d"])) by (apply fits_small; simpl; lia).
  split; [exact Hdel|]. split; [exact Hts|]. split; [exact Hfit|].
  exact (split_join SEQ_DEL ["a"; "b c"; "d"] Hdel Hts Hfit).
Defined.

(** *** The two parts of a selector clause *)

Lemma not_occurs_take (pat s : string) (k : nat) :
  (forall t, (t < k)%nat -> starts_with pat (drop t s) = false) ->
  pat <> EmptyString -> ~ occurs pat (take k s).
Proof.
  intros Hmin Hpat [i Hi]%occurs_starts.
  pose proof (starts_with_length _ _ Hi) as Hlen.
  rewrite length_drop, length_take in Hlen.
  assert (0 < String.length pat)%nat by (destruct pat; [done | simpl; lia]).
  apply (starts_with_mono _ _ (drop k s)) in Hi.
  rewrite <- drop_app_le in Hi by (rewrite length_take; lia).
  rewrite take_drop in Hi. rewrite Hmin in Hi; [done | lia].
Qed.

(** X3: every clause that [ParseSelectorRule] cuts from a selector text
    is read as a weight and a rule name around its first space: the text
    given to [stof] is not empty and holds no space, the rule name is
    all that follows the space, and a clause without a space is both its
    own weight and its own rule name. *)
Theorem selector_clause_parts (stof : string -> exn + float)
    (rule : string) (clauses : list string) :
  fits rule -> split rule SEL_DEL = Ok clauses ->
  Forall (fun c =>
            weight_token c <> EmptyString /\
            ~ occurs " " (weight_token c) /\
            (c = weight_token c /\ rule_token c = c \/
             c = weight_token c +:+ " " +:+ rule_token c) /\
            weightedRule_of stof c
            = (lift (stof (weight_token c)) ≫= fun weight =>
               Ok (rule_token c, weight))) clauses.
Proof.
  intros Hfit Hsplit.
  destruct (split_loop_clean (S (String.length rule)) rule SEL_DEL 0 [] Hfit)
    as (toks & Htoks & Hclean); [done | left; unfold size; lia | constructor |].
  unfold split in Hsplit. rewrite Hsplit in Htoks. injection Htoks as <-.
  eapply Forall_impl; [exact Hclean|].
  intros c ((ch & t' & -> & Hch) & _ & Hocc).
  assert (Hfitc : fits (String ch t')).
  { destruct Hocc as (u & v & ->). unfold fits, size in *.
    rewrite !length_append in Hfit. lia. }
  assert (Hhead : starts_with " " (String ch t') = false).
  { cbn [starts_with]. destruct (Ascii.eqb_spec " " ch) as [<-|]; [|done].
    by vm_compute in Hch. }
  split; [|split; [|split; [|by apply weightedRule_of_eq]]];
    unfold weight_token, rule_token;
    destruct (find_from " " (String ch t') 0) as [k|] eqn:E.
  - apply find_from_Some in E as (_ & _ & Hk & _).
    destruct k as [|k]; [|done]. cbn [drop Nat.sub] in Hk. congruence.
  - done.
  - apply find_from_Some in E as (_ & _ & _ & Hmin).
    apply not_occurs_take; [|done]. intros t Ht. apply Hmin. lia.
  - intros [i Hi]%occurs_starts. by rewrite (find_from_None _ _ _ E) in Hi.
  - right. apply find_from_Some in E as (_ & _ & Hk & _).
    rewrite Nat.sub_0_r in Hk. apply starts_with_app in Hk as [rest Hk].
    rewrite <- (take_drop k (String ch t')) at 1. f_equal.
    rewrite Hk. by rewrite (drop_S _ _ _ _ Hk).
  - by left.
Qed.

Lemma selector_clause_parts_witness :
  fits "1 a | 2.5 b c | 7" /\
  split "1 a | 2.5 b c | 7" SEL_DEL = Ok ["1 a"; "2.5 b c"; "7"] /\
  Forall (fun c => weight_token c <> EmptyString /\ ~ occurs " " (weight_token c))
    ["1 a"; "2.5 b c"; "7"].
Proof.
  assert (Hfit : fits "1 a | 2.5 b c | 7") by (apply fits_small; simpl; lia).
  assert (Hsplit : split "1 a | 2.5 b c | 7" SEL_DEL = Ok ["1 a"; "2.5 b c"; "7"])
    by (vm_compute; reflexivity).
  split; [exact Hfit|]. split; [exact Hsplit|].
  eapply Forall_impl;
    [exact (selector_clause_parts StringGrammar.stof _ _ Hfit Hsplit)|].
  intros c (H1 & H2 & _). by split.
Defined.

End Pieces.

(** ** Rules over names that are registered

    The leaves of a grammar whose payload is no string can only be made
    by [AddLeaveNode]; the rule texts compiled afterwards name them. *)

Section OverRegistered.

Context {Data : Type}.
Variable of_token : option (string -> Data).
Variable stof : string -> exn + float.
Variable uninitialised_length : string -> Z.

Implicit Types (g : Grammar Data) (name rule : string).

Lemma ensure_registered (PR : string -> string -> Grammar Data -> res (Grammar Data))
    rule g (p : ptr) :
  m_pRules g !! rule = Some p -> ensure PR rule g = Ok g.
Proof. intros H. unfold ensure. by rewrite (proj2 (registered_true rule g)) by eauto. Qed.

Lemma AddSequenceRule_loop_registered
    (PR : string -> string -> Grammar Data -> res (Grammar Data))
    (toks : list string) (ps elements : list ptr) g :
  Forall2 (fun t (p : ptr) => m_pRules g !! t = Some p) toks ps ->
  AddSequenceRule_loop PR toks elements g = Ok ((elements ++ ps)%list, g).
Proof.
  intros H. revert elements. induction H as [|t p toks ps Hp _ IH]; intros elements.
  - simpl. by rewrite app_nil_r.
  - cbn [AddSequenceRule_loop]. rewrite (ensure_registered _ _ _ _ Hp), bind_Ok.
    rewrite (subscript_Some _ _ _ Hp), IH. by rewrite <- app_assoc.
Qed.

Lemma AddSelectorRule_loop_registered
    (PR : string -> string -> Grammar Data -> res (Grammar Data))
    (rules : list (string * float)) (ps : list ptr) (options : list (ptr * float)) g :
  Forall2 (fun r (p : ptr) => m_pRules g !! fst r = Some p) rules ps ->
  AddSelectorRule_loop PR rules options g = Ok ((options ++ zip ps (rules.*2))%list, g).
Proof.
  intros H. revert options. induction H as [|r p rules ps Hp _ IH]; intros options.
  - simpl. by rewrite app_nil_r.
  - cbn [AddSelectorRule_loop]. rewrite (ensure_registered _ _ _ _ Hp), bind_Ok.
    rewrite (subscript_Some _ _ _ Hp), IH. simpl. by rewrite <- app_assoc.
Qed.

(** X4: a sequence text over names that are all registered, compiled
    under a name that is new, adds one node and one name and changes
    nothing else: the node is a [SequenceNode] over the nodes of the
    names, in the order of the text. *)
Theorem sequence_of_registered (fuel : nat) name rule g
    (toks : list string) (ps : list ptr) :
  StdString.fits rule -> ~ occurs LND_DEL rule -> occurs SEQ_DEL rule ->
  split rule SEQ_DEL = Ok toks ->
  Forall2 (fun t (p : ptr) => m_pRules g !! t = Some p) toks ps ->
  m_pRules g !! name = None ->
  ParseRule of_token stof uninitialised_length (S fuel) name rule g
  = Ok (mkGrammar (<[name := S (length (store g))]> (m_pRules g))
          (store g ++ [SequenceNode ps])).
Proof.
  intros Hfit Hl Hs Hsplit Hps Hn.
  rewrite ParseRule_Sequence by done. unfold ParseSequenceRule.
  rewrite Hsplit, bind_Ok. unfold AddSequenceRule.
  rewrite (AddSequenceRule_loop_registered _ _ _ _ _ Hps), bind_Ok.
  cbn [fst snd app]. by rewrite install_fresh.
Qed.

(** X5: a selector text over names that are all registered, compiled
    under a name that is new, adds one node and one name and changes
    nothing else: the node is a [SelectNode] whose options are the nodes
    of the rule names with the weights that [stof] read, in the order of
    the text. *)
Theorem selector_of_registered (fuel : nat) name rule g
    (clauses : list string) (ws : list float) (ps : list ptr) :
  StdString.fits rule ->
  ~ occurs LND_DEL rule -> ~ occurs SEQ_DEL rule -> occurs SEL_DEL rule ->
  split rule SEL_DEL = Ok clauses ->
  Forall2 (fun c w => stof (weight_token c) = inr w) clauses ws ->
  Forall2 (fun c (p : ptr) => m_pRules g !! rule_token c = Some p) clauses ps ->
  m_pRules g !! name = None ->
  ParseRule of_token stof uninitialised_length (S fuel) name rule g
  = Ok (mkGrammar (<[name := S (length (store g))]> (m_pRules g))
          (store g ++ [SelectNode (zip ps ws)])).
Proof.
  intros Hfit Hl Hq Hs Hsplit Hws Hps Hn.
  rewrite ParseRule_Selector by done. unfold ParseSelectorRule.
  rewrite Hsplit, bind_Ok.
  assert (Hfits : Forall StdString.fits clauses).
  { destruct (split_shorter rule SEL_DEL Hfit ltac:(done) (has_true _ _ Hfit Hs))
      as (toks & Htoks & Hshort).
    rewrite Hsplit in Htoks. injection Htoks as <-.
    eapply Forall_impl; [exact Hshort|]. intros t. by apply shorter_fits. }
  rewrite (weightedRules_of_Ok stof clauses ws Hfits Hws), bind_Ok.
  pose proof (Forall2_length _ _ _ Hws) as Hlw.
  pose proof (Forall2_length _ _ _ Hps) as Hlp.
  unfold AddSelectorRule.
  rewrite (AddSelectorRule_loop_registered _ _ ps).
  - rewrite bind_Ok. cbn [fst snd app]. rewrite install_fresh by done.
    by rewrite snd_zip by (rewrite length_fmap; lia).
  - clear -Hps Hws. revert ws Hws.
    induction Hps as [|c p clauses ps Hp _ IH]; intros ws Hws.
    + inversion Hws. constructor.
    + inversion Hws as [|? w ? ws' _ Hws']; subst. simpl. constructor; [done|].
      by apply IH.
Qed.

(** X6: a repetition text over a name that is registered, compiled
    under a name that is new, adds one node and one name and changes
    nothing else: the node is a [RepetitionNode] of the node of the text
    before the delimiter, with the count that [stof] read in the text
    after it. *)
Theorem repetition_of_registered (fuel : nat) name rule g (n : float) (p : ptr) :
  StdString.fits rule ->
  ~ occurs LND_DEL rule -> ~ occurs SEQ_DEL rule -> ~ occurs SEL_DEL rule ->
  occurs REP_DEL rule ->
  stof (after REP_DEL rule) = inr n ->
  m_pRules g !! before REP_DEL rule = Some p ->
  m_pRules g !! name = None ->
  ParseRule of_token stof uninitialised_length (S fuel) name rule g
  = Ok (mkGrammar (<[name := S (length (store g))]> (m_pRules g))
          (store g ++ [RepetitionNode p n])).
Proof.
  intros Hfit Hl Hq Hs Hr Hn Hp Hname.
  rewrite ParseRule_Repetition by done.
  rewrite ParseRepetitionRule_eq by (by try apply has_true).
  rewrite Hn. cbn [lift]. rewrite bind_Ok. unfold AddRepetitionRule. cbn [fst snd].
  rewrite (ensure_registered _ _ _ _ Hp), bind_Ok, (subscript_Some _ _ _ Hp).
  by rewrite install_fresh.
Qed.

(** X7: a sequence text over registered names, compiled under a name
    that is registered, gives the name a new [SequenceNode] in which the
    node that the name had is replaced by the new node: [ChangeRule]
    visits the new node too.  A sequence that names the rule it
    redefines has itself among its elements. *)
Theorem sequence_names_itself (fuel : nat) name rule g
    (toks : list string) (ps : list ptr) (oldNode : ptr) :
  StdString.fits rule -> ~ occurs LND_DEL rule -> occurs SEQ_DEL rule ->
  split rule SEQ_DEL = Ok toks ->
  Forall2 (fun t (p : ptr) => m_pRules g !! t = Some p) toks ps ->
  m_pRules g !! name = Some oldNode ->
  exists g',
    ParseRule of_token stof uninitialised_length (S fuel) name rule g = Ok g' /\
    m_pRules g' !! name = Some (S (length (store g))) /\
    deref (store g') (S (length (store g)))
    = Some (SequenceNode (swap_ptr oldNode (S (length (store g))) <$> ps)) /\
    (name ∈ toks ->
     S (length (store g)) ∈ (swap_ptr oldNode (S (length (store g))) <$> ps)).
Proof.
  intros Hfit Hl Hs Hsplit Hps Hn.
  exists (install name (SequenceNode ps) g).
  split; [|split; [|split]].
  - rewrite ParseRule_Sequence by done. unfold ParseSequenceRule.
    rewrite Hsplit, bind_Ok. unfold AddSequenceRule.
    by rewrite (AddSequenceRule_loop_registered _ _ _ _ _ Hps), bind_Ok.
  - exact (proj1 (install_frame name (SequenceNode ps) g)).
  - pose proof (install_node_of name (SequenceNode ps) g) as H.
    rewrite Hn in H. apply node_of_Some in H as (q & Hq & H).
    assert (Some q = Some (S (length (store g)))) as [= ->]
      by (rewrite <- Hq; exact (proj1 (install_frame name (SequenceNode ps) g))).
    exact H.
  - intros [i Hi]%list_elem_of_lookup.
    destruct (Forall2_lookup_l _ _ _ _ _ Hps Hi) as (p & Hp & Hgp).
    assert (p = oldNode) as -> by congruence.
    apply list_elem_of_fmap. exists oldNode. split.
    + unfold swap_ptr. by rewrite decide_True.
    + apply list_elem_of_lookup. eauto.
Qed.

End OverRegistered.

Lemma sequence_of_registered_witness :
  ParseRule None StringGrammar.stof StringGrammar.zero_length 1 "S" "a & b & a"
    (AddLeaveNode "b" 20%nat (AddLeaveNode "a" 10%nat empty_grammar))
  = Ok (mkGrammar
          (<["S" := 3%nat]>
             (m_pRules (AddLeaveNode "b" 20%nat (AddLeaveNode "a" 10%nat empty_grammar))))
          [LeafNode 10%nat; LeafNode 20%nat; SequenceNode [1%nat; 2%nat; 1%nat]]).
Proof.
  assert (Hfit : StdString.fits "a & b & a") by (apply fits_small; simpl; lia).
  assert (H1 : ~ occurs LND_DEL "a & b & a") by (by apply not_occurs).
  assert (H2 : occurs SEQ_DEL "a & b & a") by (by exists "a", "b & a").
  assert (H3 : split "a & b & a" SEQ_DEL = Ok ["a"; "b"; "a"]) by (vm_compute; reflexivity).
  assert (H4 : Forall2 (fun t (p : ptr) =>
                 m_pRules (AddLeaveNode "b" 20%nat (AddLeaveNode "a" 10%nat empty_grammar))
                   !! t = Some p) ["a"; "b"; "a"] [1%nat; 2%nat; 1%nat]).
  { repeat (constructor; [vm_compute; reflexivity|]). constructor. }
  exact (sequence_of_registered None StringGrammar.stof StringGrammar.zero_length 0
           "S" "a & b & a" _ ["a"; "b"; "a"] [1%nat; 2%nat; 1%nat]
           Hfit H1 H2 H3 H4 eq_refl).
Defined.

Lemma selector_of_registered_witness :
  ParseRule None StringGrammar.stof StringGrammar.zero_length 1 "S" "1 a | 3 b"
    (AddLeaveNode "b" 20%nat (AddLeaveNode "a" 10%nat empty_grammar))
  = Ok (mkGrammar
          (<["S" := 3%nat]>
             (m_pRules (AddLeaveNode "b" 20%nat (AddLeaveNode "a" 10%nat empty_grammar))))
          [LeafNode 10%nat; LeafNode 20%nat;
           SelectNode [(1%nat, float_of_Z 1); (2%nat, float_of_Z 3)]]).
Proof.
  assert (Hfit : StdString.fits "1 a | 3 b") by (apply fits_small; simpl; lia).
  assert (H1 : ~ occurs LND_DEL "1 a | 3 b") by (by apply not_occurs).
  assert (H2 : ~ occurs SEQ_DEL "1 a | 3 b") by (by apply not_occurs).
  assert (H3 : occurs SEL_DEL "1 a | 3 b") by (by exists "1 a", "3 b").
  assert (H4 : split "1 a | 3 b" SEL_DEL = Ok ["1 a"; "3 b"]) by (vm_compute; reflexivity).
  assert (H5 : Forall2 (fun c w => StringGrammar.stof (weight_token c) = inr w)
                 ["1 a"; "3 b"] [float_of_Z 1; float_of_Z 3]).
  { repeat (constructor; [vm_compute; reflexivity|]). constructor. }
  assert (H6 : Forall2 (fun c (p : ptr) =>
                 m_pRules (AddLeaveNode "b" 20%nat (AddLeaveNode "a" 10%nat empty_grammar))
                   !! rule_token c = Some p) ["1 a"; "3 b"] [1%nat; 2%nat]).
  { repeat (constructor; [vm_compute; reflexivity|]). constructor. }
  exact (selector_of_registered None StringGrammar.stof StringGrammar.zero_length 0
           "S" "1 a | 3 b" _ ["1 a"; "3 b"] [float_of_Z 1; float_of_Z 3]
           [1%nat; 2%nat] Hfit H1 H2 H3 H4 H5 H6 eq_refl).
Defined.

Lemma repetition_of_registered_witness :
  ParseRule None StringGrammar.stof StringGrammar.zero_length 1 "R" "a # 3"
    (AddLeaveNode "a" 10%nat empty_grammar)
  = Ok (mkGrammar
          (<["R" := 2%nat]> (m_pRules (AddLeaveNode "a" 10%nat empty_grammar)))
          [LeafNode 10%nat; RepetitionNode 1%nat (float_of_Z 3)]).
Proof.
  assert (Hfit : StdString.fits "a # 3") by (apply fits_small; simpl; lia).
  assert (H1 : ~ occurs LND_DEL "a # 3") by (by apply not_occurs).
  assert (H2 : ~ occurs SEQ_DEL "a # 3") by (by apply not_occurs).
  assert (H3 : ~ occurs SEL_DEL "a # 3") by (by apply not_occurs).
  assert (H4 : occurs REP_DEL "a # 3") by (by exists "a", "3").
  assert (H5 : StringGrammar.stof (after REP_DEL "a # 3") = inr (float_of_Z 3))
    by (vm_compute; reflexivity).
  assert (H6 : m_pRules (AddLeaveNode "a" 10%nat empty_grammar) !! before REP_DEL "a # 3"
               = Some 1%nat) by (vm_compute; reflexivity).
  exact (repetition_of_registered None StringGrammar.stof StringGrammar.zero_length 0
           "R" "a # 3" _ (float_of_Z 3) 1%nat Hfit H1 H2 H3 H4 H5 H6 eq_refl).
Defined.

Lemma sequence_names_itself_witness :
  exists g',
    ParseRule None StringGrammar.stof StringGrammar.zero_length 1 "T" "a & T"
      (AddLeaveNode "T" 7%nat (AddLeaveNode "a" 10%nat empty_grammar)) = Ok g' /\
    m_pRules g' !! "T" = Some 3%nat /\
    deref (store g') 3%nat = Some (SequenceNode [1%nat; 3%nat]).
Proof.
  assert (Hfit : StdString.fits "a & T") by (apply fits_small; simpl; lia).
  assert (H1 : ~ occurs LND_DEL "a & T") by (by apply not_occurs).
  assert (H2 : occurs SEQ_DEL "a & T") by (by exists "a", "T").
  assert (H3 : split "a & T" SEQ_DEL = Ok ["a"; "T"]) by (vm_compute; reflexivity).
  assert (H4 : Forall2 (fun t (p : ptr) =>
                 m_pRules (AddLeaveNode "T" 7%nat (AddLeaveNode "a" 10%nat empty_grammar))
                   !! t = Some p) ["a"; "T"] [1%nat; 2%nat]).
  { repeat (constructor; [vm_compute; reflexivity|]). constructor. }
  destruct (sequence_names_itself None StringGrammar.stof StringGrammar.zero_length 0
              "T" "a & T" _ ["a"; "T"] [1%nat; 2%nat] 2%nat Hfit H1 H2 H3 H4 eq_refl)
    as (g' & Hg' & Hname & Hnode & _).
  exists g'. split; [exact Hg'|]. split; [exact Hname | exact Hnode].
Defined.

(** ** The registry after a compilation *)

(** X8: a compilation that returns leaves the name it was given
    registered, unregisters no name, and leaves every other name on the
    node it had. *)
Theorem ParseRule_registers {Data : Type} (of_token : option (string -> Data))
    (stof : string -> exn + float) (uninitialised_length : string -> Z)
    (fuel : nat) (name rule : string) (g g' : Grammar Data) :
  ParseRule of_token stof uninitialised_length fuel name rule g = Ok g' ->
  registered name g' = true /\
  (forall other, registered other g = true -> registered other g' = true) /\
  (forall other (p : ptr), other <> name ->
     m_pRules g !! other = Some p -> m_pRules g' !! other = Some p).
Proof.
  intros H. destruct (ParseRule_frame _ _ _ _ _ _ _ _ H) as [Hn Hk].
  split; [by apply registered_true|]. split; [|exact Hk].
  intros other [p Hp]%registered_true. apply registered_true.
  destruct (decide (other = name)) as [->|Hne]; [done|]. eauto.
Qed.

Lemma ParseRule_registers_witness :
  StringGrammar.compile "S" "R & x" empty_grammar = Ok StringGrammar.sequence_compiled /\
  registered "S" StringGrammar.sequence_compiled = true.
Proof.
  split; [exact sequence_compiled_eq|].
  exact (proj1 (ParseRule_registers (Some (fun s => s)) StringGrammar.stof
                  StringGrammar.zero_length 6 "S" "R & x" empty_grammar
                  StringGrammar.sequence_compiled sequence_compiled_eq)).
Defined.

Section AfterCompiling.

Context {Data : Type}.
Variable of_token : option (string -> Data).
Variable stof : string -> exn + float.
Variable uninitialised_length : string -> Z.

Implicit Types (g : Grammar Data) (name rule : string).

Section Callbacks.

Variable PR : string -> string -> Grammar Data -> res (Grammar Data).

Hypothesis PR_frame : forall rule g g',
  PR rule rule g = Ok g' ->
  is_Some (m_pRules g' !! rule) /\
  forall k q, k <> rule -> m_pRules g !! k = Some q -> m_pRules g' !! k = Some q.

Lemma AddSequenceRule_loop_interns (rules : list string) (elements : list ptr) g r :
  AddSequenceRule_loop PR rules elements g = Ok r ->
  Forall (fun t => is_Some (m_pRules (snd r) !! t)) rules.
Proof.
  revert elements g. induction rules as [|rule rest IH]; intros elements g H; [constructor|].
  cbn [AddSequenceRule_loop] in H.
  apply bind_Ok_inv in H as (g1 & (p & Hp & Hs & _)%(ensure_subscript PR PR_frame) & H).
  rewrite Hs in H. constructor; [|by eapply IH].
  apply (AddSequenceRule_loop_frame PR PR_frame) in H.
  exists p. by eapply lookup_weaken.
Qed.

Lemma AddSelectorRule_loop_interns (rules : list (string * float))
    (options : list (ptr * float)) g r :
  AddSelectorRule_loop PR rules options g = Ok r ->
  Forall (fun t => is_Some (m_pRules (snd r) !! t)) (rules.*1).
Proof.
  revert options g. induction rules as [|rule rest IH]; intros options g H; [constructor|].
  cbn [AddSelectorRule_loop] in H.
  apply bind_Ok_inv in H as (g1 & (p & Hp & Hs & _)%(ensure_subscript PR PR_frame) & H).
  rewrite Hs in H. simpl. constructor; [|by eapply IH].
  apply (AddSelectorRule_loop_frame PR PR_frame) in H as [H _].
  exists p. by eapply lookup_weaken.
Qed.

End Callbacks.

Lemma install_keeps name (n : Node Data) g (t : string) :
  is_Some (m_pRules g !! t) -> registered t (install name n g) = true.
Proof.
  intros [p Hp]. apply registered_true. rewrite install_registry.
  destruct (decide (name = t)) as [->|Hne].
  - rewrite lookup_insert_eq. eauto.
  - rewrite lookup_insert_ne by done. eauto.
Qed.

Lemma weightedRules_of_names (clauses : list string) (ws : list (string * float)) :
  Forall StdString.fits clauses ->
  weightedRules_of stof clauses = Ok ws -> ws.*1 = rule_token <$> clauses.
Proof.
  intros Hfit. revert ws. induction Hfit as [|c clauses Hc _ IH]; intros ws H.
  - by injection H as <-.
  - cbn [weightedRules_of] in H. rewrite weightedRule_of_eq in H by done.
    apply bind_Ok_inv in H as (w & Hw & H).
    apply bind_Ok_inv in Hw as (x & _ & Hw). injection Hw as <-.
    apply bind_Ok_inv in H as (ws' & Hws' & H). injection H as <-.
    simpl. f_equal. by apply IH.
Qed.

(** X9: after a compilation that returns, every subrule that the text
    names is itself a registered name: both operands of [" -> "], every
    piece of a sequence, the rule name of every selector clause, and the
    text before [" # "]. *)
Theorem subrules_registered (fuel : nat) name rule g g' :
  StdString.fits rule ->
  ParseRule of_token stof uninitialised_length (S fuel) name rule g = Ok g' ->
  (occurs LND_DEL rule ->
   registered (before LND_DEL rule) g' = true /\
   registered (LNode_ruleName uninitialised_length rule) g' = true) /\
  (~ occurs LND_DEL rule -> occurs SEQ_DEL rule ->
   exists toks, split rule SEQ_DEL = Ok toks /\
                Forall (fun t => registered t g' = true) toks) /\
  (~ occurs LND_DEL rule -> ~ occurs SEQ_DEL rule -> occurs SEL_DEL rule ->
   exists clauses, split rule SEL_DEL = Ok clauses /\
                   Forall (fun c => registered (rule_token c) g' = true) clauses) /\
  (~ occurs LND_DEL rule -> ~ occurs SEQ_DEL rule -> ~ occurs SEL_DEL rule ->
   occurs REP_DEL rule -> registered (before REP_DEL rule) g' = true).
Proof.
  intros Hfit H.
  pose proof (ParseRule_frame of_token stof uninitialised_length fuel) as HPR.
  assert (HPR' : forall rule g g',
            ParseRule of_token stof uninitialised_length fuel rule rule g = Ok g' ->
            is_Some (m_pRules g' !! rule) /\
            forall k q, k <> rule -> m_pRules g !! k = Some q -> m_pRules g' !! k = Some q)
    by (intros r0 g0 g0' H0; exact (HPR _ _ _ _ H0)).
  split; [|split; [|split]].
  - intros Hl. rewrite ParseRule_LNode in H by done.
    rewrite ParseLNodeRule_eq in H by (by try apply has_true).
    apply (AddLNodeRule_shape _ HPR') in H as (g1 & gm & p & f & _ & _ & Hp & Hf & ->).
    split; apply install_keeps; [by exists f | by exists p].
  - intros Hl Hs. rewrite ParseRule_Sequence in H by done.
    unfold ParseSequenceRule in H. apply bind_Ok_inv in H as (toks & Hsplit & H).
    exists toks. split; [done|].
    unfold AddSequenceRule in H. apply bind_Ok_inv in H as (r & Hloop & H).
    injection H as <-.
    apply (AddSequenceRule_loop_interns _ HPR') in Hloop.
    eapply Forall_impl; [exact Hloop|]. intros t. apply install_keeps.
  - intros Hl Hq Hs. rewrite ParseRule_Selector in H by done.
    unfold ParseSelectorRule in H. apply bind_Ok_inv in H as (clauses & Hsplit & H).
    exists clauses. split; [done|].
    apply bind_Ok_inv in H as (ws & Hws & H).
    assert (Hfits : Forall StdString.fits clauses).
    { destruct (split_shorter rule SEL_DEL Hfit ltac:(done) (has_true _ _ Hfit Hs))
        as (toks & Htoks & Hshort).
      rewrite Hsplit in Htoks. injection Htoks as <-.
      eapply Forall_impl; [exact Hshort|]. intros t. by apply shorter_fits. }
    apply (weightedRules_of_names _ _ Hfits) in Hws.
    unfold AddSelectorRule in H. apply bind_Ok_inv in H as (r & Hloop & H).
    injection H as <-.
    apply (AddSelectorRule_loop_interns _ HPR') in Hloop. rewrite Hws in Hloop.
    apply Forall_forall. intros c Hc. apply install_keeps.
    rewrite Forall_forall in Hloop. apply Hloop.
    apply list_elem_of_fmap. eauto.
  - intros Hl Hq Hs Hr. rewrite ParseRule_Repetition in H by done.
    rewrite ParseRepetitionRule_eq in H by (by try apply has_true).
    apply bind_Ok_inv in H as (n & _ & H).
    apply (AddRepetitionRule_shape _ HPR') in H as (gm & p & _ & Hp & ->).
    apply install_keeps. cbn [fst] in Hp. by exists p.
Qed.

(** X10: in a closed grammar, compiling under a name that is not
    registered changes nothing that the registry holds: every name keeps
    its node, every node that a name holds is as it was, and the grammar
    that results is bounded and closed again. *)
Theorem ParseRule_new_name (fuel : nat) name rule g g' :
  bounded g -> closed g -> m_pRules g !! name = None ->
  ParseRule of_token stof uninitialised_length fuel name rule g = Ok g' ->
  m_pRules g ⊆ m_pRules g' /\
  (forall p n, held (m_pRules g) p -> deref (store g) p = Some n ->
     deref (store g') p = Some n) /\
  bounded g' /\ closed g'.
Proof.
  intros Hb Hc Hnone H.
  assert (Hinv : inv true g) by (by split).
  pose proof (ParseRule_inv of_token stof uninitialised_length true
                fuel name rule g g' Hinv H) as [Hb' Hc'].
  destruct (ParseRule_shape of_token stof uninitialised_length true
              fuel name rule g g' Hinv H)
    as (gm & p & (_ & Hsub & Hst & Hfresh) & _ & ->).
  split; [|split; [|split; [done | by apply Hc']]].
  - rewrite install_ptr_registry. apply map_subseteq_spec. intros k q Hk.
    rewrite lookup_insert_ne by congruence. by eapply lookup_weaken.
  - intros [|i] n _ Hn; [done|]. cbn [deref] in *. specialize (Hst _ _ Hn).
    unfold install_ptr. destruct (registered name gm) eqn:E; [|done].
    apply registered_true in E as [old Hold].
    destruct (ChangeRule_cell name p gm old i Hold) as [->|[_ ->]]; [done|].
    rewrite Hst. simpl. f_equal. apply SwapDependingNode_id.
    destruct Hb as [_ Hb2]. eapply Forall_impl; [by eapply Hb2|].
    intros q Hq. simpl in Hq. specialize (Hfresh _ _ Hnone Hold). lia.
Qed.

(** X11: in every grammar that calls of [ParseRule] and [AddLeaveNode]
    build from the empty one, a registered name holds a pointer that is
    not null and points to a node: no read of [m_pRules[...]] in the
    compiler inserts an empty entry. *)
Theorem registry_never_null (name : string) (p : ptr) g :
  built of_token stof uninitialised_length g ->
  m_pRules g !! name = Some p ->
  p <> null /\ is_Some (deref (store g) p).
Proof.
  intros Hb%built_bounded Hp. split.
  - destruct Hb as [Hb1 _]. apply Hb1 in Hp. unfold null. lia.
  - apply bounded_deref; [done|]. by exists name.
Qed.

End AfterCompiling.

Lemma subrules_registered_witness :
  StdString.fits "R & x" /\
  exists toks, split "R & x" SEQ_DEL = Ok toks /\
               Forall (fun t => registered t StringGrammar.sequence_compiled = true) toks.
Proof.
  assert (Hfit : StdString.fits "R & x") by (apply fits_small; simpl; lia).
  assert (H1 : ~ occurs LND_DEL "R & x") by (by apply not_occurs).
  assert (H2 : occurs SEQ_DEL "R & x") by (by exists "R", "x").
  split; [exact Hfit|].
  exact (proj1 (proj2 (subrules_registered (Some (fun s => s)) StringGrammar.stof
                         StringGrammar.zero_length 5 "S" "R & x" empty_grammar
                         StringGrammar.sequence_compiled Hfit sequence_compiled_eq))
           H1 H2).
Defined.

Lemma ParseRule_new_name_witness :
  bounded (AddLeaveNode "R" "old" empty_grammar) /\
  closed (AddLeaveNode "R" "old" empty_grammar) /\
  exists g',
    ParseRule (Some (fun s => s)) StringGrammar.stof StringGrammar.zero_length 6
      "S" "R & x" (AddLeaveNode "R" "old" empty_grammar) = Ok g' /\
    m_pRules (AddLeaveNode "R" "old" empty_grammar) ⊆ m_pRules g' /\
    deref (store g') 1%nat = Some (LeafNode "old") /\
    closed g'.
Proof.
  assert (Hinv : inv true (AddLeaveNode "R" "old" (empty_grammar (Data := string))))
    by (apply AddLeaveNode_inv; [apply inv_empty | reflexivity]).
  destruct Hinv as [Hb Hc]. specialize (Hc eq_refl).
  split; [exact Hb|]. split; [exact Hc|].
  destruct (ParseRule (Some (fun s => s)) StringGrammar.stof StringGrammar.zero_length 6
              "S" "R & x" (AddLeaveNode "R" "old" empty_grammar)) as [g'|e| |] eqn:H;
    try (vm_compute in H; discriminate).
  exists g'. split; [reflexivity|].
  assert (Hn : m_pRules (AddLeaveNode "R" "old" (empty_grammar (Data := string))) !! "S"
               = None) by (vm_compute; reflexivity).
  assert (Hheld : held (m_pRules (AddLeaveNode "R" "old" (empty_grammar (Data := string))))
                    1%nat) by (exists "R"; vm_compute; reflexivity).
  destruct (ParseRule_new_name _ _ _ _ _ _ _ _ Hb Hc Hn H) as (H1 & H2 & _ & H4).
  split; [exact H1|]. split; [|exact H4].
  apply H2; [exact Hheld | vm_compute; reflexivity].
Defined.

Lemma registry_never_null_witness :
  built (Some (fun s => s)) StringGrammar.stof StringGrammar.zero_length
    StringGrammar.sequence_compiled /\
  m_pRules StringGrammar.sequence_compiled !! "S" = Some 3%nat /\
  is_Some (deref (store StringGrammar.sequence_compiled) 3%nat).
Proof.
  assert (Hb : built (Some (fun s => s)) StringGrammar.stof StringGrammar.zero_length
                 StringGrammar.sequence_compiled)
    by exact (built_ParseRule _ _ _ 6 "S" "R & x" _ _ (built_empty _ _ _)
                sequence_compiled_eq).
  assert (Hs : m_pRules StringGrammar.sequence_compiled !! "S" = Some 3%nat)
    by (vm_compute; reflexivity).
  split; [exact Hb|]. split; [exact Hs|].
  exact (proj2 (registry_never_null _ _ _ "S" 3%nat _ Hb Hs)).
Defined.

(** *** Aliases *)

Lemma AddSingleRule_alias {Data : Type} (of_token : option (string -> Data))
    (name rule : string) (g g' : Grammar Data) :
  AddSingleRule of_token name rule g = Ok g' ->
  exists p : ptr, m_pRules g' !! rule = Some p /\ m_pRules g' !! name = Some p.
Proof.
  unfold AddSingleRule. intros (g1 & Hg1 & H)%bind_Ok_inv.
  assert (Hr : is_Some (m_pRules g1 !! rule)).
  { destruct (registered rule g) eqn:E.
    - injection Hg1 as <-. by apply registered_true in E.
    - destruct of_token as [conv|]; [|done]. unfold make_shared, assign in Hg1.
      injection Hg1 as <-. simpl. rewrite lookup_insert_eq. eauto. }
  destruct Hr as [p Hp]. rewrite (subscript_Some _ _ _ Hp) in H.
  injection H as <-. exists p. rewrite install_ptr_registry.
  split; [|apply lookup_insert_eq].
  destruct (decide (name = rule)) as [->|Hne]; [apply lookup_insert_eq|].
  by rewrite lookup_insert_ne.
Qed.

Lemma AddSingleRule_again {Data : Type} (of_token : option (string -> Data))
    (name rule : string) (g : Grammar Data) (p : ptr) :
  m_pRules g !! rule = Some p -> m_pRules g !! name = Some p ->
  AddSingleRule of_token name rule g = Ok g.
Proof.
  intros Hr Hn. unfold AddSingleRule.
  rewrite (proj2 (registered_true rule g)) by eauto. rewrite bind_Ok.
  rewrite (subscript_Some _ _ _ Hr). unfold install_ptr.
  rewrite (proj2 (registered_true name g)) by eauto.
  unfold ChangeRule. rewrite (subscript_Some _ _ _ Hn).
  by rewrite decide_True.
Qed.

(** X12: after an atomic text is compiled, the name and the text are
    registered to one node, generation through either is the same call,
    and compiling the same alias again leaves the grammar as it is:
    [ChangeRule] returns at once when the name already has the node. *)
Theorem ParseRule_alias {Data : Type} (of_token : option (string -> Data))
    (stof : string -> exn + float) (uninitialised_length : string -> Z)
    (fuel : nat) (name rule : string) (g g' : Grammar Data) :
  StdString.fits rule -> atomic rule ->
  ParseRule of_token stof uninitialised_length (S fuel) name rule g = Ok g' ->
  (exists p : ptr, m_pRules g' !! rule = Some p /\ m_pRules g' !! name = Some p) /\
  (forall maxDepth samples fuel',
     GenerateSequence maxDepth samples fuel' name g'
     = GenerateSequence maxDepth samples fuel' rule g') /\
  (forall fuel', ParseRule of_token stof uninitialised_length (S fuel') name rule g'
                 = Ok g').
Proof.
  intros Hfit Hat H. rewrite ParseRule_Single in H by done.
  destruct (AddSingleRule_alias _ _ _ _ _ H) as (p & Hr & Hn).
  split; [eauto|]. split.
  - intros maxDepth samples fuel'. unfold GenerateSequence.
    rewrite !(proj2 (registered_true _ g')) by eauto.
    by rewrite (subscript_Some _ _ _ Hr), (subscript_Some _ _ _ Hn).
  - intros fuel'. rewrite ParseRule_Single by done. by eapply AddSingleRule_again.
Qed.

Lemma ParseRule_alias_witness :
  StdString.fits "R" /\ atomic "R" /\
  exists g',
    ParseRule (Some (fun s => s)) StringGrammar.stof StringGrammar.zero_length 1
      "T" "R" StringGrammar.sequence_compiled = Ok g' /\
    ParseRule (Some (fun s => s)) StringGrammar.stof StringGrammar.zero_length 1
      "T" "R" g' = Ok g'.
Proof.
  assert (Hfit : StdString.fits "R") by (apply fits_small; simpl; lia).
  assert (Hat : atomic "R") by (repeat split; by apply not_occurs).
  split; [exact Hfit|]. split; [exact Hat|].
  destruct (ParseRule (Some (fun s => s)) StringGrammar.stof StringGrammar.zero_length 1
              "T" "R" StringGrammar.sequence_compiled) as [g'|e| |] eqn:H;
    try (vm_compute in H; discriminate).
  exists g'. split; [reflexivity|].
  exact (proj2 (proj2 (ParseRule_alias _ _ _ 0 "T" "R" _ g' Hfit Hat H)) 0%nat).
Defined.

(** ** The exceptions that leave the compiler *)

Section Parts.

Import StdString.

Lemma occurs_refl (s : string) : occurs s s.
Proof. exists EmptyString, EmptyString. by rewrite app_nil, string_app_nil_r. Qed.

Lemma occurs_trans (a b c : string) : occurs a b -> occurs b c -> occurs a c.
Proof.
  intros (u & v & ->) (u' & v' & ->). exists (u' +:+ u), (v +:+ v').
  by rewrite !string_app_assoc.
Qed.

Lemma occurs_take (n : nat) (s : string) : occurs (take n s) s.
Proof. exists EmptyString, (drop n s). by rewrite app_nil, take_drop. Qed.

Lemma occurs_drop (n : nat) (s : string) : occurs (drop n s) s.
Proof. exists (take n s), EmptyString. by rewrite string_app_nil_r, take_drop. Qed.

Lemma occurs_length (t s : string) :
  occurs t s -> (String.length t <= String.length s)%nat.
Proof. intros (u & v & ->). rewrite !length_append. lia. Qed.

Lemma occurs_fits (t s : string) : fits s -> occurs t s -> fits t.
Proof. intros Hfit H%occurs_length. unfold fits, size in *. lia. Qed.

Lemma occurs_weight_token (c : string) : occurs (weight_token c) c.
Proof.
  unfold weight_token. destruct (find_from " " c 0); [apply occurs_take | apply occurs_refl].
Qed.

Lemma occurs_rule_token (c : string) : occurs (rule_token c) c.
Proof.
  unfold rule_token. destruct (find_from " " c 0); [apply occurs_drop | apply occurs_refl].
Qed.

Lemma occurs_LNode_ruleName (ul : string -> Z) (rule : string) :
  occurs (LNode_ruleName ul rule) rule.
Proof.
  unfold LNode_ruleName, after.
  eapply occurs_trans; [apply occurs_take | apply occurs_drop].
Qed.

End Parts.

Section Errors.

Context {Data : Type}.
Variable of_token : option (string -> Data).
Variable stof : string -> exn + float.
Variable uninitialised_length : string -> Z.

Implicit Types (g : Grammar Data) (name rule : string).

Local Abbreviation raised := (raised of_token stof).

Lemma raised_bind {A B : Type} rule (m : res A) (f : A -> res B) :
  raised rule m -> (forall a, m = Ok a -> raised rule (f a)) ->
  raised rule (m ≫= f).
Proof. destruct m; simpl; intros H1 H2; try done. by apply H2. Qed.

Lemma raised_weaken {A : Type} (t rule : string) (r : res A) :
  occurs t rule -> raised t r -> raised rule r.
Proof.
  intros Ht. destruct r as [a|e| |]; simpl; try done.
  intros [H|(s & Hs & He)]; [by left | right].
  exists s. split; [by eapply occurs_trans | done].
Qed.

Lemma raised_stof rule (s : string) : occurs s rule -> raised rule (lift (stof s)).
Proof. intros Hs. destruct (stof s) as [e|x] eqn:E; simpl; [|done]. right. eauto. Qed.

Section Callbacks.

Variable PR : string -> string -> Grammar Data -> res (Grammar Data).

Local Abbreviation safe := (safe of_token stof PR).

Lemma ensure_raised rule (t : string) g :
  occurs t rule -> safe t -> raised rule (ensure PR t g).
Proof.
  intros Ht Hsafe. unfold ensure. destruct (registered t g); [done|].
  eapply raised_weaken; [exact Ht | apply Hsafe].
Qed.

Lemma AddSequenceRule_raised name rule (rules : list string) g :
  Forall (fun t => occurs t rule /\ safe t) rules ->
  raised rule (AddSequenceRule PR name rules g).
Proof.
  intros H. unfold AddSequenceRule. apply raised_bind; [|done].
  generalize (@nil ptr) as elements. revert g.
  induction H as [|t rest [Ht Hs] _ IH]; intros g elements; [done|].
  cbn [AddSequenceRule_loop]. apply raised_bind; [by apply ensure_raised|].
  intros g1 _. destruct (subscript t g1). apply IH.
Qed.

Lemma AddSelectorRule_raised name rule (rules : list (string * float)) g :
  Forall (fun r => occurs (fst r) rule /\ safe (fst r)) rules ->
  raised rule (AddSelectorRule PR name rules g).
Proof.
  intros H. unfold AddSelectorRule. apply raised_bind; [|done].
  generalize (@nil (ptr * float)) as options. revert g.
  induction H as [|t rest [Ht Hs] _ IH]; intros g options; [done|].
  cbn [AddSelectorRule_loop]. apply raised_bind; [by apply ensure_raised|].
  intros g1 _. destruct (subscript (fst t) g1). apply IH.
Qed.

Lemma AddRepetitionRule_raised name rule (r : string * float) g :
  occurs (fst r) rule -> safe (fst r) -> raised rule (AddRepetitionRule PR name r g).
Proof.
  intros Ht Hs. unfold AddRepetitionRule. apply raised_bind; [by apply ensure_raised|].
  intros g1 _. by destruct (subscript (fst r) g1).
Qed.

Lemma AddLNodeRule_raised name rule (t f : string) g :
  occurs t rule -> safe t -> occurs f rule -> safe f ->
  raised rule (AddLNodeRule PR name t f g).
Proof.
  intros Ht Hs Hf Hsf. unfold AddLNodeRule.
  apply raised_bind; [by apply ensure_raised|]. intros g1 _.
  apply raised_bind; [by apply ensure_raised|]. intros g2 _.
  destruct (subscript t g2) as [p g3]. by destruct (subscript f g3).
Qed.

End Callbacks.

Lemma AddSingleRule_raised name rule g : raised rule (AddSingleRule of_token name rule g).
Proof.
  unfold AddSingleRule. apply raised_bind.
  - destruct (registered rule g); [done|].
    destruct of_token as [conv|] eqn:E; [by destruct (make_shared _ g)|].
    simpl. by left.
  - intros g1 _. by destruct (subscript rule g1).
Qed.

Lemma weightedRules_of_raised rule (clauses : list string) :
  StdString.fits rule -> Forall (fun c => occurs c rule) clauses ->
  raised rule (weightedRules_of stof clauses) /\
  forall ws, weightedRules_of stof clauses = Ok ws ->
             Forall (fun w => occurs (fst w) rule) ws.
Proof.
  intros Hfit H. induction H as [|c clauses Hc _ [IH1 IH2]].
  - split; [done|]. intros ws [= <-]. constructor.
  - cbn [weightedRules_of].
    rewrite weightedRule_of_eq by (by eapply occurs_fits).
    split.
    + apply raised_bind.
      * apply raised_bind; [|done]. apply raised_stof.
        eapply occurs_trans; [apply occurs_weight_token | done].
      * intros w _. by apply raised_bind.
    + intros ws H. apply bind_Ok_inv in H as (w & Hw & H).
      apply bind_Ok_inv in Hw as (x & _ & Hw). injection Hw as <-.
      apply bind_Ok_inv in H as (ws' & Hws' & H). injection H as <-.
      constructor; [|by apply IH2].
      simpl. eapply occurs_trans; [apply occurs_rule_token | done].
Qed.

Lemma ParseRule_raised (fuel : nat) name rule g :
  StdString.fits rule ->
  raised rule (ParseRule of_token stof uninitialised_length fuel name rule g).
Proof.
  revert name rule g. induction fuel as [|fuel IH]; intros name rule g Hfit; [done|].
  assert (Hsafe : forall t, occurs t rule ->
            safe of_token stof (ParseRule of_token stof uninitialised_length fuel) t).
  { intros t Ht g0. apply IH. by eapply occurs_fits. }
  cbn [ParseRule].
  destruct (has rule LND_DEL) eqn:E1.
  { rewrite ParseLNodeRule_eq by done.
    assert (occurs (before LND_DEL rule) rule) by apply occurs_take.
    pose proof (occurs_LNode_ruleName uninitialised_length rule).
    apply AddLNodeRule_raised; auto. }
  destruct (has rule SEQ_DEL) eqn:E2.
  { unfold ParseSequenceRule.
    destruct (split_loop_clean (S (String.length rule)) rule SEQ_DEL 0 [] Hfit)
      as (toks & Hsplit & Htoks); [done | left; unfold StdString.size; lia | constructor |].
    unfold split. rewrite Hsplit, bind_Ok. apply AddSequenceRule_raised.
    eapply Forall_impl; [exact Htoks|]. intros t (_ & _ & Ht). auto. }
  destruct (has rule SEL_DEL) eqn:E3.
  { unfold ParseSelectorRule.
    destruct (split_loop_clean (S (String.length rule)) rule SEL_DEL 0 [] Hfit)
      as (toks & Hsplit & Htoks); [done | left; unfold StdString.size; lia | constructor |].
    unfold split. rewrite Hsplit, bind_Ok.
    assert (Hocc : Forall (fun c => occurs c rule) toks)
      by (eapply Forall_impl; [exact Htoks|]; by intros t (_ & _ & Ht)).
    destruct (weightedRules_of_raised rule toks Hfit Hocc) as [H1 H2].
    apply raised_bind; [done|]. intros ws Hws. apply AddSelectorRule_raised.
    eapply Forall_impl; [exact (H2 ws Hws)|]. intros w Hw. auto. }
  destruct (has rule REP_DEL) eqn:E4.
  { rewrite ParseRepetitionRule_eq by done.
    apply raised_bind; [apply raised_stof, occurs_drop|].
    intros n _. apply AddRepetitionRule_raised; cbn [fst]; [apply occurs_take|].
    apply Hsafe, occurs_take. }
  apply AddSingleRule_raised.
Qed.

End Errors.

Section WithoutStof.

Context {Data : Type}.
Variable of_token : option (string -> Data).
Variable uninitialised_length : string -> Z.

Implicit Types (g : Grammar Data) (name rule : string).

Section Callbacks.

Variables PR PR' : string -> string -> Grammar Data -> res (Grammar Data).

Lemma ensure_ext (t : string) g :
  (forall g0, PR t t g0 = PR' t t g0) -> ensure PR t g = ensure PR' t g.
Proof. intros H. unfold ensure. by destruct (registered t g). Qed.

Lemma AddSequenceRule_loop_ext (rules : list string) (elements : list ptr) g :
  Forall (fun t => forall g0, PR t t g0 = PR' t t g0) rules ->
  AddSequenceRule_loop PR rules elements g = AddSequenceRule_loop PR' rules elements g.
Proof.
  intros H. revert elements g. induction H as [|t rest Ht _ IH]; intros elements g; [done|].
  cbn [AddSequenceRule_loop]. rewrite (ensure_ext t g Ht).
  destruct (ensure PR' t g) as [g1| | |]; simpl; try done.
  destruct (subscript t g1). apply IH.
Qed.

Lemma AddLNodeRule_ext name (t f : string) g :
  (forall g0, PR t t g0 = PR' t t g0) -> (forall g0, PR f f g0 = PR' f f g0) ->
  AddLNodeRule PR name t f g = AddLNodeRule PR' name t f g.
Proof.
  intros Ht Hf. unfold AddLNodeRule. rewrite (ensure_ext t g Ht).
  destruct (ensure PR' t g) as [g1| | |]; simpl; try done.
  by rewrite (ensure_ext f g1 Hf).
Qed.

End Callbacks.

(** A text without [" | "] and [" # "] is compiled without a call of
    [stof]. *)
Lemma ParseRule_without_stof (stof stof' : string -> exn + float)
    (fuel : nat) name rule g :
  StdString.fits rule -> ~ occurs SEL_DEL rule -> ~ occurs REP_DEL rule ->
  ParseRule of_token stof uninitialised_length fuel name rule g
  = ParseRule of_token stof' uninitialised_length fuel name rule g.
Proof.
  revert name rule g. induction fuel as [|fuel IH]; intros name rule g Hfit Hs Hr; [done|].
  assert (Hpart : forall t, occurs t rule -> forall g0,
            ParseRule of_token stof uninitialised_length fuel t t g0
            = ParseRule of_token stof' uninitialised_length fuel t t g0).
  { intros t Ht g0. apply IH.
    - by eapply occurs_fits.
    - intros H. apply Hs. by eapply occurs_trans.
    - intros H. apply Hr. by eapply occurs_trans. }
  cbn [ParseRule].
  destruct (has rule LND_DEL) eqn:E1.
  { rewrite !ParseLNodeRule_eq by done. apply AddLNodeRule_ext; apply Hpart.
    - apply occurs_LNode_ruleName.
    - apply occurs_take. }
  destruct (has rule SEQ_DEL) eqn:E2.
  { unfold ParseSequenceRule.
    destruct (split_loop_clean (S (String.length rule)) rule SEQ_DEL 0 [] Hfit)
      as (toks & Hsplit & Htoks); [done | left; unfold StdString.size; lia | constructor |].
    unfold split. rewrite Hsplit, !bind_Ok. unfold AddSequenceRule.
    rewrite (AddSequenceRule_loop_ext _ (ParseRule of_token stof' uninitialised_length fuel));
      [done|].
    eapply Forall_impl; [exact Htoks|]. intros t (_ & _ & Ht). by apply Hpart. }
  rewrite (has_false _ _ Hfit Hs), (has_false _ _ Hfit Hr). done.
Qed.

End WithoutStof.

(** X13: whatever [ParseRule] throws is [Rule404Exception], and that
    only where the payload is no string, or an exception that [stof]
    threw on a part of the rule text: the calls of [substr] in the
    compiler throw nothing.  A text without [" | "] and [" # "] is
    compiled without a call of [stof]: where the payload is a string,
    [ParseRule] does not throw on it, and on a bounded grammar, with fuel
    above the length of the text, it returns a grammar that is bounded
    again. *)
Theorem ParseRule_exceptions {Data : Type} (of_token : option (string -> Data))
    (stof : string -> exn + float) (uninitialised_length : string -> Z)
    (fuel : nat) (name rule : string) (g : Grammar Data) :
  StdString.fits rule ->
  (forall e, ParseRule of_token stof uninitialised_length fuel name rule g = Throw e ->
     (e = Rule404Exception /\ of_token = None) \/
     exists s, occurs s rule /\ stof s = inl e) /\
  (of_token <> None -> ~ occurs SEL_DEL rule -> ~ occurs REP_DEL rule ->
   (forall e, ParseRule of_token stof uninitialised_length fuel name rule g <> Throw e) /\
   (bounded g -> (String.length rule < fuel)%nat ->
    exists g', ParseRule of_token stof uninitialised_length fuel name rule g = Ok g' /\
               bounded g')).
Proof.
  intros Hfit.
  pose proof (ParseRule_raised of_token stof uninitialised_length fuel name rule g Hfit) as H.
  split.
  { intros e He. by rewrite He in H. }
  intros Hsome Hs Hr.
  assert (Hno : forall e,
            ParseRule of_token stof uninitialised_length fuel name rule g <> Throw e).
  { intros e He.
    rewrite (ParseRule_without_stof of_token uninitialised_length stof
               (fun _ => inr float_zero)) in He by done.
    pose proof (ParseRule_raised of_token (fun _ => inr float_zero) uninitialised_length
                  fuel name rule g Hfit) as H'.
    rewrite He in H'. simpl in H'. destruct H' as [[_ ?]|(s & _ & ?)]; done. }
  split; [exact Hno|]. intros Hb Hfuel.
  pose proof (ParseRule_total of_token stof uninitialised_length fuel name rule g
                Hfit Hfuel) as Htot.
  destruct (ParseRule of_token stof uninitialised_length fuel name rule g)
    as [g'|e| |] eqn:E; [|by destruct (Hno e) | done | done].
  exists g'. split; [done|].
  exact (proj1 (ParseRule_inv of_token stof uninitialised_length false
                  fuel name rule g g' (bounded_inv g Hb) E)).
Qed.

Lemma ParseRule_exceptions_witness :
  StdString.fits "1 a | x b" /\
  ParseRule (Some (fun s => s)) StringGrammar.stof StringGrammar.zero_length 3
    "S" "1 a | x b" empty_grammar = Throw invalid_argument /\
  (exists s, occurs s "1 a | x b" /\ StringGrammar.stof s = inl invalid_argument) /\
  StdString.fits "a -> b & c" /\
  ~ occurs SEL_DEL "a -> b & c" /\ ~ occurs REP_DEL "a -> b & c" /\
  exists g', ParseRule (Some (fun s => s)) StringGrammar.stof StringGrammar.zero_length 11
               "F" "a -> b & c" empty_grammar = Ok g' /\ bounded g'.
Proof.
  assert (Hfit : StdString.fits "1 a | x b") by (apply fits_small; simpl; lia).
  assert (H : ParseRule (Some (fun s => s)) StringGrammar.stof StringGrammar.zero_length 3
                "S" "1 a | x b" empty_grammar = Throw invalid_argument)
    by (vm_compute; reflexivity).
  assert (Hfit' : StdString.fits "a -> b & c") by (apply fits_small; simpl; lia).
  assert (Hs : ~ occurs SEL_DEL "a -> b & c") by (by apply not_occurs).
  assert (Hr : ~ occurs REP_DEL "a -> b & c") by (by apply not_occurs).
  split; [exact Hfit|]. split; [exact H|]. split.
  { destruct (proj1 (ParseRule_exceptions (Some (fun s => s)) StringGrammar.stof
                       StringGrammar.zero_length 3 "S" "1 a | x b" empty_grammar Hfit)
                invalid_argument H) as [[_ Hnone]|Hx]; [discriminate Hnone | exact Hx]. }
  split; [exact Hfit'|]. split; [exact Hs|]. split; [exact Hr|].
  apply (proj2 (ParseRule_exceptions (Some (fun s => s)) StringGrammar.stof
                  StringGrammar.zero_length 11 "F" "a -> b & c" empty_grammar Hfit'));
    [discriminate | exact Hs | exact Hr | exact (proj1 (inv_empty (c := false)))
     | simpl; lia].
Defined.

(** ** The names that a compilation registers *)

Section NewNames.

Context {Data : Type}.
Variable of_token : option (string -> Data).
Variable stof : string -> exn + float.
Variable uninitialised_length : string -> Z.

Implicit Types (g : Grammar Data) (name rule : string).

Section Callbacks.

Variable PR : string -> string -> Grammar Data -> res (Grammar Data).

Hypothesis PR_names : forall t g g',
  StdString.fits t -> PR t t g = Ok g' ->
  forall k, is_Some (m_pRules g' !! k) -> is_Some (m_pRules g !! k) \/ occurs k t.

Lemma ensure_names rule (t : string) g g1 :
  StdString.fits rule -> occurs t rule -> ensure PR t g = Ok g1 ->
  forall k, is_Some (m_pRules g1 !! k) -> is_Some (m_pRules g !! k) \/ occurs k rule.
Proof.
  intros Hfit Ht. unfold ensure. destruct (registered t g).
  - intros [= <-] k Hk. by left.
  - intros H k Hk.
    destruct (PR_names t g g1 (occurs_fits _ _ Hfit Ht) H k Hk) as [?|Hkt]; [by left|].
    right. by eapply occurs_trans.
Qed.

Lemma ensure_subscript_names rule (t : string) g g1 (p : ptr) g2 :
  StdString.fits rule -> occurs t rule ->
  ensure PR t g = Ok g1 -> subscript t g1 = (p, g2) ->
  forall k, is_Some (m_pRules g2 !! k) -> is_Some (m_pRules g !! k) \/ occurs k rule.
Proof.
  intros Hfit Ht Hg1 E k Hk. unfold subscript in E.
  destruct (m_pRules g1 !! t) as [q|] eqn:Et.
  - injection E as <- <-. by eapply ensure_names.
  - injection E as <- <-. simpl in Hk.
    destruct (decide (t = k)) as [<-|Hne]; [by right|].
    rewrite lookup_insert_ne in Hk by done. by eapply ensure_names.
Qed.

Lemma AddSequenceRule_loop_names rule (rules : list string) (elements : list ptr) g r :
  StdString.fits rule -> Forall (fun t => occurs t rule) rules ->
  AddSequenceRule_loop PR rules elements g = Ok r ->
  forall k, is_Some (m_pRules (snd r) !! k) -> is_Some (m_pRules g !! k) \/ occurs k rule.
Proof.
  intros Hfit H. revert elements g.
  induction H as [|t rest Ht _ IH]; intros elements g Hloop k Hk.
  - injection Hloop as <-. by left.
  - cbn [AddSequenceRule_loop] in Hloop.
    apply bind_Ok_inv in Hloop as (g1 & Hg1 & Hloop).
    destruct (subscript t g1) as [p g2] eqn:E.
    destruct (IH _ _ Hloop k Hk) as [Hk2|?]; [|by right].
    by eapply ensure_subscript_names.
Qed.

Lemma AddSelectorRule_loop_names rule (rules : list (string * float))
    (options : list (ptr * float)) g r :
  StdString.fits rule -> Forall (fun w => occurs (fst w) rule) rules ->
  AddSelectorRule_loop PR rules options g = Ok r ->
  forall k, is_Some (m_pRules (snd r) !! k) -> is_Some (m_pRules g !! k) \/ occurs k rule.
Proof.
  intros Hfit H. revert options g.
  induction H as [|t rest Ht _ IH]; intros options g Hloop k Hk.
  - injection Hloop as <-. by left.
  - cbn [AddSelectorRule_loop] in Hloop.
    apply bind_Ok_inv in Hloop as (g1 & Hg1 & Hloop).
    destruct (subscript (fst t) g1) as [p g2] eqn:E.
    destruct (IH _ _ Hloop k Hk) as [Hk2|?]; [|by right].
    by eapply ensure_subscript_names.
Qed.

End Callbacks.

Lemma install_names name (n : Node Data) g (k : string) :
  is_Some (m_pRules (install name n g) !! k) -> k = name \/ is_Some (m_pRules g !! k).
Proof.
  rewrite install_registry. destruct (decide (name = k)) as [->|Hne]; [by left|].
  rewrite lookup_insert_ne by done. by right.
Qed.

Lemma AddSingleRule_names name rule g g' :
  AddSingleRule of_token name rule g = Ok g' ->
  forall k, is_Some (m_pRules g' !! k) ->
            is_Some (m_pRules g !! k) \/ k = name \/ k = rule.
Proof.
  unfold AddSingleRule. intros (g1 & Hg1 & H)%bind_Ok_inv k Hk.
  assert (H1 : forall k, is_Some (m_pRules g1 !! k) ->
                         is_Some (m_pRules g !! k) \/ k = rule).
  { intros k0 Hk0. destruct (registered rule g).
    - injection Hg1 as <-. by left.
    - destruct of_token as [conv|]; [|done]. unfold make_shared, assign in Hg1.
      injection Hg1 as <-. simpl in Hk0.
      destruct (decide (rule = k0)) as [->|Hne]; [by right|].
      rewrite lookup_insert_ne in Hk0 by done. by left. }
  assert (H2 : forall k, is_Some (m_pRules (snd (subscript rule g1)) !! k) ->
                         is_Some (m_pRules g !! k) \/ k = rule).
  { intros k0 Hk0. unfold subscript in Hk0.
    destruct (m_pRules g1 !! rule) as [q|] eqn:Et; simpl in Hk0; [by apply H1|].
    destruct (decide (rule = k0)) as [->|Hne]; [by right|].
    rewrite lookup_insert_ne in Hk0 by done. by apply H1. }
  destruct (subscript rule g1) as [p g2]. injection H as <-.
  rewrite install_ptr_registry in Hk.
  destruct (decide (name = k)) as [->|Hne]; [by right; left|].
  rewrite lookup_insert_ne in Hk by done.
  destruct (H2 k Hk) as [?|?]; [by left | by right; right].
Qed.

(** X14: a compilation registers no name but the one it was given and
    parts of the rule text, the subrules it names: every name that is
    registered afterwards was registered before, or is the name
    compiled, or occurs in the text. *)
Theorem ParseRule_names (fuel : nat) name rule g g' :
  StdString.fits rule ->
  ParseRule of_token stof uninitialised_length fuel name rule g = Ok g' ->
  forall k, is_Some (m_pRules g' !! k) ->
            is_Some (m_pRules g !! k) \/ k = name \/ occurs k rule.
Proof.
  revert name rule g g'. induction fuel as [|fuel IH]; intros name rule g g' Hfit; [done|].
  assert (HPR : forall t g g',
            StdString.fits t ->
            ParseRule of_token stof uninitialised_length fuel t t g = Ok g' ->
            forall k, is_Some (m_pRules g' !! k) ->
                      is_Some (m_pRules g !! k) \/ occurs k t).
  { intros t g0 g0' Ht H0 k Hk.
    destruct (IH _ _ _ _ Ht H0 k Hk) as [?|[Hkt|?]];
      [by left | right; rewrite Hkt; apply occurs_refl | by right]. }
  assert (Hinstall : forall (n : Node Data) gm,
            (forall k, is_Some (m_pRules gm !! k) ->
                       is_Some (m_pRules g !! k) \/ occurs k rule) ->
            forall k, is_Some (m_pRules (install name n gm) !! k) ->
                      is_Some (m_pRules g !! k) \/ k = name \/ occurs k rule).
  { intros n gm Hgm k [->|Hk]%install_names; [by right; left|].
    destruct (Hgm k Hk) as [?|?]; [by left | by right; right]. }
  cbn [ParseRule].
  destruct (has rule LND_DEL) eqn:E1.
  { rewrite ParseLNodeRule_eq by done. unfold AddLNodeRule.
    intros (g1 & Hg1 & (g2 & Hg2 & H)%bind_Ok_inv)%bind_Ok_inv.
    destruct (subscript (LNode_ruleName uninitialised_length rule) g2) as [p g3] eqn:E3.
    destruct (subscript (before LND_DEL rule) g3) as [f g4] eqn:E4.
    injection H as <-. apply Hinstall. intros k Hk.
    assert (Hb : occurs (before LND_DEL rule) rule) by apply occurs_take.
    pose proof (occurs_LNode_ruleName uninitialised_length rule) as Hr.
    assert (H3 : forall k, is_Some (m_pRules g3 !! k) ->
                           is_Some (m_pRules g !! k) \/ occurs k rule).
    { intros k0 Hk0. unfold subscript in E3.
      assert (H2 : forall k, is_Some (m_pRules g2 !! k) ->
                             is_Some (m_pRules g !! k) \/ occurs k rule).
      { intros k1 Hk1.
        destruct (ensure_names _ HPR rule _ _ _ Hfit Hb Hg2 k1 Hk1) as [?|?]; [|by right].
        by eapply (ensure_names _ HPR rule). }
      destruct (m_pRules g2 !! LNode_ruleName uninitialised_length rule) as [q|].
      - injection E3 as <- <-. by apply H2.
      - injection E3 as <- <-. simpl in Hk0.
        destruct (decide (LNode_ruleName uninitialised_length rule = k0)) as [<-|Hne];
          [by right|].
        rewrite lookup_insert_ne in Hk0 by done. by apply H2. }
    unfold subscript in E4.
    destruct (m_pRules g3 !! before LND_DEL rule) as [q|].
    - injection E4 as <- <-. by apply H3.
    - injection E4 as <- <-. simpl in Hk.
      destruct (decide (before LND_DEL rule = k)) as [<-|Hne]; [by right|].
      rewrite lookup_insert_ne in Hk by done. by apply H3. }
  destruct (has rule SEQ_DEL) eqn:E2.
  { unfold ParseSequenceRule.
    destruct (split_loop_clean (S (String.length rule)) rule SEQ_DEL 0 [] Hfit)
      as (toks & Hsplit & Htoks); [done | left; unfold StdString.size; lia | constructor |].
    unfold split. rewrite Hsplit, bind_Ok. unfold AddSequenceRule.
    intros (r & Hloop & H)%bind_Ok_inv. injection H as <-. apply Hinstall.
    eapply (AddSequenceRule_loop_names _ HPR); [done | | exact Hloop].
    eapply Forall_impl; [exact Htoks|]. by intros t (_ & _ & Ht). }
  destruct (has rule SEL_DEL) eqn:E3.
  { unfold ParseSelectorRule.
    destruct (split_loop_clean (S (String.length rule)) rule SEL_DEL 0 [] Hfit)
      as (toks & Hsplit & Htoks); [done | left; unfold StdString.size; lia | constructor |].
    unfold split. rewrite Hsplit, bind_Ok.
    assert (Hocc : Forall (fun c => occurs c rule) toks)
      by (eapply Forall_impl; [exact Htoks|]; by intros t (_ & _ & Ht)).
    destruct (weightedRules_of_raised of_token stof rule toks Hfit Hocc) as [_ H2].
    intros (ws & Hws & H)%bind_Ok_inv. unfold AddSelectorRule in H.
    apply bind_Ok_inv in H as (r & Hloop & H). injection H as <-. apply Hinstall.
    eapply (AddSelectorRule_loop_names _ HPR); [done | | exact Hloop].
    by apply H2. }
  destruct (has rule REP_DEL) eqn:E4.
  { rewrite ParseRepetitionRule_eq by done.
    intros (n & _ & H)%bind_Ok_inv. unfold AddRepetitionRule in H. cbn [fst snd] in H.
    apply bind_Ok_inv in H as (g1 & Hg1 & H).
    destruct (subscript (before REP_DEL rule) g1) as [p g2] eqn:E.
    injection H as <-. apply Hinstall.
    eapply (ensure_subscript_names _ HPR); [done | apply occurs_take | done | done]. }
  intros H k Hk. destruct (AddSingleRule_names _ _ _ _ H k Hk) as [?|[?|Hkr]];
    [by left | by right; left | right; right; rewrite Hkr; apply occurs_refl].
Qed.

End NewNames.

Lemma ParseRule_names_witness :
  StdString.fits "R & x" /\
  forall k, is_Some (m_pRules StringGrammar.sequence_compiled !! k) ->
            is_Some (m_pRules (empty_grammar (Data := string)) !! k) \/
            k = "S" \/ occurs k "R & x".
Proof.
  assert (Hfit : StdString.fits "R & x") by (apply fits_small; simpl; lia).
  split; [exact Hfit|].
  exact (ParseRule_names (Some (fun s => s)) StringGrammar.stof StringGrammar.zero_length
           6 "S" "R & x" empty_grammar StringGrammar.sequence_compiled
           Hfit sequence_compiled_eq).
Defined.

(** ** A redefinition in a closed grammar *)

(** X15: a redefinition by text in a bounded and closed grammar, where
    every node that the graph reaches is held by the registry.  The
    compilation returns [ChangeRule name newNode gm]: [gm] is the grammar
    after the subrules of the text were compiled, with the names and the
    held nodes of [g] as they were, and [newNode] is the node that the
    text compiles to, the one that the same text compiled under a name
    that [gm] does not have registers that name to.  [name] then has
    [newNode]; every node that the graph of the result reaches is the one
    of [gm] with [newNode] in the place of every reference to the old
    node; where [newNode] is another node than the old one, no node of
    the graph refers to the old one any more; a generation through a
    sequence of the graph evaluates [newNode] where the old node stood;
    and the result is bounded and closed again. *)
Theorem redefinition_rewrites_every_node {Data : Type} (of_token : option (string -> Data))
    (stof : string -> exn + float) (uninitialised_length : string -> Z)
    (fuel : nat) (name rule : string) (g g' : Grammar Data) (oldNode : ptr) :
  bounded g -> closed g -> m_pRules g !! name = Some oldNode ->
  ParseRule of_token stof uninitialised_length fuel name rule g = Ok g' ->
  exists gm newNode,
    (forall name', m_pRules gm !! name' = None ->
       ParseRule of_token stof uninitialised_length fuel name' rule g
       = Ok (assign name' newNode gm)) /\
    g' = ChangeRule name newNode gm /\
    m_pRules g ⊆ m_pRules gm /\
    (forall p n, held (m_pRules g) p -> deref (store g) p = Some n ->
       deref (store gm) p = Some n) /\
    m_pRules g' = <[name := newNode]> (m_pRules gm) /\
    (forall p n, reachable g' p -> deref (store gm) p = Some n ->
       deref (store g') p = Some (SwapDependingNode oldNode newNode n)) /\
    (newNode <> oldNode ->
     forall p n, reachable g' p -> deref (store g') p = Some n -> oldNode ∉ ptrs_of n) /\
    (forall p elements maxDepth samples fuel' depth acc,
       reachable g' p -> deref (store gm) p = Some (SequenceNode elements) ->
       Parse maxDepth samples (S fuel') (store g') p depth acc
       = foldl (fun r q => r ≫= Parse maxDepth samples fuel' (store g') q depth)
           (Ok acc) (map (swap_ptr oldNode newNode) elements)) /\
    bounded g' /\ closed g'.
Proof.
  intros Hb Hc Hold H.
  assert (Hinv : inv true g) by (split; [done | by intros _]).
  destruct (ParseRule_uniform of_token stof uninitialised_length true
              fuel name rule g g' Hinv H)
    as (gm & newNode & (_ & Hsub & Hst & _) & _ & Huni).
  destruct (ParseRule_inv of_token stof uninitialised_length true
              fuel name rule g g' Hinv H) as [Hb' Hc'].
  specialize (Hc' eq_refl).
  pose proof (lookup_weaken _ _ _ _ Hold Hsub) as Hold'.
  assert (Hg' : g' = ChangeRule name newNode gm).
  { pose proof (Huni name) as Hn. rewrite H in Hn. injection Hn as ->.
    unfold install_ptr. by rewrite (proj2 (registered_true name gm)) by eauto. }
  destruct (ChangeRule_registered name newNode gm oldNode Hold') as (Hr & _ & Hheld & _).
  assert (Hcell : forall p, reachable g' p ->
            deref (store g') p = SwapDependingNode oldNode newNode <$> deref (store gm) p).
  { intros p Hp%(reachable_is_held _ _ Hc'). rewrite Hg' in *. rewrite Hr in Hp.
    destruct p as [|i]; [done|]. by apply Hheld. }
  exists gm, newNode.
  split; [|split; [|split; [|split; [|split; [|split; [|split; [|split; [|split]]]]]]]].
  - intros name' Hnone. rewrite Huni. unfold install_ptr.
    by rewrite (proj2 (registered_false name' gm)).
  - exact Hg'.
  - exact Hsub.
  - intros p n _ Hp. destruct p as [|i]; [done|]. by apply Hst.
  - by rewrite Hg'.
  - intros p n Hp Hn. by rewrite (Hcell _ Hp), Hn.
  - intros Hnew p n' Hp Hn'. rewrite (Hcell _ Hp) in Hn'.
    destruct (deref (store gm) p) as [n|]; [|done]. injection Hn' as <-.
    rewrite ptrs_of_swap. intros (q & Hq & _)%list_elem_of_fmap.
    by eapply swap_ptr_not_old.
  - intros p elements maxDepth samples fuel' depth acc Hp Hn.
    cbn [Parse]. by rewrite (Hcell _ Hp), Hn.
  - exact Hb'.
  - exact Hc'.
Qed.

Lemma redefinition_rewrites_every_node_witness :
  bounded StringGrammar.sequence_compiled /\ closed StringGrammar.sequence_compiled /\
  m_pRules StringGrammar.sequence_compiled !! "R" = Some 1%nat /\
  exists newNode,
    m_pRules StringGrammar.sequence_redefined !! "R" = Some newNode /\
    deref (store StringGrammar.sequence_redefined) 3%nat
    = Some (SwapDependingNode 1%nat newNode (SequenceNode [1%nat; 2%nat])).
Proof.
  assert (Hb : bounded StringGrammar.sequence_compiled)
    by exact (proj1 (sequence_compiled_inv true)).
  assert (Hc : closed StringGrammar.sequence_compiled)
    by exact (proj2 (sequence_compiled_inv true) eq_refl).
  split; [exact Hb|]. split; [exact Hc|]. split; [reflexivity|].
  destruct (redefinition_rewrites_every_node (Some (fun s => s)) StringGrammar.stof
              StringGrammar.zero_length 6 "R" "y & z"
              StringGrammar.sequence_compiled StringGrammar.sequence_redefined 1%nat
              Hb Hc eq_refl sequence_redefined_eq)
    as (gm & newNode & _ & _ & _ & Hst & Hr & Hnode & _).
  exists newNode. split.
  - rewrite Hr. apply lookup_insert_eq.
  - apply Hnode.
    + apply reachable_held. exists "S". reflexivity.
    + apply Hst; [exists "S"; reflexivity | reflexivity].
Defined.

(** * The model on small inputs *)

Example find_examples :
  StdString.find "a & b & c" " & " 0 = 1 /\
  StdString.find "a & b & c" " & " 2 = 5 /\
  StdString.find "a & b" " | " 0 = SizeT.npos /\
  StdString.find_first_not_of "a & b" " & " 1 = 4 /\
  StdString.substr "a & b" 4 (SizeT.sub SizeT.npos 4) = Some "b" /\
  StdString.substr "a & b" 6 1 = None.
Proof. repeat split; reflexivity. Qed.

Example split_examples :
  split "a & b & c" SEQ_DEL = Ok ["a"; "b"; "c"] /\
  split " & a" SEQ_DEL = Ok ["a"] /\
  split "1 a | 2 b c" SEL_DEL = Ok ["1 a"; "2 b c"] /\
  split "a | b & c" SEQ_DEL = Ok ["a | b"; "c"].
Proof. repeat split; vm_compute; reflexivity. Qed.

Example clause_examples :
  weightedRule_of StringGrammar.stof "2 b" = Ok ("b", float_of_Z 2) /\
  weightedRule_of StringGrammar.stof "3" = Ok ("3", float_of_Z 3) /\
  weightedRule_of StringGrammar.stof "x 1" = Throw invalid_argument /\
  weightedRule_of StringGrammar.stof "b" = Throw invalid_argument.
Proof. repeat split; vm_compute; reflexivity. Qed.

(** A rule that names itself after [" -> "]: the leaf made for the name
    while the right operand is compiled is replaced by the [LNode], and the
    sequence then refers to the [LNode] itself.  Generation goes round
    three times, the depth limit, and ends in the fallback. *)
Example self_reference :
  (g ← StringGrammar.compile "T" "a -> b & T" empty_grammar;
   Ok (store g))
  = Ok [LeafNode "b"; LeafNode "T"; SequenceNode [1%nat; 5%nat];
        LeafNode "a"; LNode 3%nat 4%nat] /\
  (g ← StringGrammar.compile "T" "a -> b & T" empty_grammar;
   StringGrammar.generate "T" g) = Ok ["b"; "b"; "b"; "a"].
Proof. split; vm_compute; reflexivity. Qed.

(** The count that [ParseLNodeRule] computes from a length it reads before
    the string is constructed can cut the right operand short. *)
Example uninitialised_length_cuts :
  LNode_ruleName (fun _ => 0) "a -> bcd" = "bcd" /\
  LNode_ruleName (fun _ => 2) "a -> bcd" = "bc" /\
  LNode_ruleName (fun _ => 4) "a -> bcd" = "" /\
  LNode_ruleName (fun _ => 5) "a -> bcd" = "bcd".
Proof. repeat split; vm_compute; reflexivity. Qed.

Example selector_draw :
  (g ← StringGrammar.compile "S" "1 a | 3 b" empty_grammar;
   GenerateSequence 3 (fun _ => float_zero) 10 "S" g) = Ok ["a"] /\
  (g ← StringGrammar.compile "S" "1 a | 3 b" empty_grammar;
   GenerateSequence 3 (fun _ => float_of_Z 2) 10 "S" g) = Ok ["b"] /\
  (g ← StringGrammar.compile "R" "a # 3" empty_grammar;
   StringGrammar.generate "R" g) = Ok ["a"; "a"; "a"] /\
  (g ← StringGrammar.compile "R" "a # 0" empty_grammar;
   StringGrammar.generate "R" g) = Ok [].
Proof. repeat split; vm_compute; reflexivity. Qed.
